(** * loop-casual: combat strategy tables and their compilation to macros

    A shallow embedding of [src/combat.ts]: the [MonsterStrategy] enum, the
    [CombatStrategy] builder (the strategy table) and [BuiltCombatStrategy]
    (the assembled macro, [prepare_macro] and [handle_monster]), followed by
    the properties the specification states about them.

    Numbers coming from KoLmafia are 32-bit integers ([int32]); the one
    fractional constant of the source, [1.25], is the rational [5#4], so the
    escalation test [monsterDefense(monster) * 1.25 > myBuffedstat(...)] is
    evaluated in [Q].  On 32-bit integers the source's floating-point product
    is that rational exactly: a multiple of 1/4 below 2^32 in size has a
    significand of at most 34 bits. *)

From Stdlib Require Import List Ascii String ZArith QArith Bool Arith Lia.
Import ListNotations.
Close Scope Q_scope.
Local Open Scope string_scope.
Local Open Scope list_scope.

(* ================================================================== *)
(** ** KoLmafia values *)

(** A monster is compared by identity; [physicalResistance] is the field the
    source reads off it. *)
Record Monster : Type := mkMonster {
  monster_id : Z;
  physicalResistance : Z
}.

Inductive Stat : Type := muscle | mysticality | moxie | no_stat.

Inductive Skill : Type := skill_named (name : string).
Inductive Item : Type := item_named (name : string).
Inductive Slot : Type := Weapon | other_slot (name : string).

Definition Monster_eq_dec (a b : Monster) : {a = b} + {a <> b}.
Proof. decide equality; apply Z.eq_dec. Defined.

Definition Stat_eq_dec (a b : Stat) : {a = b} + {a <> b}.
Proof. decide equality. Defined.

(** The range of the integers KoLmafia hands to a script. *)
Definition int32 (z : Z) : Prop := (- 2 ^ 31 <= z < 2 ^ 31)%Z.

(** A number a JavaScript [number] holds exactly: a significand below 2^53
    in size times a power of two within the exponent range of a double. *)
Definition is_double (q : Q) : Prop :=
  exists m e : Z,
    (Z.abs m < 2 ^ 53)%Z /\ (-1074 <= e <= 971)%Z
    /\ (q == inject_Z m * Qpower 2 e)%Q.

(** The live state read through the [kolmafia] imports of combat.ts. *)
Record Kolmafia : Type := mkKolmafia {
  equippedItem : Slot -> Item;
  weaponType : Item -> Stat;
  myBuffedstat : Stat -> Z;
  monsterDefense : Monster -> Z
}.

(* ================================================================== *)
(** ** Macros *)

Inductive Predicate : Type :=
| monsterid (m : Monster)
| hasskill (s : Skill)
| hascombatitem (i : Item).

#[warnings="-register-all"]
Inductive Command : Type :=
| c_skill (s : Skill)
| c_use (i : Item)
| c_attack
| c_runaway
| c_repeat
| c_abort
| c_if (p : Predicate) (body : list Command).

Definition Macro : Type := list Command.

Declare Scope macro_scope.
Delimit Scope macro_scope with macro.
Notation "m |> f" := (f m) (at level 45, left associativity, only parsing) : macro_scope.
Local Open Scope macro_scope.

(** Modelled from the spec: the action-program combinator library ([Macro],
    imported from libram) is not part of the repository.  Its primitives are
    the ones section 6 of the specification lists: a single fixed action, a
    best-effort action (skipped when unusable), repeat, abort, flee,
    sequential composition and a branch keyed by the opponent.  A macro is
    the sequence of its commands; every builder method appends. *)
Module MacroLib.

Definition new : Macro := [].

Definition step (next : Macro) (m : Macro) : Macro := m ++ next.

Definition if_ (p : Predicate) (ifTrue : Macro) (m : Macro) : Macro :=
  m ++ [c_if p ifTrue].

Definition skill (s : Skill) (m : Macro) : Macro := m ++ [c_skill s].

Definition item (i : Item) (m : Macro) : Macro := m ++ [c_use i].

Definition trySkill (s : Skill) (m : Macro) : Macro :=
  m ++ [c_if (hasskill s) [c_skill s]].

Definition tryItem (i : Item) (m : Macro) : Macro :=
  m ++ [c_if (hascombatitem i) [c_use i]].

Definition attack (m : Macro) : Macro := m ++ [c_attack].

Definition runaway (m : Macro) : Macro := m ++ [c_runaway].

Definition repeat (m : Macro) : Macro := m ++ [c_repeat].

Definition abort (m : Macro) : Macro := m ++ [c_abort].

End MacroLib.

(** A best-effort attempt: the action guarded by its own availability test. *)
Definition best_effort (c : Command) : bool :=
  match c with
  | c_if (hasskill _) [c_skill _] => true
  | c_if (hascombatitem _) [c_use _] => true
  | _ => false
  end.

(** Modelled from the spec: the turn engine that replays the macro is not
    part of the repository.  At the start of a round it resolves the
    opponent-keyed branches against the opponent present, in program order:
    a branch for another opponent is passed over, the first branch for this
    opponent is entered, and a command that is no opponent-keyed branch starts
    the remainder of the program. *)
Fixpoint select (o : Monster) (m : Macro) : Macro :=
  match m with
  | c_if (monsterid k) body :: rest =>
      if Monster_eq_dec k o then body else select o rest
  | _ => m
  end.

(* ================================================================== *)
(** ** JavaScript [Map] keyed by monsters

    Entries are kept in insertion order; [set] on a key that is present
    replaces its value where it stands. *)
Module JSMap.
Section WithValue.
Variable V : Type.

Definition t : Type := list (Monster * V).

Definition empty : t := [].

Fixpoint set (k : Monster) (v : V) (m : t) : t :=
  match m with
  | [] => [(k, v)]
  | (k', v') :: rest =>
      if Monster_eq_dec k' k then (k, v) :: rest
      else (k', v') :: set k v rest
  end.

Fixpoint get (k : Monster) (m : t) : option V :=
  match m with
  | [] => None
  | (k', v') :: rest => if Monster_eq_dec k' k then Some v' else get k rest
  end.

Definition keys (m : t) : list Monster := map fst m.

Definition values (m : t) : list V := map snd m.

(** [m.forEach((value, key) => ...)] with the callback's effect on the
    enclosing object threaded as state. *)
Definition forEach (S : Type) (f : S -> V -> Monster -> S) (m : t) (s : S) : S :=
  fold_left (fun acc kv => f acc (snd kv) (fst kv)) m s.

(** The invariant of a [Map]: no key twice. *)
Definition wf (m : t) : Prop := NoDup (keys m).

End WithValue.

Arguments empty {V}.
Arguments set {V} k v m.
Arguments get {V} k m.
Arguments keys {V} m.
Arguments values {V} m.
Arguments forEach {V S} f m s.
Arguments wf {V} m.

End JSMap.

(* ================================================================== *)
(** ** The strategy enum *)

Inductive MonsterStrategy : Type :=
| RunAway
| Kill
| KillHard
| Banish
| Abort.

Definition MonsterStrategy_eq_dec (a b : MonsterStrategy) : {a = b} + {a <> b}.
Proof. decide equality. Defined.

(** [a === b] on enum members. *)
Definition strategy_eqb (a b : MonsterStrategy) : bool :=
  if MonsterStrategy_eq_dec a b then true else false.

(* ================================================================== *)
(** ** class CombatStrategy *)

Module CombatStrategy.

Record t : Type := mk {
  default_strategy : MonsterStrategy;
  default_macro : option Macro;
  strategy : JSMap.t MonsterStrategy;
  macros : JSMap.t Macro;
  boss : bool
}.

(** What a method call leaves behind: the object it returns for chaining,
    or the thrown value together with the object as it stands then. *)
Inductive Outcome : Type :=
| Returned (this : t)
| Thrown (exn : string) (this : t).

Definition set_default_strategy (s : MonsterStrategy) (this : t) : t :=
  mk s (default_macro this) (strategy this) (macros this) (boss this).

Definition set_default_macro (m : Macro) (this : t) : t :=
  mk (default_strategy this) (Some m) (strategy this) (macros this) (boss this).

Definition set_strategy (m : JSMap.t MonsterStrategy) (this : t) : t :=
  mk (default_strategy this) (default_macro this) m (macros this) (boss this).

Definition set_macros (m : JSMap.t Macro) (this : t) : t :=
  mk (default_strategy this) (default_macro this) (strategy this) m (boss this).

(** [new CombatStrategy(boss?)] *)
Definition create (boss : option bool) : t :=
  mk RunAway None JSMap.empty JSMap.empty
     (match boss with Some b => b | None => false end).

Definition apply (s : MonsterStrategy) (monsters : list Monster) (this : t) : t :=
  let this :=
    match monsters with
    | [] => set_default_strategy s this
    | _ :: _ => this
    end in
  fold_left
    (fun this monster => set_strategy (JSMap.set monster s (strategy this)) this)
    monsters this.

Definition kill (monsters : list Monster) (this : t) : t :=
  apply Kill monsters this.

Definition killHard (monsters : list Monster) (this : t) : t :=
  apply KillHard monsters this.

Definition banish (monsters : list Monster) (this : t) : Outcome :=
  match monsters with
  | [] => Thrown "Must specify list of monsters to banish" this
  | _ :: _ => Returned (apply Banish monsters this)
  end.

Definition flee (monsters : list Monster) (this : t) : t :=
  apply RunAway monsters this.

Definition abort (monsters : list Monster) (this : t) : t :=
  apply Abort monsters this.

Definition macro (m : Macro) (monsters : list Monster) (this : t) : t :=
  let this :=
    match monsters with
    | [] => set_default_macro m this
    | _ :: _ => this
    end in
  fold_left
    (fun this monster => set_macros (JSMap.set monster m (macros this)) this)
    monsters this.

Definition item (i : Item) (monsters : list Monster) (this : t) : t :=
  macro (MacroLib.new |> MacroLib.item i) monsters this.

Definition can (do_this : MonsterStrategy) (this : t) : bool :=
  if strategy_eqb do_this (default_strategy this) then true
  else existsb (fun v => strategy_eqb v do_this) (JSMap.values (strategy this)).

(** [where(do_this)]; the name carries an underscore because [where] is a
    keyword here. *)
Definition where_ (do_this : MonsterStrategy) (this : t) : list Monster :=
  filter
    (fun key =>
       match JSMap.get key (strategy this) with
       | Some s => strategy_eqb s do_this
       | None => false
       end)
    (JSMap.keys (strategy this)).

(** Both maps of a table are well-formed [Map]s. *)
Definition wf (this : t) : Prop :=
  JSMap.wf (strategy this) /\ JSMap.wf (macros this).

(** One chained call of the builder interface. *)
Inductive Call : Type :=
| call_apply (s : MonsterStrategy) (monsters : list Monster)
| call_kill (monsters : list Monster)
| call_killHard (monsters : list Monster)
| call_banish (monsters : list Monster)
| call_flee (monsters : list Monster)
| call_abort (monsters : list Monster)
| call_item (i : Item) (monsters : list Monster)
| call_macro (m : Macro) (monsters : list Monster).

Definition after (this : Outcome) : t :=
  match this with
  | Returned this => this
  | Thrown _ this => this
  end.

Definition perform (c : Call) (this : t) : t :=
  match c with
  | call_apply s ms => apply s ms this
  | call_kill ms => kill ms this
  | call_killHard ms => killHard ms this
  | call_banish ms => after (banish ms this)
  | call_flee ms => flee ms this
  | call_abort ms => abort ms this
  | call_item i ms => item i ms this
  | call_macro m ms => macro m ms this
  end.

(** The table a caller holds after a series of calls on a fresh one. *)
Definition configured (boss : option bool) (calls : list Call) : t :=
  fold_left (fun this c => perform c this) calls (create boss).

End CombatStrategy.

(* ================================================================== *)
(** ** Resources of the live context *)

(** Modelled from the spec: the declarations of [./resources] are not part
    of the repository sources at hand.  Section 3 describes them: a special
    encounter names the opponent it forces a fight with, a banish resource
    exposes a single triggerable action (an item or a skill, the two cases
    the constructor tests for), a flee resource a full program.  The field
    [do] of the two latter is written [banish_do] and [runaway_do]. *)
Module Resources.

Record WandererSource : Type := mkWanderer {
  monster : Monster
}.

Inductive Action : Type :=
| an_item (i : Item)
| a_skill (s : Skill).

Record BanishSource : Type := mkBanish {
  banish_do : Action
}.

Record RunawaySource : Type := mkRunaway {
  runaway_do : Macro
}.

End Resources.

(* ================================================================== *)
(** ** class BuiltCombatStrategy *)

Module BuiltCombatStrategy.
Import Resources.

Record t : Type := mk {
  macro : Macro;
  use_banish : option Macro;
  use_runaway : option Macro
}.

(** [this.macro = m] *)
Definition set_macro (m : Macro) (this : t) : t :=
  mk m (use_banish this) (use_runaway this).

Definition Curse_of_Weaksauce : Skill := skill_named "Curse of Weaksauce".
Definition Pocket_Crumbs : Skill := skill_named "Pocket Crumbs".
Definition Micrometeorite : Skill := skill_named "Micrometeorite".
Definition Rain_Doh_indigo_cup : Item := item_named "Rain-Doh indigo cup".
Definition Summon_Love_Mosquito : Skill := skill_named "Summon Love Mosquito".
Definition Time_Spinner : Item := item_named "Time-Spinner".
Definition Saucestorm : Skill := skill_named "Saucestorm".
Definition Saucegeyser : Skill := skill_named "Saucegeyser".
Definition Lunging_Thrust_Smack : Skill := skill_named "Lunging Thrust-Smack".

Definition delevel : Macro :=
  MacroLib.new
    |> MacroLib.skill Curse_of_Weaksauce
    |> MacroLib.trySkill Pocket_Crumbs
    |> MacroLib.trySkill Micrometeorite
    |> MacroLib.tryItem Rain_Doh_indigo_cup
    |> MacroLib.trySkill Summon_Love_Mosquito
    |> MacroLib.tryItem Time_Spinner.

(** [x > y] on numbers. *)
Definition Qgtb (x y : Q) : bool := negb (Qle_bool x y).

Section InContext.
Variable env : Kolmafia.

(** [monsterDefense(monster) * 1.25 > myBuffedstat(weaponType(equippedItem($slot`Weapon`)))],
    the product taken exactly; it is the source's product of doubles when
    both numbers are [int32]. *)
Definition difficult (monster : Monster) : bool :=
  Qgtb (inject_Z (monsterDefense env monster) * (5 # 4))%Q
       (inject_Z (myBuffedstat env (weaponType env (equippedItem env Weapon)))).

(** [monster && monster.physicalResistance >= 70] *)
Definition resists_physical (monster : option Monster) : bool :=
  match monster with
  | Some monster => (70 <=? physicalResistance monster)%Z
  | None => false
  end.

(** [weaponType(equippedItem($slot`Weapon`)) !== $stat`muscle`] *)
Definition weapon_not_muscle : bool :=
  if Stat_eq_dec (weaponType env (equippedItem env Weapon)) muscle
  then false else true.

Definition prepare_macro (this : t) (strategy : MonsterStrategy + Macro)
           (monster : option Monster) : Macro :=
  match strategy with
  | inr m => m
  | inl strategy =>
      (* Upgrade for kills that happen to be difficult *)
      let strategy :=
        if strategy_eqb strategy Kill
           && match monster with
              | Some monster => difficult monster
              | None => false
              end
        then KillHard else strategy in
      match strategy with
      | RunAway =>
          match use_runaway this with
          | None =>
              MacroLib.new
                |> MacroLib.runaway
                |> MacroLib.skill Saucestorm
                |> MacroLib.attack
                |> MacroLib.repeat
          | Some m => m
          end
      | Kill =>
          if resists_physical monster
          then delevel |> MacroLib.skill Saucegeyser |> MacroLib.repeat
          else delevel |> MacroLib.attack |> MacroLib.repeat
      | KillHard =>
          if resists_physical monster || weapon_not_muscle
          then delevel |> MacroLib.skill Saucegeyser |> MacroLib.repeat
          else delevel |> MacroLib.skill Lunging_Thrust_Smack |> MacroLib.repeat
      | Banish =>
          match use_banish this with
          | None => MacroLib.new |> MacroLib.abort
          | Some m => m
          end
      | Abort => MacroLib.new |> MacroLib.abort
      end
  end.

(** The opening statements of the constructor ("Setup special macros"):
    the fresh [macro] and the two overrides resolved from the resources. *)
Definition setup_special_macros (banish : option BanishSource)
           (runaway : option RunawaySource) : t :=
  mk MacroLib.new
     (match banish with
      | Some b =>
          match banish_do b with
          | an_item i => Some (MacroLib.new |> MacroLib.item i)
          | a_skill s => Some (MacroLib.new |> MacroLib.skill s)
          end
      | None => None
      end)
     (match runaway with
      | Some r => Some (runaway_do r)
      | None => None
      end).

(** The constructor. *)
Definition build (abstract : CombatStrategy.t) (wanderers : list WandererSource)
           (banish : option BanishSource) (runaway : option RunawaySource) : t :=
  let this := setup_special_macros banish runaway in
  let this :=
    fold_left
      (fun this wanderer =>
         set_macro
           (macro this
              |> MacroLib.if_ (monsterid (monster wanderer))
                              (prepare_macro this (inl KillHard) None))
           this)
      wanderers this in
  (* Setup the generic macros *)
  let this :=
    JSMap.forEach
      (fun this value key =>
         set_macro (macro this |> MacroLib.if_ (monsterid key) value) this)
      (CombatStrategy.macros abstract) this in
  let this :=
    JSMap.forEach
      (fun this strat monster =>
         set_macro
           (macro this
              |> MacroLib.if_ (monsterid monster)
                              (prepare_macro this (inl strat) (Some monster)))
           this)
      (CombatStrategy.strategy abstract) this in
  let this :=
    match CombatStrategy.default_macro abstract with
    | Some d => set_macro (macro this |> MacroLib.step d) this
    | None => this
    end in
  set_macro
    (macro this
       |> MacroLib.step
            (prepare_macro this (inl (CombatStrategy.default_strategy abstract)) None))
    this.

Definition handle_monster (monster : Monster) (strategy : MonsterStrategy + Macro)
           (this : t) : t :=
  set_macro
    (MacroLib.new
       |> MacroLib.if_ (monsterid monster) (prepare_macro this strategy (Some monster))
       |> MacroLib.step (macro this))
    this.

End InContext.

End BuiltCombatStrategy.

(* ================================================================== *)
(** ** Concrete inputs used by the examples *)

Module Sample.
Import Resources.

Definition club : Item := item_named "seal-clubbing club".

(** A muscle weapon in hand, 100 buffed muscle, every monster at 50 defense. *)
Definition env : Kolmafia :=
  mkKolmafia (fun _ => club) (fun _ => muscle) (fun _ => 100%Z) (fun _ => 50%Z).

(** The same attacker facing monsters of 90 defense. *)
Definition hard_env : Kolmafia :=
  mkKolmafia (fun _ => club) (fun _ => muscle) (fun _ => 100%Z) (fun _ => 90%Z).

Definition goblin : Monster := mkMonster 1 0.
Definition ghost : Monster := mkMonster 2 100.
Definition lawyer : Monster := mkMonster 3 0.

Definition writ : Macro := MacroLib.new |> MacroLib.item (item_named "short writ of habeas corpus").

(** [new CombatStrategy().macro(writ, goblin).kill(goblin)] *)
Definition table : CombatStrategy.t :=
  CombatStrategy.create None
    |> CombatStrategy.macro writ [goblin]
    |> CombatStrategy.kill [goblin].

Definition bare : BuiltCombatStrategy.t :=
  BuiltCombatStrategy.mk MacroLib.new None None.

End Sample.

(** The shape the specification gives the start of a kill program: five
    best-effort attempts come first. *)
Definition five_best_effort_attempts (m : Macro) : Prop :=
  exists attempts rest,
    m = attempts ++ rest
    /\ List.length attempts = 5%nat
    /\ forallb best_effort attempts = true.

(** The five guarded attempts of [delevel], in the order of the source. *)
Definition attempts : Macro :=
  [ c_if (hasskill BuiltCombatStrategy.Pocket_Crumbs)
         [c_skill BuiltCombatStrategy.Pocket_Crumbs];
    c_if (hasskill BuiltCombatStrategy.Micrometeorite)
         [c_skill BuiltCombatStrategy.Micrometeorite];
    c_if (hascombatitem BuiltCombatStrategy.Rain_Doh_indigo_cup)
         [c_use BuiltCombatStrategy.Rain_Doh_indigo_cup];
    c_if (hasskill BuiltCombatStrategy.Summon_Love_Mosquito)
         [c_skill BuiltCombatStrategy.Summon_Love_Mosquito];
    c_if (hascombatitem BuiltCombatStrategy.Time_Spinner)
         [c_use BuiltCombatStrategy.Time_Spinner] ].

(** A macro that ends with [finisher] followed by [repeat]. *)
Definition finishes_with (finisher : Command) (m : Macro) : Prop :=
  exists before, m = before ++ [finisher; c_repeat].

(** The branches a loop over a [Map] appends, one per entry in order. *)
Definition branches {V : Type} (body : Monster -> V -> Macro) (m : JSMap.t V) : Macro :=
  map (fun kv => c_if (monsterid (fst kv)) (body (fst kv) (snd kv))) m.

(** The macro the constructor assembles, front to back. *)
Definition layout (env : Kolmafia) (abstract : CombatStrategy.t)
           (wanderers : list Resources.WandererSource) (this : BuiltCombatStrategy.t) : Macro :=
  map (fun w => c_if (monsterid (Resources.monster w))
                     (BuiltCombatStrategy.prepare_macro env this (inl KillHard) None))
      wanderers
  ++ branches (fun _ p => p) (CombatStrategy.macros abstract)
  ++ branches (fun k s => BuiltCombatStrategy.prepare_macro env this (inl s) (Some k))
              (CombatStrategy.strategy abstract)
  ++ match CombatStrategy.default_macro abstract with Some d => d | None => [] end
  ++ BuiltCombatStrategy.prepare_macro env this
       (inl (CombatStrategy.default_strategy abstract)) None.

(** Is [o] the target of one of the special encounters? *)
Definition wanders (o : Monster) (wanderers : list Resources.WandererSource) : bool :=
  existsb (fun w => if Monster_eq_dec (Resources.monster w) o then true else false) wanderers.

(* ================================================================== *)
(** ** String-keyed tables

    A JavaScript object used as a table, or a [Map] with string keys:
    entries in insertion order, assignment to a present key replacing its
    value in place.  (An object lists integer-like keys first; the keys
    stored below are never integer-like where the order matters.) *)
Module StrMap.
Section WithValue.
Variable V : Type.

Definition t : Type := list (string * V).

Definition empty : t := [].

Fixpoint set (k : string) (v : V) (m : t) : t :=
  match m with
  | [] => [(k, v)]
  | (k', v') :: rest =>
      if String.eqb k' k then (k, v) :: rest
      else (k', v') :: set k v rest
  end.

Fixpoint get (k : string) (m : t) : option V :=
  match m with
  | [] => None
  | (k', v') :: rest => if String.eqb k' k then Some v' else get k rest
  end.

Definition has (k : string) (m : t) : bool :=
  match get k m with
  | Some _ => true
  | None => false
  end.

Definition keys (m : t) : list string := map fst m.

End WithValue.

Arguments empty {V}.
Arguments set {V} k v m.
Arguments get {V} k m.
Arguments has {V} k m.
Arguments keys {V} m.

End StrMap.

(* ================================================================== *)
(** ** all_tasks

    The quests are imported from modules outside these sources and the
    [Task] type comes from [./structure]; the function only reads
    [quest.name] and [quest.tasks] and only touches [task.name] and
    [task.after], so the quests are an argument and the remaining fields of a
    task are one opaque component.  Tasks are objects: the quests and the
    returned table hold references into a store, and the loop updates the
    store in place. *)
Module Tasks.
Section WithBody.
Variable Body : Type.

Record Task : Type := mkTask {
  name : string;
  after : list string;
  body : Body
}.

(** A reference to a task object: its position in the store. *)
Definition Ref : Type := nat.

Definition Store : Type := list Task.

Record Quest : Type := mkQuest {
  quest_name : string;
  tasks : list Ref
}.

Fixpoint write (r : Ref) (task : Task) (store : Store) : Store :=
  match store, r with
  | [], _ => []
  | _ :: rest, O => task :: rest
  | t :: rest, S r' => t :: write r' task rest
  end.

(** [s.includes("/")] *)
Fixpoint includes_slash (s : string) : bool :=
  match s with
  | EmptyString => false
  | String c rest => if Ascii.eqb c "/"%char then true else includes_slash rest
  end.

(** [`${quest.name}/${x}`] *)
Definition in_quest (quest_name x : string) : string :=
  String.append quest_name (String.append "/" x).

(** [(after) => after.includes("/") ? after : `${quest.name}/${after}`] *)
Definition qualify (quest_name after : string) : string :=
  if includes_slash after then after else in_quest quest_name after.

(** The body of the inner loop, on the task a reference points to. *)
Definition rename (quest_name : string) (task : Task) : Task :=
  let task := mkTask (in_quest quest_name (name task)) (after task) (body task) in
  mkTask (name task) (map (qualify quest_name) (after task)) (body task).

(** One pass of the inner loop: the table under construction and the store. *)
Definition visit (quest_name : string) (st : StrMap.t Ref * Store) (task : Ref)
  : StrMap.t Ref * Store :=
  match nth_error (snd st) task with
  | None => st
  | Some t =>
      let t' := rename quest_name t in
      (StrMap.set (name t') task (fst st), write task t' (snd st))
  end.

Definition all_tasks (quests : list Quest) (store : Store) : StrMap.t Ref * Store :=
  fold_left
    (fun st quest => fold_left (visit (quest_name quest)) (tasks quest) st)
    quests (StrMap.empty, store).

(** The loop nest flattened: the (quest name, task) pairs in visiting order. *)
Definition visits (quests : list Quest) : list (string * Ref) :=
  flat_map (fun quest => map (fun task => (quest_name quest, task)) (tasks quest)) quests.

(** The loop nest as one loop over the flattened visits. *)
Definition run (vs : list (string * Ref)) (st : StrMap.t Ref * Store)
  : StrMap.t Ref * Store :=
  fold_left (fun st v => visit (fst v) st (snd v)) vs st.

(** A task whose name and dependencies all carry a quest prefix. *)
Definition qualified (t : Task) : Prop :=
  includes_slash (name t) = true
  /\ Forall (fun d => includes_slash d = true) (after t).

(** The quest name under which a task is first visited. *)
Fixpoint visited_in (task : Ref) (vs : list (string * Ref)) : option string :=
  match vs with
  | [] => None
  | (q, r) :: rest => if Nat.eqb r task then Some q else visited_in task rest
  end.

End WithBody.

Arguments mkTask {Body} name after body.
Arguments name {Body} t.
Arguments after {Body} t.
Arguments body {Body} t.
Arguments write {Body} r task store.
Arguments rename {Body} quest_name task.
Arguments visit {Body} quest_name st task.
Arguments all_tasks {Body} quests store.
Arguments run {Body} vs st.
Arguments qualified {Body} t.

(** Two tasks of one quest, the second depending on the first and on a task
    of another quest. *)
Definition sample_store : Store unit :=
  [ mkTask "Start" [] tt;
    mkTask "Get Sonar" ["Start"; "Knob/Open Knob"] tt ].

Definition sample_quests : list Quest := [ mkQuest "Bat" [0%nat; 1%nat] ].

End Tasks.

(* ================================================================== *)
(** ** args.ts: the command line parser

    Strings are sequences of characters addressed by position, as the
    parser addresses them.  A thrown value is kept as the string thrown. *)
Module Args.

Inductive Result (A : Type) : Type :=
| Ok (a : A)
| Throw (exn : string).

Arguments Ok {A} a.
Arguments Throw {A} exn.

(** [s.indexOf(c, from)] for a one-character [c]; [None] is [-1]. *)
Fixpoint indexOf (c : ascii) (from : nat) (s : string) : option nat :=
  match s with
  | EmptyString => None
  | String d rest =>
      match from with
      | O => if Ascii.eqb d c then Some O else option_map S (indexOf c O rest)
      | S from' => option_map S (indexOf c from' rest)
      end
  end.

(** [s.substring(a, b)]: the characters from the smaller position up to the
    larger one, both cut off at the end of the string. *)
Definition substring (a b : nat) (s : string) : string :=
  if (b <? a)%nat then String.substring b (a - b) s
  else String.substring a (b - a) s.

(** [set.has(k)] on a [Set<string>]. *)
Definition has (k : string) (set : list string) : bool :=
  existsb (String.eqb k) set.

(** [allowed.includes(c)] on an array of one-character strings. *)
Definition includes (c : option ascii) (allowed : list ascii) : bool :=
  match c with
  | Some c => existsb (Ascii.eqb c) allowed
  | None => false
  end.

(** [`${allowed}`]: the elements joined by commas. *)
Definition join (allowed : list ascii) : string :=
  String.concat "," (map (fun c => String c EmptyString) allowed).

(** [n] is the first position from [index] on that holds one of [chars], or
    the length of [s] when no such position exists. *)
Definition first_of (chars : list ascii) (s : string) (index n : nat) : Prop :=
  (index <= n <= String.length s)%nat
  /\ (forall j c, (index <= j < n)%nat -> In c chars -> String.get j s <> Some c)
  /\ ((n < String.length s)%nat ->
      exists c, In c chars /\ String.get n s = Some c).

(** A method of the parser: it reads and moves [this.index], and returns or
    throws. *)
Definition Parser (A : Type) : Type := nat -> Result (A * nat).

Definition ret {A : Type} (a : A) : Parser A := fun index => Ok (a, index).

Definition throw {A : Type} (exn : string) : Parser A := fun _ => Throw exn.

Definition bind {A B : Type} (c : Parser A) (k : A -> Parser B) : Parser B :=
  fun index =>
    match c index with
    | Ok (a, index') => k a index'
    | Throw exn => Throw exn
    end.

Definition get_index : Parser nat := fun index => Ok (index, index).

Definition set_index (i : nat) : Parser unit := fun _ => Ok (tt, i).

Declare Scope parser_scope.
Delimit Scope parser_scope with parser.
Notation "x <- c ;; k" := (bind c (fun x => k))
  (at level 61, c at next level, right associativity) : parser_scope.
Notation "c ;; k" := (bind c (fun _ => k))
  (at level 61, right associativity) : parser_scope.
Local Open Scope parser_scope.

Section CommandParser.
Variable command : string.
Variables keys flags : list string.

Definition finished (index : nat) : bool :=
  (String.length command <=? index)%nat.

Definition peek (index : nat) : option ascii :=
  if (String.length command <=? index)%nat then None
  else String.get index command.

Definition consume (allowed : list ascii) : Parser unit :=
  index <- get_index ;;
  if finished index then throw (String.append "Expected " (join allowed))
  else if includes (peek index) allowed then set_index (index + 1)
  else ret tt.

Definition findNext (searchValue : list ascii) (index : nat) : nat :=
  fold_left
    (fun result value =>
       match indexOf value index command with
       | Some i => if (i <? result)%nat then i else result
       | None => result
       end)
    searchValue (String.length command).

Definition parseKey : Parser string :=
  index <- get_index ;;
  let keyEnd := findNext ["="%char; " "%char] index in
  let key := substring index keyEnd command in
  set_index keyEnd ;;
  if negb (has key keys) && negb (has key flags)
  then throw (String.append "Unknown key: " key)
  else ret key.

(** The quote [this.peek()] opens a value with, if any. *)
Definition opening_quote (index : nat) : option ascii :=
  match peek index with
  | Some c => if existsb (Ascii.eqb c) ["'"%char; "034"%char] then Some c else None
  | None => None
  end.

(** The second half of [parseValue]: the value up to [valueEnder], and the
    closing quote when there is one. *)
Definition read_value (valueEnder : ascii) : Parser string :=
  index <- get_index ;;
  let valueEnd := findNext [valueEnder] index in
  let value := substring index valueEnd command in
  if negb (Ascii.eqb valueEnder " ") && (valueEnd =? String.length command)%nat
  then throw (String.append "No closing "
                (String.append (String valueEnder EmptyString)
                   (String.append " found for "
                      (String.append (String valueEnder EmptyString) value))))
  else
    (* Consume the value (and closing quote) *)
    set_index valueEnd ;;
    (if negb (Ascii.eqb valueEnder " ") then consume [valueEnder] else ret tt) ;;
    ret value.

Definition parseValue : Parser string :=
  index <- get_index ;;
  let quote := opening_quote index in
  let valueEnder := match quote with Some c => c | None => " "%char end in
  (match quote with
   | Some _ => consume [valueEnder] (* Consume opening quote *)
   | None => ret tt
   end) ;;
  read_value valueEnder.

(** [this.peek() === c] for a one-character [c]. *)
Definition peek_is (c : ascii) (index : nat) : bool :=
  match peek index with
  | Some d => Ascii.eqb d c
  | None => false
  end.

(** One turn of the [while] loop of [parse]. *)
Definition parse_pair (result : StrMap.t string) : Parser (StrMap.t string) :=
  index <- get_index ;;
  (* A flag F may appear as !F to be parsed as false. *)
  parsing_negative_flag <-
    (if peek_is "!" index then consume ["!"%char] ;; ret true else ret false) ;;
  key <- parseKey ;;
  if StrMap.has key result then throw (String.append "Duplicate key: " key)
  else if has key flags then
    (* The key corresponds to a flag. *)
    let result := StrMap.set key (if parsing_negative_flag : bool then "false" else "true")
                             result in
    index <- get_index ;;
    if peek_is "=" index
    then throw (String.append "Flag "
                  (String.append key " cannot be assigned a value"))
    else
      (if negb (finished index) then consume [" "%char] else ret tt) ;;
      ret result
  else
    (* Parse [key]=[value] or [key] [value] *)
    consume ["="%char; " "%char] ;;
    value <- parseValue ;;
    index <- get_index ;;
    (if negb (finished index) then consume [" "%char] else ret tt) ;;
    ret (StrMap.set key value result).

(** The [while (!this.finished())] loop, bounded by [fuel] turns; [None]
    when the bound is used up. *)
Fixpoint parse_loop (fuel : nat) (result : StrMap.t string) (index : nat)
  : option (Result (StrMap.t string)) :=
  match fuel with
  | O => None
  | S fuel =>
      if finished index then Some (Ok result)
      else
        match parse_pair result index with
        | Ok (result, index) => parse_loop fuel result index
        | Throw exn => Some (Throw exn)
        end
  end.

Definition parse_within (fuel : nat) : option (Result (StrMap.t string)) :=
  parse_loop fuel StrMap.empty 0.

(** [parse()]: every turn that does not throw moves the marker forward, so one
    turn per character and one last test of [finished] are enough. *)
Definition parse : option (Result (StrMap.t string)) :=
  parse_within (S (String.length command)).

(** What holds of every table the loop builds: no key twice, every key a
    known flag holding the word true or false, or a known key that is no
    flag. *)
Definition well_parsed (result : StrMap.t string) : Prop :=
  NoDup (StrMap.keys result)
  /\ forall k v, In (k, v) result ->
       (has k flags = true /\ (v = "true" \/ v = "false"))
       \/ (has k flags = false /\ has k keys = true).

End CommandParser.

(** A result whose marker is moved [n] positions to the right. *)
Definition shift_result {A : Type} (n : nat) (r : Result (A * nat)) : Result (A * nat) :=
  match r with
  | Ok (a, index) => Ok (a, (n + index)%nat)
  | Throw exn => Throw exn
  end.

(** Does the character occur in the string? *)
Fixpoint occurs (c : ascii) (s : string) : bool :=
  match s with
  | EmptyString => false
  | String d rest => Ascii.eqb d c || occurs c rest
  end.

(** Does the string start with the character? *)
Definition starts_with (c : ascii) (s : string) : bool :=
  match s with
  | EmptyString => false
  | String d _ => Ascii.eqb d c
  end.

(** One argument as a user may write it on the command line. *)
Inductive Entry : Type :=
| keyed (key value : string)
| flag_on (flag : string)
| flag_off (flag : string).

Definition entry_key (e : Entry) : string :=
  match e with
  | keyed key _ => key
  | flag_on flag => flag
  | flag_off flag => flag
  end.

Definition entry_value (e : Entry) : string :=
  match e with
  | keyed _ value => value
  | flag_on _ => "true"
  | flag_off _ => "false"
  end.

(** [key=value], [flag] or [!flag]. *)
Definition write_entry (e : Entry) : string :=
  match e with
  | keyed key value => String.append key (String "=" value)
  | flag_on flag => flag
  | flag_off flag => String "!" flag
  end.

(** The entries separated by single spaces. *)
Fixpoint write_command (es : list Entry) : string :=
  match es with
  | [] => EmptyString
  | e :: rest =>
      match rest with
      | [] => write_entry e
      | _ :: _ => String.append (write_entry e) (String " " (write_command rest))
      end
  end.

(** The table the entries stand for, in the order written. *)
Definition table_of (es : list Entry) : StrMap.t string :=
  map (fun e => (entry_key e, entry_value e)) es.

(** The text after an entry: nothing, or a space and more. *)
Definition tail_text (t : string) : Prop :=
  t = EmptyString \/ exists t', t = String " " t'.

(** The number of separator positions [consume] steps over after an entry. *)
Definition gap (t : string) : nat :=
  match t with
  | EmptyString => 0
  | String _ _ => 1
  end.

(** A name that can be written down as it is: not empty, without [=] or
    space, and not starting with [!]. *)
Definition plain_name (k : string) : bool :=
  negb (String.eqb k EmptyString)
  && negb (occurs "=" k) && negb (occurs " " k) && negb (starts_with "!" k).

(** A value that can be written without quotes: without space and not
    starting with a quote. *)
Definition plain_value (v : string) : bool :=
  negb (occurs " " v) && negb (starts_with "'" v) && negb (starts_with "034" v).

(** An entry the parser is set up for: a keyed entry names a key that is no
    flag, a flag entry names a flag. *)
Definition writable (keys flags : list string) (e : Entry) : bool :=
  match e with
  | keyed key value =>
      plain_name key && plain_value value && has key keys && negb (has key flags)
  | flag_on flag => plain_name flag && has flag flags
  | flag_off flag => plain_name flag && has flag flags
  end.

End Args.

(* ================================================================== *)
(** ** args.ts: argument specifications, [create], [fill] and [parse]

    The values of arguments have type [unknown] in the source's [ArgMap];
    here they are one type [Value] taken as given, with the comparison
    [Array.includes] applies to it, the embedding of booleans and strings the
    built-in parsers produce, and the text a template literal gives a value.
    An argument object is listed in the order [for ... in] enumerates it.
    [number] and [showHelp] are left out: they rest on [Number(...)] and on
    printing. *)
Module Script.
Section WithValue.
Variable Value : Type.
Variable same_value_zero : Value -> Value -> bool.
Variable of_boolean : bool -> Value.
Variable of_string : string -> Value.
Variable to_text : Value -> string.

Record ArgSpec : Type := mkArgSpec {
  key : option string;
  help : option string;
  options : option (list (Value * option string));
  default : option Value
}.

(** [{...spec, valueHelpName, parser}] *)
Record Arg : Type := mkArg {
  spec : ArgSpec;
  parser : string -> option Value;
  valueHelpName : string
}.

(** [options.map((option) => option[0]).includes(value)] *)
Definition among (value : Value) (opts : list (Value * option string)) : bool :=
  existsb (fun o => same_value_zero o value) (map fst opts).

Definition arg (s : ArgSpec) (p : string -> option Value) (valueHelpName : string)
  : Args.Result Arg :=
  match default s, options s with
  | Some d, Some opts =>
      if negb (among d opts)
      then Args.Throw (String.append "Invalid default value " (to_text d))
      else Args.Ok (mkArg s p valueHelpName)
  | _, _ => Args.Ok (mkArg s p valueHelpName)
  end.

(** [c.toLowerCase()] on one character of an eight-bit string. *)
Definition lower (c : ascii) : ascii :=
  let n := nat_of_ascii c in
  if ((65 <=? n) && (n <=? 90) || (192 <=? n) && (n <=? 222) && negb (n =? 215))%nat
  then ascii_of_nat (n + 32)
  else c.

Fixpoint toLowerCase (s : string) : string :=
  match s with
  | EmptyString => EmptyString
  | String c rest => String (lower c) (toLowerCase rest)
  end.

(** The parser shared by [boolean] and [flag]. *)
Definition parse_boolean (value : string) : option Value :=
  if String.eqb (toLowerCase value) "true" then Some (of_boolean true)
  else if String.eqb (toLowerCase value) "false" then Some (of_boolean false)
  else None.

(** [string(spec)] *)
Definition arg_string (s : ArgSpec) : Args.Result Arg :=
  arg s (fun value => Some (of_string value)) "TEXT".

(** [boolean(spec)] *)
Definition arg_boolean (s : ArgSpec) : Args.Result Arg :=
  arg s parse_boolean "BOOLEAN".

(** [flag(spec)] *)
Definition arg_flag (s : ArgSpec) : Args.Result Arg :=
  arg s parse_boolean "FLAG".

(** An [ArgMap]: the arguments by name, in enumeration order. *)
Definition ArgMap : Type := list (string * Arg).

(** The object [create] returns: the metadata under the three symbols and
    the value held under each argument's name ([None] is [undefined]). *)
Record ParsedArgs : Type := mkParsedArgs {
  specs : ArgMap;
  script : string;
  scriptHelp : string;
  values : StrMap.t (option Value)
}.

Definition set_values (v : StrMap.t (option Value)) (args : ParsedArgs) : ParsedArgs :=
  mkParsedArgs (specs args) (script args) (scriptHelp args) v.

(** [spec[k].key ?? k] *)
Definition key_of (k : string) (a : Arg) : string :=
  match key (spec a) with
  | Some key => key
  | None => k
  end.

(** [k === "help" || args[k].key === "help"] *)
Definition reserved (k : string) (a : Arg) : bool :=
  String.eqb k "help"
  || match key (spec a) with
     | Some key => String.eqb key "help"
     | None => false
     end.

(** [flag({ help: "Show this message and exit.", default: false })] *)
Definition help_spec : ArgSpec :=
  mkArgSpec None (Some "Show this message and exit.") None (Some (of_boolean false)).

Definition create (scriptName scriptHelp : string) (args : ArgMap)
  : Args.Result ParsedArgs :=
  if existsb (fun ka => reserved (fst ka) (snd ka)) args
  then Args.Throw "help is a reserved argument name"
  else
    match arg_flag help_spec with
    | Args.Throw exn => Args.Throw exn
    | Args.Ok help =>
        let argsWithHelp := args ++ [("help", help)] in
        Args.Ok
          (mkParsedArgs argsWithHelp scriptName scriptHelp
             (fold_left
                (fun res ka => StrMap.set (fst ka) (default (spec (snd ka))) res)
                argsWithHelp StrMap.empty))
    end.

(** [set.add(k)] *)
Definition add (k : string) (set : list string) : list string :=
  if Args.has k set then set else set ++ [k].

(** The two sets [fill] collects from the specification. *)
Definition collect (sp : ArgMap) : list string * list string :=
  fold_left
    (fun kf ka =>
       if String.eqb (valueHelpName (snd ka)) "FLAG"
       then (fst kf, add (key_of (fst ka) (snd ka)) (snd kf))
       else (add (key_of (fst ka) (snd ka)) (fst kf), snd kf))
    sp ([], []).

(** What a call that changes the argument object leaves behind: the object
    after a normal return, or the thrown text with the object as it stands. *)
Inductive Outcome : Type :=
| Returned (args : ParsedArgs)
| Thrown (exn : string) (args : ParsedArgs).

(** The second loop of [fill], from one argument on. *)
Fixpoint assign (parsed : StrMap.t string) (sp : ArgMap) (args : ParsedArgs) : Outcome :=
  match sp with
  | [] => Returned args
  | (k, a) :: rest =>
      let key := key_of k a in
      match StrMap.get key parsed with
      | None => assign parsed rest args
      | Some value_str =>
          match parser a value_str with
          | None =>
              Thrown (String.append "Argument "
                        (String.append key
                           (String.append " could not parse value: " value_str)))
                     args
          | Some value =>
              if match options (spec a) with
                 | Some opts => negb (among value opts)
                 | None => false
                 end
              then Thrown (String.append "Argument "
                             (String.append key
                                (String.append " received invalid value: " value_str)))
                          args
              else assign parsed rest
                     (set_values (StrMap.set k (Some value) (values args)) args)
          end
      end
  end.

(** [fill(args, command)]; [None] only if the parser's loop ran out of
    turns, which it never does. *)
Definition fill (args : ParsedArgs) (command : option string) : option Outcome :=
  match command with
  | None => Some (Returned args)
  | Some command =>
      if String.eqb command EmptyString then Some (Returned args)
      else
        let sp := specs args in
        let (keys, flags) := collect sp in
        match Args.parse command keys flags with
        | None => None
        | Some (Args.Throw exn) => Some (Thrown exn args)
        | Some (Args.Ok parsed) => Some (assign parsed sp args)
        end
  end.

(** [parse(scriptName, scriptHelp, spec, command)]: the filled object, or
    what [create] or [fill] throws. *)
Definition parse (scriptName scriptHelp : string) (sp : ArgMap) (command : string)
  : option (Args.Result ParsedArgs) :=
  match create scriptName scriptHelp sp with
  | Args.Throw exn => Some (Args.Throw exn)
  | Args.Ok args =>
      match fill args (Some command) with
      | None => None
      | Some (Returned args) => Some (Args.Ok args)
      | Some (Thrown exn _) => Some (Args.Throw exn)
      end
  end.

(** The values [create] starts from: each argument's default. *)
Definition defaults (sp : ArgMap) : StrMap.t (option Value) :=
  map (fun ka => (fst ka, default (spec (snd ka)))) sp.

(** The argument [create] adds under the name [help]. *)
Definition help_arg : Arg := mkArg help_spec parse_boolean "FLAG".

End WithValue.

Arguments mkArgSpec {Value} key help options default.
Arguments mkArg {Value} spec parser valueHelpName.
Arguments mkParsedArgs {Value} specs script scriptHelp values.
Arguments Returned {Value} args.
Arguments Thrown {Value} exn args.
Arguments key {Value} a.
Arguments help {Value} a.
Arguments options {Value} a.
Arguments default {Value} a.
Arguments spec {Value} a.
Arguments parser {Value} a.
Arguments valueHelpName {Value} a.
Arguments specs {Value} p.
Arguments script {Value} p.
Arguments scriptHelp {Value} p.
Arguments values {Value} p.
Arguments among {Value} same_value_zero value opts.
Arguments arg {Value} same_value_zero to_text s p valueHelpName.
Arguments parse_boolean {Value} of_boolean value.
Arguments arg_string {Value} same_value_zero of_string to_text s.
Arguments arg_boolean {Value} same_value_zero of_boolean to_text s.
Arguments arg_flag {Value} same_value_zero of_boolean to_text s.
Arguments set_values {Value} v args.
Arguments key_of {Value} k a.
Arguments reserved {Value} k a.
Arguments help_spec {Value} of_boolean.
Arguments help_arg {Value} of_boolean.
Arguments create {Value} same_value_zero of_boolean to_text scriptName scriptHelp args.
Arguments collect {Value} sp.
Arguments assign {Value} same_value_zero parsed sp args.
Arguments fill {Value} same_value_zero args command.
Arguments parse {Value} same_value_zero of_boolean to_text scriptName scriptHelp sp command.
Arguments defaults {Value} sp.

End Script.

(** Sample values and arguments: texts and booleans, a text argument and a
    flag. *)
Module ScriptSample.

Inductive Value : Type :=
| text (s : string)
| boolean (b : bool).

Definition same (a b : Value) : bool :=
  match a, b with
  | text s, text s' => String.eqb s s'
  | boolean x, boolean y => Bool.eqb x y
  | _, _ => false
  end.

Definition show (v : Value) : string :=
  match v with
  | text s => s
  | boolean true => "true"
  | boolean false => "false"
  end.

Definition note : Script.Arg Value :=
  Script.mkArg (Script.mkArgSpec None (Some "A note.") None None)
               (fun value => Some (text value)) "TEXT".

Definition verbose : Script.Arg Value :=
  Script.mkArg (Script.mkArgSpec None None None (Some (boolean false)))
               (Script.parse_boolean boolean) "FLAG".

Definition args : Script.ArgMap Value := [("note", note); ("verbose", verbose)].

(** The object [create] returns for them, and the object after filling it
    from the command [note=hi verbose]. *)
Definition fresh : Script.ParsedArgs Value :=
  Script.mkParsedArgs (args ++ [("help", Script.help_arg boolean)])
    "loopcasual" "A script."
    [("note", None); ("verbose", Some (boolean false)); ("help", Some (boolean false))].

Definition filled : Script.ParsedArgs Value :=
  Script.mkParsedArgs (args ++ [("help", Script.help_arg boolean)])
    "loopcasual" "A script."
    [("note", Some (text "hi")); ("verbose", Some (boolean true));
     ("help", Some (boolean false))].

End ScriptSample.

(* ================================================================== *)
(** ** Properties of [Map] *)

Section JSMapFacts.
Variable V : Type.
Implicit Types (m : JSMap.t V) (k : Monster) (v : V).

Lemma get_set_same k v m : JSMap.get k (JSMap.set k v m) = Some v.
Proof.
  induction m as [|[k' v'] rest IH]; simpl.
  - destruct (Monster_eq_dec k k); congruence.
  - destruct (Monster_eq_dec k' k) as [E|N]; simpl.
    + destruct (Monster_eq_dec k k); congruence.
    + destruct (Monster_eq_dec k' k); [contradiction | exact IH].
Qed.

Lemma get_set_other k k' v m :
  k <> k' -> JSMap.get k' (JSMap.set k v m) = JSMap.get k' m.
Proof.
  intros Hne.
  induction m as [|[k0 v0] rest IH]; simpl.
  - destruct (Monster_eq_dec k k'); [contradiction | reflexivity].
  - destruct (Monster_eq_dec k0 k) as [E|N]; simpl.
    + subst k0. destruct (Monster_eq_dec k k'); [contradiction | reflexivity].
    + destruct (Monster_eq_dec k0 k'); [reflexivity | exact IH].
Qed.

Lemma keys_set k k' v m :
  In k' (JSMap.keys (JSMap.set k v m)) <-> k' = k \/ In k' (JSMap.keys m).
Proof.
  unfold JSMap.keys.
  induction m as [|[k0 v0] rest IH]; simpl.
  - intuition congruence.
  - destruct (Monster_eq_dec k0 k) as [E|N]; simpl.
    + subst k0. intuition congruence.
    + rewrite IH. intuition congruence.
Qed.

Lemma wf_set k v m : JSMap.wf m -> JSMap.wf (JSMap.set k v m).
Proof.
  unfold JSMap.wf.
  induction m as [|[k0 v0] rest IH]; simpl; intros Hwf.
  - constructor; [intros [] | constructor].
  - inversion Hwf as [|? ? Hnotin Hrest]; subst.
    destruct (Monster_eq_dec k0 k) as [E|N]; simpl.
    + subst k0. constructor; assumption.
    + constructor; [| apply IH; assumption].
      intros Hin. apply keys_set in Hin. destruct Hin as [E|Hin].
      * apply N. congruence.
      * apply Hnotin. exact Hin.
Qed.

Lemma get_Some_key k v m : JSMap.get k m = Some v -> In k (JSMap.keys m).
Proof.
  unfold JSMap.keys.
  induction m as [|[k0 v0] rest IH]; simpl; [discriminate|].
  destruct (Monster_eq_dec k0 k); [left; assumption | right; apply IH; assumption].
Qed.

Lemma get_Some_value k v m : JSMap.get k m = Some v -> In v (JSMap.values m).
Proof.
  unfold JSMap.values.
  induction m as [|[k0 v0] rest IH]; simpl; [discriminate|].
  destruct (Monster_eq_dec k0 k); intros H.
  - left. congruence.
  - right. apply IH. exact H.
Qed.

(** Setting the same value for a list of keys, as the loops of [apply] and
    [macro] do. *)
Lemma get_set_all v ks : forall m k,
  JSMap.get k (fold_left (fun m k => JSMap.set k v m) ks m)
  = if in_dec Monster_eq_dec k ks then Some v else JSMap.get k m.
Proof.
  induction ks as [|k0 ks IH]; intros m k; simpl; [reflexivity|].
  rewrite IH.
  destruct (in_dec Monster_eq_dec k ks) as [Hin|Hnin];
    destruct (Monster_eq_dec k0 k) as [E|N]; try reflexivity.
  - subst k0. apply get_set_same.
  - apply get_set_other. exact N.
Qed.

Lemma wf_set_all v ks : forall m,
  JSMap.wf m -> JSMap.wf (fold_left (fun m k => JSMap.set k v m) ks m).
Proof.
  induction ks as [|k0 ks IH]; intros m Hwf; simpl; [exact Hwf|].
  apply IH. apply wf_set. exact Hwf.
Qed.

End JSMapFacts.

(* ================================================================== *)
(** ** Properties of the strategy table *)

Module TableFacts.
Import CombatStrategy.

Lemma apply_loop s ms : forall this,
  fold_left
    (fun this monster => set_strategy (JSMap.set monster s (strategy this)) this)
    ms this
  = set_strategy (fold_left (fun m k => JSMap.set k s m) ms (strategy this)) this.
Proof.
  induction ms as [|k ms IH]; intros this; simpl.
  - destruct this; reflexivity.
  - rewrite IH. reflexivity.
Qed.

Lemma macro_loop p ms : forall this,
  fold_left
    (fun this monster => set_macros (JSMap.set monster p (macros this)) this)
    ms this
  = set_macros (fold_left (fun m k => JSMap.set k p m) ms (macros this)) this.
Proof.
  induction ms as [|k ms IH]; intros this; simpl.
  - destruct this; reflexivity.
  - rewrite IH. reflexivity.
Qed.

(** [apply] with at least one monster only rewrites the [strategy] map. *)
Lemma apply_some s k ks this :
  apply s (k :: ks) this
  = set_strategy (fold_left (fun m k => JSMap.set k s m) (k :: ks) (strategy this)) this.
Proof. unfold apply. apply apply_loop. Qed.

Lemma apply_wf s ms this : wf this -> wf (apply s ms this).
Proof.
  intros [Hs Hm]. unfold apply. rewrite apply_loop.
  destruct ms as [|k ks]; split; simpl; try assumption.
  apply (wf_set_all _ s (k :: ks)). exact Hs.
Qed.

Lemma macro_wf p ms this : wf this -> wf (macro p ms this).
Proof.
  intros [Hs Hm]. unfold macro. rewrite macro_loop.
  destruct ms as [|k ks]; split; simpl; try assumption.
  apply (wf_set_all _ p (k :: ks)). exact Hm.
Qed.

Lemma perform_wf c this : wf this -> wf (perform c this).
Proof.
  intros H. destruct c; simpl;
    try (apply apply_wf; exact H); try (apply macro_wf; exact H).
  destruct monsters; simpl; [exact H | apply apply_wf; exact H].
Qed.

(** Every table a caller can configure keeps both maps free of repeated
    keys. *)
Lemma configured_wf boss calls : wf (configured boss calls).
Proof.
  unfold configured.
  assert (H0 : wf (create boss)) by (split; constructor).
  revert H0. generalize (create boss).
  induction calls as [|c calls IH]; intros this H; simpl; [exact H|].
  apply IH. apply perform_wf. exact H.
Qed.

Lemma strategy_eqb_eq a b : strategy_eqb a b = true <-> a = b.
Proof.
  unfold strategy_eqb. destruct (MonsterStrategy_eq_dec a b); split;
    congruence.
Qed.

Lemma where_In do_this this o :
  In o (where_ do_this this) <-> JSMap.get o (strategy this) = Some do_this.
Proof.
  unfold where_. rewrite filter_In. split.
  - intros [_ H]. destruct (JSMap.get o (strategy this)); [|discriminate].
    apply strategy_eqb_eq in H. congruence.
  - intros H. split.
    + eapply get_Some_key. exact H.
    + rewrite H. apply strategy_eqb_eq. reflexivity.
Qed.

End TableFacts.

(** C7. [banish()] without monsters throws and leaves the table as it was;
    [banish(o1, o2)] returns a table whose [strategy] map sends [o1] and [o2]
    to [Banish], agrees with the old one on every other monster, and whose
    [macros], default strategy, default macro and boss flag are the old ones. *)
Theorem banish_empty_throws_pair_sets (this : CombatStrategy.t) :
  CombatStrategy.banish [] this
    = CombatStrategy.Thrown "Must specify list of monsters to banish" this
  /\ forall o1 o2 : Monster,
       exists this',
         CombatStrategy.banish [o1; o2] this = CombatStrategy.Returned this'
         /\ JSMap.get o1 (CombatStrategy.strategy this') = Some Banish
         /\ JSMap.get o2 (CombatStrategy.strategy this') = Some Banish
         /\ (forall o, o <> o1 -> o <> o2 ->
               JSMap.get o (CombatStrategy.strategy this')
               = JSMap.get o (CombatStrategy.strategy this))
         /\ CombatStrategy.macros this' = CombatStrategy.macros this
         /\ CombatStrategy.default_strategy this' = CombatStrategy.default_strategy this
         /\ CombatStrategy.default_macro this' = CombatStrategy.default_macro this
         /\ CombatStrategy.boss this' = CombatStrategy.boss this.
Proof.
  split; [reflexivity|].
  intros o1 o2. eexists. split; [reflexivity|].
  rewrite TableFacts.apply_some.
  cbn [CombatStrategy.strategy CombatStrategy.set_strategy CombatStrategy.macros
       CombatStrategy.default_strategy CombatStrategy.default_macro CombatStrategy.boss].
  repeat split.
  - rewrite get_set_all. destruct (in_dec Monster_eq_dec o1 [o1; o2]) as [|N];
      [reflexivity | exfalso; apply N; simpl; auto].
  - rewrite get_set_all. destruct (in_dec Monster_eq_dec o2 [o1; o2]) as [|N];
      [reflexivity | exfalso; apply N; simpl; auto].
  - intros o H1 H2. rewrite get_set_all.
    destruct (in_dec Monster_eq_dec o [o1; o2]) as [Hin|]; [|reflexivity].
    simpl in Hin. intuition congruence.
Qed.

(** C9. On a fresh table [can(RunAway)] holds; on every table [can(i)] holds
    exactly when [i] is the default strategy or one of the values of the
    [strategy] map; and [where(i)] lists exactly the monsters the map sends
    to [i], none of them twice when the map has no repeated key. *)
Theorem can_and_where (this : CombatStrategy.t) (i : MonsterStrategy)
        (Hwf : JSMap.wf (CombatStrategy.strategy this)) :
  (forall boss, CombatStrategy.can RunAway (CombatStrategy.create boss) = true)
  /\ (CombatStrategy.can i this = true
      <-> i = CombatStrategy.default_strategy this
          \/ In i (JSMap.values (CombatStrategy.strategy this)))
  /\ (forall o, In o (CombatStrategy.where_ i this)
                <-> JSMap.get o (CombatStrategy.strategy this) = Some i)
  /\ NoDup (CombatStrategy.where_ i this).
Proof.
  split; [reflexivity|]. split; [|split].
  - unfold CombatStrategy.can.
    destruct (strategy_eqb i (CombatStrategy.default_strategy this)) eqn:E.
    + apply TableFacts.strategy_eqb_eq in E. tauto.
    + rewrite existsb_exists. split.
      * intros [v [Hin Hv]]. apply TableFacts.strategy_eqb_eq in Hv. subst v.
        right. exact Hin.
      * intros [Hd|Hin].
        -- apply TableFacts.strategy_eqb_eq in Hd. congruence.
        -- exists i. split; [exact Hin | apply TableFacts.strategy_eqb_eq; reflexivity].
  - intros o. apply TableFacts.where_In.
  - unfold CombatStrategy.where_. apply NoDup_filter. exact Hwf.
Qed.

Lemma can_and_where_witness :
  (forall boss, CombatStrategy.can RunAway (CombatStrategy.create boss) = true)
  /\ (CombatStrategy.can Kill Sample.table = true
      <-> Kill = CombatStrategy.default_strategy Sample.table
          \/ In Kill (JSMap.values (CombatStrategy.strategy Sample.table)))
  /\ (forall o, In o (CombatStrategy.where_ Kill Sample.table)
                <-> JSMap.get o (CombatStrategy.strategy Sample.table) = Some Kill)
  /\ NoDup (CombatStrategy.where_ Kill Sample.table).
Proof.
  apply (can_and_where Sample.table Kill).
  unfold JSMap.wf. vm_compute. constructor; [intros [] | constructor].
Defined.

(* ================================================================== *)
(** ** Properties of [prepare_macro] *)

Module CompilerFacts.
Import BuiltCombatStrategy.

Lemma finisher_unique (a b : Command) (before before' : Macro) :
  before ++ [a; c_repeat] = before' ++ [b; c_repeat] -> a = b.
Proof.
  intros H.
  change [a; c_repeat] with ([a] ++ [c_repeat]) in H.
  change [b; c_repeat] with ([b] ++ [c_repeat]) in H.
  rewrite !app_assoc in H.
  apply app_inj_tail in H. destruct H as [H _].
  apply app_inj_tail in H. destruct H as [_ H]. exact H.
Qed.

Lemma finishes_with_inv (a b : Command) (before : Macro) :
  finishes_with b (before ++ [a; c_repeat]) -> a = b.
Proof. intros [before' H]. eapply finisher_unique. exact H. Qed.

Lemma difficult_true env (o : Monster) :
  (inject_Z (myBuffedstat env (weaponType env (equippedItem env Weapon)))
   < inject_Z (monsterDefense env o) * (5 # 4))%Q
  -> difficult env o = true.
Proof.
  intros H. unfold difficult, Qgtb.
  destruct (Qle_bool _ _) eqn:E; [|reflexivity].
  apply Qle_bool_iff in E. exfalso. eapply Qlt_not_le; eassumption.
Qed.

Lemma difficult_false env (o : Monster) :
  (inject_Z (monsterDefense env o) * (5 # 4)
   <= inject_Z (myBuffedstat env (weaponType env (equippedItem env Weapon))))%Q
  -> difficult env o = false.
Proof.
  intros H. unfold difficult, Qgtb.
  apply Qle_bool_iff in H. rewrite H. reflexivity.
Qed.

Lemma weapon_not_muscle_true env :
  weaponType env (equippedItem env Weapon) <> muscle -> weapon_not_muscle env = true.
Proof.
  intros H. unfold weapon_not_muscle.
  destruct (Stat_eq_dec _ muscle); [contradiction | reflexivity].
Qed.

Lemma weapon_not_muscle_false env :
  weaponType env (equippedItem env Weapon) = muscle -> weapon_not_muscle env = false.
Proof.
  intros H. unfold weapon_not_muscle.
  destruct (Stat_eq_dec _ muscle); [reflexivity | contradiction].
Qed.

(** The [KillHard] case of the switch, for any monster argument. *)
Lemma kill_hard_program env this (monster : option Monster) :
  prepare_macro env this (inl KillHard) monster
  = delevel
      ++ [c_skill (if resists_physical monster || weapon_not_muscle env
                   then Saucegeyser else Lunging_Thrust_Smack);
          c_repeat].
Proof.
  unfold prepare_macro. simpl.
  destruct (resists_physical monster || weapon_not_muscle env); reflexivity.
Qed.

(** A [Kill] that is not upgraded. *)
Lemma plain_kill_program env this (o : Monster) :
  difficult env o = false ->
  prepare_macro env this (inl Kill) (Some o)
  = delevel
      ++ [if resists_physical (Some o) then c_skill Saucegeyser else c_attack;
          c_repeat].
Proof.
  intros H. unfold prepare_macro. simpl. rewrite H. simpl.
  destruct (70 <=? physicalResistance o)%Z; reflexivity.
Qed.

(** A [Kill] that is upgraded compiles as [KillHard] does. *)
Lemma upgraded_kill_program env this (o : Monster) :
  difficult env o = true ->
  prepare_macro env this (inl Kill) (Some o)
  = prepare_macro env this (inl KillHard) (Some o).
Proof. intros H. unfold prepare_macro. simpl. rewrite H. reflexivity. Qed.

(** On 32-bit integers nothing is rounded: the product by 1.25 and the
    integer it is compared with are both doubles, so the source's test on
    doubles is the exact test [difficult] makes. *)
Lemma product_is_double (d : Z) : int32 d -> is_double (inject_Z d * (5 # 4))%Q.
Proof.
  unfold int32. change (2 ^ 31)%Z with 2147483648%Z. intros H.
  exists (5 * d)%Z, (-2)%Z.
  change (2 ^ 53)%Z with 9007199254740992%Z.
  split; [lia|]. split; [lia|].
  change (Qpower 2 (-2)) with (1 # 4)%Q.
  unfold Qeq. cbn -[Z.mul]. lia.
Qed.

Lemma integer_is_double (z : Z) : int32 z -> is_double (inject_Z z).
Proof.
  unfold int32. change (2 ^ 31)%Z with 2147483648%Z. intros H.
  exists z, 0%Z.
  change (2 ^ 53)%Z with 9007199254740992%Z.
  split; [lia|]. split; [lia|].
  change (Qpower 2 0) with 1%Q.
  unfold Qeq. cbn -[Z.mul]. lia.
Qed.

Lemma banish_program env this (monster : option Monster) :
  prepare_macro env this (inl Banish) monster
  = match use_banish this with
    | Some m => m
    | None => [c_abort]
    end.
Proof. reflexivity. Qed.

(** Both kill programs are [delevel], one finishing move and [repeat]. *)
Lemma kill_shape env this s (monster : option Monster) :
  s = Kill \/ s = KillHard ->
  exists finisher,
    In finisher [c_attack; c_skill Saucegeyser; c_skill Lunging_Thrust_Smack]
    /\ prepare_macro env this (inl s) monster = delevel ++ [finisher; c_repeat].
Proof.
  intros Hs.
  assert (Hard : exists finisher,
             In finisher [c_attack; c_skill Saucegeyser; c_skill Lunging_Thrust_Smack]
             /\ prepare_macro env this (inl KillHard) monster
                = delevel ++ [finisher; c_repeat]).
  { rewrite kill_hard_program. eexists. split; [|reflexivity].
    destruct (_ || _); simpl; auto. }
  destruct Hs as [-> | ->]; [|exact Hard].
  destruct monster as [o|].
  - destruct (difficult env o) eqn:D.
    + rewrite (upgraded_kill_program env this o D). exact Hard.
    + rewrite (plain_kill_program env this o D).
      eexists. split; [|reflexivity].
      destruct (resists_physical (Some o)); simpl; auto.
  - exists c_attack. split; [simpl; auto | reflexivity].
Qed.

End CompilerFacts.

(** C3. For a monster and an attacker whose numbers are 32-bit integers, as
    KoLmafia's are: when the monster's defense times 1.25 exceeds the buffed
    stat of the equipped weapon's type, compiling [Kill] for that monster gives
    the very program compiling [KillHard] for it gives.  That program is the
    upgraded one: [delevel], then Saucegeyser when the monster's physical
    resistance is at least 70 or the weapon's type is not muscle and Lunging
    Thrust-Smack otherwise, then [repeat]; it never ends with the plain
    attack that a [Kill] not upgraded ends with.  On such numbers the product
    and the stat are doubles, so the source's comparison of doubles is the
    comparison made here. *)
Theorem kill_escalates_to_kill_hard (env : Kolmafia) (this : BuiltCombatStrategy.t)
        (o : Monster)
        (Hdefense : int32 (monsterDefense env o))
        (Hstat : int32 (myBuffedstat env (weaponType env (equippedItem env Weapon))))
        (Hhard : (inject_Z (monsterDefense env o) * (5 # 4)
                  > inject_Z (myBuffedstat env (weaponType env (equippedItem env Weapon))))%Q) :
  BuiltCombatStrategy.prepare_macro env this (inl Kill) (Some o)
  = BuiltCombatStrategy.prepare_macro env this (inl KillHard) (Some o)
  /\ ((70 <= physicalResistance o)%Z \/ weaponType env (equippedItem env Weapon) <> muscle ->
      BuiltCombatStrategy.prepare_macro env this (inl Kill) (Some o)
      = BuiltCombatStrategy.delevel ++ [c_skill BuiltCombatStrategy.Saucegeyser; c_repeat])
  /\ ((physicalResistance o < 70)%Z /\ weaponType env (equippedItem env Weapon) = muscle ->
      BuiltCombatStrategy.prepare_macro env this (inl Kill) (Some o)
      = BuiltCombatStrategy.delevel
          ++ [c_skill BuiltCombatStrategy.Lunging_Thrust_Smack; c_repeat])
  /\ ~ finishes_with c_attack
         (BuiltCombatStrategy.prepare_macro env this (inl Kill) (Some o))
  /\ is_double (inject_Z (monsterDefense env o) * (5 # 4))
  /\ is_double (inject_Z (myBuffedstat env (weaponType env (equippedItem env Weapon)))).
Proof.
  assert (Hup : BuiltCombatStrategy.prepare_macro env this (inl Kill) (Some o)
                = BuiltCombatStrategy.prepare_macro env this (inl KillHard) (Some o)).
  { apply CompilerFacts.upgraded_kill_program.
    apply CompilerFacts.difficult_true. exact Hhard. }
  split; [exact Hup|].
  assert (Hexact : is_double (inject_Z (monsterDefense env o) * (5 # 4))
                   /\ is_double (inject_Z (myBuffedstat env
                                             (weaponType env (equippedItem env Weapon)))))
    by (split; [apply CompilerFacts.product_is_double; exact Hdefense
               | apply CompilerFacts.integer_is_double; exact Hstat]).
  cut ((((70 <= physicalResistance o)%Z
         \/ weaponType env (equippedItem env Weapon) <> muscle ->
         BuiltCombatStrategy.prepare_macro env this (inl Kill) (Some o)
         = BuiltCombatStrategy.delevel
             ++ [c_skill BuiltCombatStrategy.Saucegeyser; c_repeat])
        /\ ((physicalResistance o < 70)%Z
            /\ weaponType env (equippedItem env Weapon) = muscle ->
            BuiltCombatStrategy.prepare_macro env this (inl Kill) (Some o)
            = BuiltCombatStrategy.delevel
                ++ [c_skill BuiltCombatStrategy.Lunging_Thrust_Smack; c_repeat])
        /\ ~ finishes_with c_attack
               (BuiltCombatStrategy.prepare_macro env this (inl Kill) (Some o))));
    [intros (A & B & C); repeat split; try assumption; apply Hexact|].
  rewrite Hup, CompilerFacts.kill_hard_program.
  simpl BuiltCombatStrategy.resists_physical.
  split; [|split].
  - intros [H|H].
    + apply Z.leb_le in H. rewrite H. reflexivity.
    + rewrite (CompilerFacts.weapon_not_muscle_true env H), orb_true_r. reflexivity.
  - intros [Hlt Hm]. apply Z.leb_gt in Hlt.
    rewrite Hlt, (CompilerFacts.weapon_not_muscle_false env Hm). reflexivity.
  - intros H. apply CompilerFacts.finishes_with_inv in H.
    destruct (_ || _); discriminate H.
Qed.

Lemma kill_escalates_to_kill_hard_witness :
  BuiltCombatStrategy.prepare_macro Sample.hard_env Sample.bare (inl Kill) (Some Sample.goblin)
  = BuiltCombatStrategy.prepare_macro Sample.hard_env Sample.bare (inl KillHard)
                                      (Some Sample.goblin)
  /\ BuiltCombatStrategy.prepare_macro Sample.hard_env Sample.bare (inl Kill)
                                       (Some Sample.goblin)
     = BuiltCombatStrategy.delevel
         ++ [c_skill BuiltCombatStrategy.Lunging_Thrust_Smack; c_repeat]
  /\ BuiltCombatStrategy.prepare_macro Sample.hard_env Sample.bare (inl Kill)
                                       (Some Sample.ghost)
     = BuiltCombatStrategy.delevel ++ [c_skill BuiltCombatStrategy.Saucegeyser; c_repeat].
Proof.
  assert (Hgoblin := kill_escalates_to_kill_hard Sample.hard_env Sample.bare Sample.goblin).
  assert (Hghost := kill_escalates_to_kill_hard Sample.hard_env Sample.bare Sample.ghost).
  destruct Hgoblin as (H1 & _ & H2 & _);
    [unfold int32; simpl; lia | unfold int32; simpl; lia | reflexivity |].
  destruct Hghost as (_ & H3 & _);
    [unfold int32; simpl; lia | unfold int32; simpl; lia | reflexivity |].
  split; [exact H1|]. split.
  - apply H2. split; [simpl; lia | reflexivity].
  - apply H3. left. simpl. lia.
Defined.

(** C4 as stated fails: the program compiled for [Kill] does not begin with
    five best-effort attempts, because its first command is the unguarded
    skill Curse of Weaksauce. *)
Lemma kill_prefix_not_five_best_effort :
  ~ five_best_effort_attempts
      (BuiltCombatStrategy.prepare_macro Sample.env Sample.bare (inl Kill)
                                         (Some Sample.goblin)).
Proof.
  intros (tries & rest & E & L & F).
  destruct tries as [|c tries]; [discriminate L|].
  vm_compute in E. injection E as Ec _. subst c.
  simpl in F. discriminate F.
Qed.

(** C4, amended. The programs compiled for [Kill] and for [KillHard] begin
    with [delevel]: the unguarded skill Curse of Weaksauce, then exactly five
    best-effort attempts in a fixed order (Pocket Crumbs, Micrometeorite,
    Rain-Doh indigo cup, Summon Love Mosquito, Time-Spinner); the finishing
    move and [repeat] follow, and nothing else. *)
Theorem kill_programs_start_with_delevel (env : Kolmafia) (this : BuiltCombatStrategy.t)
        (s : MonsterStrategy) (monster : option Monster)
        (Hs : s = Kill \/ s = KillHard) :
  BuiltCombatStrategy.delevel = c_skill BuiltCombatStrategy.Curse_of_Weaksauce :: attempts
  /\ best_effort (c_skill BuiltCombatStrategy.Curse_of_Weaksauce) = false
  /\ List.length attempts = 5%nat
  /\ forallb best_effort attempts = true
  /\ exists finisher,
       In finisher [c_attack; c_skill BuiltCombatStrategy.Saucegeyser;
                    c_skill BuiltCombatStrategy.Lunging_Thrust_Smack]
       /\ BuiltCombatStrategy.prepare_macro env this (inl s) monster
          = BuiltCombatStrategy.delevel ++ [finisher; c_repeat].
Proof.
  repeat (split; [reflexivity|]).
  apply CompilerFacts.kill_shape. exact Hs.
Qed.

Lemma kill_programs_start_with_delevel_witness :
  exists finisher,
    In finisher [c_attack; c_skill BuiltCombatStrategy.Saucegeyser;
                 c_skill BuiltCombatStrategy.Lunging_Thrust_Smack]
    /\ BuiltCombatStrategy.prepare_macro Sample.env Sample.bare (inl Kill)
                                         (Some Sample.goblin)
       = BuiltCombatStrategy.delevel ++ [finisher; c_repeat].
Proof.
  apply (kill_programs_start_with_delevel Sample.env Sample.bare Kill
                                          (Some Sample.goblin)).
  left. reflexivity.
Defined.

(** C5. The program compiled for [KillHard] and a monster ends with
    Saucegeyser and [repeat] when the monster's physical resistance is at
    least 70 or the equipped weapon's type is not muscle, with Lunging
    Thrust-Smack and [repeat] otherwise, and in no case with the plain attack
    and [repeat]. *)
Theorem kill_hard_finisher (env : Kolmafia) (this : BuiltCombatStrategy.t) (o : Monster) :
  ((70 <= physicalResistance o)%Z \/ weaponType env (equippedItem env Weapon) <> muscle ->
   BuiltCombatStrategy.prepare_macro env this (inl KillHard) (Some o)
   = BuiltCombatStrategy.delevel ++ [c_skill BuiltCombatStrategy.Saucegeyser; c_repeat])
  /\ ((physicalResistance o < 70)%Z /\ weaponType env (equippedItem env Weapon) = muscle ->
      BuiltCombatStrategy.prepare_macro env this (inl KillHard) (Some o)
      = BuiltCombatStrategy.delevel
          ++ [c_skill BuiltCombatStrategy.Lunging_Thrust_Smack; c_repeat])
  /\ ~ finishes_with c_attack
         (BuiltCombatStrategy.prepare_macro env this (inl KillHard) (Some o)).
Proof.
  rewrite CompilerFacts.kill_hard_program. simpl BuiltCombatStrategy.resists_physical.
  split; [|split].
  - intros [H|H].
    + apply Z.leb_le in H. rewrite H. reflexivity.
    + rewrite (CompilerFacts.weapon_not_muscle_true env H), orb_true_r. reflexivity.
  - intros [Hlt Hm]. apply Z.leb_gt in Hlt.
    rewrite Hlt, (CompilerFacts.weapon_not_muscle_false env Hm). reflexivity.
  - intros H. apply CompilerFacts.finishes_with_inv in H.
    destruct (_ || _); discriminate H.
Qed.

Lemma kill_hard_finisher_witness :
  BuiltCombatStrategy.prepare_macro Sample.env Sample.bare (inl KillHard) (Some Sample.ghost)
  = BuiltCombatStrategy.delevel ++ [c_skill BuiltCombatStrategy.Saucegeyser; c_repeat]
  /\ BuiltCombatStrategy.prepare_macro Sample.env Sample.bare (inl KillHard)
                                       (Some Sample.goblin)
     = BuiltCombatStrategy.delevel
         ++ [c_skill BuiltCombatStrategy.Lunging_Thrust_Smack; c_repeat].
Proof.
  split.
  - apply (kill_hard_finisher Sample.env Sample.bare Sample.ghost).
    left. simpl. lia.
  - apply (kill_hard_finisher Sample.env Sample.bare Sample.goblin).
    split; [simpl; lia | reflexivity].
Defined.

(** C6. For a monster of physical resistance at least 70, the programs
    compiled for [Kill] and for [KillHard] both end with Saucegeyser and
    [repeat], and neither ends with the plain attack and [repeat]; for a
    monster of physical resistance below 70 whose defense times 1.25 does not
    exceed the attacker's buffed stat, the program compiled for [Kill] ends
    with the plain attack and [repeat]. *)
Theorem resistant_monsters_get_saucegeyser (env : Kolmafia) (this : BuiltCombatStrategy.t)
        (o : Monster) :
  ((70 <= physicalResistance o)%Z ->
   BuiltCombatStrategy.prepare_macro env this (inl Kill) (Some o)
   = BuiltCombatStrategy.delevel ++ [c_skill BuiltCombatStrategy.Saucegeyser; c_repeat]
   /\ BuiltCombatStrategy.prepare_macro env this (inl KillHard) (Some o)
      = BuiltCombatStrategy.delevel ++ [c_skill BuiltCombatStrategy.Saucegeyser; c_repeat]
   /\ ~ finishes_with c_attack
          (BuiltCombatStrategy.prepare_macro env this (inl Kill) (Some o))
   /\ ~ finishes_with c_attack
          (BuiltCombatStrategy.prepare_macro env this (inl KillHard) (Some o)))
  /\ ((physicalResistance o < 70)%Z ->
      (inject_Z (monsterDefense env o) * (5 # 4)
       <= inject_Z (myBuffedstat env (weaponType env (equippedItem env Weapon))))%Q ->
      BuiltCombatStrategy.prepare_macro env this (inl Kill) (Some o)
      = BuiltCombatStrategy.delevel ++ [c_attack; c_repeat]).
Proof.
  split.
  - intros H. apply Z.leb_le in H.
    assert (Hard : BuiltCombatStrategy.prepare_macro env this (inl KillHard) (Some o)
                   = BuiltCombatStrategy.delevel
                       ++ [c_skill BuiltCombatStrategy.Saucegeyser; c_repeat]).
    { rewrite CompilerFacts.kill_hard_program. simpl. rewrite H. reflexivity. }
    assert (Plain : BuiltCombatStrategy.prepare_macro env this (inl Kill) (Some o)
                    = BuiltCombatStrategy.delevel
                        ++ [c_skill BuiltCombatStrategy.Saucegeyser; c_repeat]).
    { destruct (BuiltCombatStrategy.difficult env o) eqn:D.
      - rewrite (CompilerFacts.upgraded_kill_program env this o D). exact Hard.
      - rewrite (CompilerFacts.plain_kill_program env this o D). simpl.
        rewrite H. reflexivity. }
    rewrite Plain, Hard. repeat split; try reflexivity;
      intros F; apply CompilerFacts.finishes_with_inv in F; discriminate F.
  - intros Hlt Hle. apply Z.leb_gt in Hlt.
    rewrite (CompilerFacts.plain_kill_program env this o
               (CompilerFacts.difficult_false env o Hle)).
    simpl. rewrite Hlt. reflexivity.
Qed.

Lemma resistant_monsters_get_saucegeyser_witness :
  (BuiltCombatStrategy.prepare_macro Sample.hard_env Sample.bare (inl Kill)
                                     (Some Sample.ghost)
   = BuiltCombatStrategy.delevel ++ [c_skill BuiltCombatStrategy.Saucegeyser; c_repeat]
   /\ BuiltCombatStrategy.prepare_macro Sample.hard_env Sample.bare (inl KillHard)
                                        (Some Sample.ghost)
      = BuiltCombatStrategy.delevel ++ [c_skill BuiltCombatStrategy.Saucegeyser; c_repeat]
   /\ ~ finishes_with c_attack
          (BuiltCombatStrategy.prepare_macro Sample.hard_env Sample.bare (inl Kill)
                                             (Some Sample.ghost))
   /\ ~ finishes_with c_attack
          (BuiltCombatStrategy.prepare_macro Sample.hard_env Sample.bare (inl KillHard)
                                             (Some Sample.ghost)))
  /\ BuiltCombatStrategy.prepare_macro Sample.env Sample.bare (inl Kill)
                                       (Some Sample.goblin)
     = BuiltCombatStrategy.delevel ++ [c_attack; c_repeat].
Proof.
  split.
  - apply (resistant_monsters_get_saucegeyser Sample.hard_env Sample.bare Sample.ghost).
    simpl. lia.
  - apply (resistant_monsters_get_saucegeyser Sample.env Sample.bare Sample.goblin).
    + simpl. lia.
    + vm_compute. discriminate.
Defined.

(* ================================================================== *)
(** ** Properties of the assembled macro *)

Module AssemblerFacts.
Import BuiltCombatStrategy Resources.

(** A loop that appends one command per element, the command depending on
    the object only through its special macros. *)
Lemma loop_appends (X : Type) (g : t -> X -> Command) :
  (forall m this x, g (set_macro m this) x = g this x) ->
  forall l this,
    fold_left (fun this x => set_macro (macro this ++ [g this x]) this) l this
    = set_macro (macro this ++ map (g this) l) this.
Proof.
  intros Hg. induction l as [|x l IH]; intros this; simpl.
  - rewrite app_nil_r. destruct this; reflexivity.
  - rewrite IH. unfold set_macro at 1 3. simpl.
    rewrite <- app_assoc. simpl.
    rewrite (map_ext (g (set_macro (macro this ++ [g this x]) this)) (g this))
      by (intros; apply Hg).
    reflexivity.
Qed.

Lemma prepare_macro_set_macro env m this strategy monster :
  prepare_macro env (set_macro m this) strategy monster
  = prepare_macro env this strategy monster.
Proof. reflexivity. Qed.

Lemma build_layout env abstract wanderers banish runaway :
  build env abstract wanderers banish runaway
  = set_macro (layout env abstract wanderers (setup_special_macros banish runaway))
              (setup_special_macros banish runaway).
Proof.
  unfold build, JSMap.forEach, MacroLib.if_, MacroLib.step.
  cbv zeta beta.
  assert (H0 : macro (setup_special_macros banish runaway) = []) by reflexivity.
  revert H0. generalize (setup_special_macros banish runaway). intros this0 H0.
  rewrite (loop_appends _
             (fun this w => c_if (monsterid (monster w))
                                 (prepare_macro env this (inl KillHard) None)))
    by reflexivity.
  rewrite H0, app_nil_l.
  match goal with |- context [set_macro ?m this0] =>
    remember (set_macro m this0) as this1 eqn:E1 end.
  rewrite (loop_appends _ (fun (this : t) (kv : Monster * Macro) =>
                           c_if (monsterid (fst kv)) (snd kv)))
    by reflexivity.
  match goal with |- context [set_macro ?m this1] =>
    remember (set_macro m this1) as this2 eqn:E2 end.
  rewrite (loop_appends _
             (fun this (kv : Monster * MonsterStrategy) =>
                c_if (monsterid (fst kv))
                     (prepare_macro env this (inl (snd kv)) (Some (fst kv)))))
    by reflexivity.
  match goal with |- context [set_macro ?m this2] =>
    remember (set_macro m this2) as this3 eqn:E3 end.
  subst this3 this2 this1.
  unfold layout, branches.
  destruct (CombatStrategy.default_macro abstract) as [d|];
    unfold set_macro; cbn [macro use_banish use_runaway];
    rewrite <- ?app_assoc; try rewrite app_nil_l; reflexivity.
Qed.

Lemma select_wanderers o body ws rest :
  select o (map (fun w => c_if (monsterid (monster w)) body) ws ++ rest)
  = if wanders o ws then body else select o rest.
Proof.
  induction ws as [|w ws IH]; simpl; [reflexivity|].
  destruct (Monster_eq_dec (monster w) o); [reflexivity | exact IH].
Qed.

Lemma select_branches (V : Type) (body : Monster -> V -> Macro) (m : JSMap.t V) o rest :
  select o (branches body m ++ rest)
  = match JSMap.get o m with
    | Some v => body o v
    | None => select o rest
    end.
Proof.
  induction m as [|[k v] m IH]; simpl; [reflexivity|].
  destruct (Monster_eq_dec k o) as [E|N]; [subst k; reflexivity | exact IH].
Qed.

(** Which branch of the assembled macro an opponent enters: the special
    encounter's, else the custom macro's, else the strategy's, else the
    defaults. *)
Lemma select_build env abstract wanderers banish runaway o :
  let this := setup_special_macros banish runaway in
  select o (macro (build env abstract wanderers banish runaway))
  = if wanders o wanderers then prepare_macro env this (inl KillHard) None
    else match JSMap.get o (CombatStrategy.macros abstract) with
         | Some p => p
         | None =>
             match JSMap.get o (CombatStrategy.strategy abstract) with
             | Some s => prepare_macro env this (inl s) (Some o)
             | None =>
                 select o
                   (match CombatStrategy.default_macro abstract with
                    | Some d => d
                    | None => []
                    end
                    ++ prepare_macro env this
                         (inl (CombatStrategy.default_strategy abstract)) None)
             end
         end.
Proof.
  intros this. rewrite build_layout. fold this.
  change (macro (set_macro ?m _)) with m.
  unfold layout.
  rewrite select_wanderers, !select_branches. reflexivity.
Qed.

Lemma build_special_macros env abstract wanderers banish runaway :
  use_banish (build env abstract wanderers banish runaway)
  = use_banish (setup_special_macros banish runaway)
  /\ use_runaway (build env abstract wanderers banish runaway)
     = use_runaway (setup_special_macros banish runaway).
Proof. rewrite build_layout. split; reflexivity. Qed.

End AssemblerFacts.

(** C1 as stated fails: the sample table gives the goblin both a custom
    macro and the [Kill] strategy, yet with the goblin among the wanderers
    the assembled macro does not select the custom macro for it. *)
Lemma custom_macro_not_selected_for_wanderer :
  JSMap.get Sample.goblin (CombatStrategy.macros Sample.table) = Some Sample.writ
  /\ JSMap.get Sample.goblin (CombatStrategy.strategy Sample.table) = Some Kill
  /\ select Sample.goblin
       (BuiltCombatStrategy.macro
          (BuiltCombatStrategy.build Sample.env Sample.table
             [Resources.mkWanderer Sample.goblin] None None))
     <> Sample.writ.
Proof.
  split; [reflexivity|]. split; [reflexivity|].
  vm_compute. discriminate.
Qed.

(** C1, amended. For a table that gives monster [o] both a custom macro [p]
    and a strategy, and a context in which [o] is not the monster of any
    wanderer, the assembled macro selects [p] when the opponent is [o]: the
    branches of [macros] come before the branches of [strategy]. *)
Theorem custom_macro_precedes_strategy (env : Kolmafia) (abstract : CombatStrategy.t)
        (wanderers : list Resources.WandererSource)
        (banish : option Resources.BanishSource)
        (runaway : option Resources.RunawaySource)
        (o : Monster) (p : Macro) (s : MonsterStrategy)
        (Hp : JSMap.get o (CombatStrategy.macros abstract) = Some p)
        (Hs : JSMap.get o (CombatStrategy.strategy abstract) = Some s)
        (Hw : wanders o wanderers = false) :
  select o (BuiltCombatStrategy.macro
              (BuiltCombatStrategy.build env abstract wanderers banish runaway))
  = p.
Proof.
  rewrite AssemblerFacts.select_build. cbv zeta. rewrite Hw, Hp. reflexivity.
Qed.

Lemma custom_macro_precedes_strategy_witness :
  select Sample.goblin
    (BuiltCombatStrategy.macro
       (BuiltCombatStrategy.build Sample.env Sample.table
          [Resources.mkWanderer Sample.ghost] None None))
  = Sample.writ.
Proof.
  apply (custom_macro_precedes_strategy Sample.env Sample.table
           [Resources.mkWanderer Sample.ghost] None None Sample.goblin Sample.writ Kill);
    reflexivity.
Defined.

(** C2. [handle_monster(o, Abort)] puts a branch for [o] holding the abort
    macro in front of the whole macro, so [o] selects the abort macro whatever
    the macro held for it before; two calls in a row leave the later branch
    in front of the earlier one, and for the same monster the later call's
    macro is the one selected. *)
Theorem handle_monster_prepends (env : Kolmafia) (this : BuiltCombatStrategy.t)
        (o : Monster) :
  BuiltCombatStrategy.macro (BuiltCombatStrategy.handle_monster env o (inl Abort) this)
  = c_if (monsterid o) [c_abort] :: BuiltCombatStrategy.macro this
  /\ select o (BuiltCombatStrategy.macro
                 (BuiltCombatStrategy.handle_monster env o (inl Abort) this))
     = [c_abort]
  /\ (forall o1 s1 o2 s2,
        BuiltCombatStrategy.macro
          (BuiltCombatStrategy.handle_monster env o2 s2
             (BuiltCombatStrategy.handle_monster env o1 s1 this))
        = c_if (monsterid o2) (BuiltCombatStrategy.prepare_macro env this s2 (Some o2))
            :: c_if (monsterid o1) (BuiltCombatStrategy.prepare_macro env this s1 (Some o1))
            :: BuiltCombatStrategy.macro this)
  /\ (forall s1 s2,
        select o (BuiltCombatStrategy.macro
                    (BuiltCombatStrategy.handle_monster env o s2
                       (BuiltCombatStrategy.handle_monster env o s1 this)))
        = BuiltCombatStrategy.prepare_macro env this s2 (Some o)).
Proof.
  split; [reflexivity|]. split; [|split].
  - simpl. destruct (Monster_eq_dec o o); [reflexivity | contradiction].
  - intros o1 s1 o2 s2. reflexivity.
  - intros s1 s2.
    unfold BuiltCombatStrategy.handle_monster, MacroLib.if_, MacroLib.step, MacroLib.new.
    cbn [BuiltCombatStrategy.macro BuiltCombatStrategy.set_macro app select].
    destruct (Monster_eq_dec o o); [reflexivity | contradiction].
Qed.

(** C8. With no banish resource the constructor leaves [use_banish] unset and
    [Banish] compiles to the abort macro for every monster; with a banish
    resource it compiles to the single use of the resource's item or skill.
    Every strategy tag compiles, in every context, to one of the macros the
    switch lists. *)
Theorem banish_without_resource_aborts (env : Kolmafia) (abstract : CombatStrategy.t)
        (wanderers : list Resources.WandererSource)
        (runaway : option Resources.RunawaySource) (monster : option Monster) :
  BuiltCombatStrategy.prepare_macro env
    (BuiltCombatStrategy.build env abstract wanderers None runaway) (inl Banish) monster
  = [c_abort]
  /\ (forall i,
        BuiltCombatStrategy.prepare_macro env
          (BuiltCombatStrategy.build env abstract wanderers
             (Some (Resources.mkBanish (Resources.an_item i))) runaway)
          (inl Banish) monster
        = [c_use i])
  /\ (forall sk,
        BuiltCombatStrategy.prepare_macro env
          (BuiltCombatStrategy.build env abstract wanderers
             (Some (Resources.mkBanish (Resources.a_skill sk))) runaway)
          (inl Banish) monster
        = [c_skill sk])
  /\ (forall (this : BuiltCombatStrategy.t) (s : MonsterStrategy),
        let m := BuiltCombatStrategy.prepare_macro env this (inl s) monster in
        m = [c_abort]
        \/ BuiltCombatStrategy.use_banish this = Some m
        \/ BuiltCombatStrategy.use_runaway this = Some m
        \/ m = [c_runaway; c_skill BuiltCombatStrategy.Saucestorm; c_attack; c_repeat]
        \/ exists finisher, m = BuiltCombatStrategy.delevel ++ [finisher; c_repeat]).
Proof.
  assert (B : forall banish,
             BuiltCombatStrategy.prepare_macro env
               (BuiltCombatStrategy.build env abstract wanderers banish runaway)
               (inl Banish) monster
             = match BuiltCombatStrategy.use_banish
                       (BuiltCombatStrategy.setup_special_macros banish runaway) with
               | Some m => m
               | None => [c_abort]
               end).
  { intros banish. rewrite CompilerFacts.banish_program.
    destruct (AssemblerFacts.build_special_macros env abstract wanderers banish runaway)
      as [-> _].
    reflexivity. }
  split; [rewrite B; reflexivity|].
  split; [intros i; rewrite B; reflexivity|].
  split; [intros sk; rewrite B; reflexivity|].
  intros this s m. subst m.
  assert (Hard : exists finisher,
             BuiltCombatStrategy.prepare_macro env this (inl KillHard) monster
             = BuiltCombatStrategy.delevel ++ [finisher; c_repeat]).
  { rewrite CompilerFacts.kill_hard_program. eexists. reflexivity. }
  destruct s.
  - unfold BuiltCombatStrategy.prepare_macro. simpl.
    destruct (BuiltCombatStrategy.use_runaway this) eqn:E; auto.
  - destruct (CompilerFacts.kill_shape env this Kill monster (or_introl eq_refl))
      as (finisher & _ & E).
    do 4 right. exists finisher. exact E.
  - do 4 right. exact Hard.
  - unfold BuiltCombatStrategy.prepare_macro. simpl.
    destruct (BuiltCombatStrategy.use_banish this) eqn:E; auto.
  - left. reflexivity.
Qed.

(** C10. The branch the constructor adds for a wanderer holds [KillHard]
    compiled without a monster, so the wanderer's physical resistance plays
    no part: the macro selected for a wanderer's monster is [delevel]
    followed by Saucegeyser and [repeat] exactly when the equipped weapon's
    type is not muscle, and by Lunging Thrust-Smack and [repeat] exactly when
    it is muscle. *)
Theorem wanderer_branch_ignores_resistance (env : Kolmafia) (abstract : CombatStrategy.t)
        (wanderers : list Resources.WandererSource)
        (banish : option Resources.BanishSource)
        (runaway : option Resources.RunawaySource)
        (w : Resources.WandererSource) (Hw : In w wanderers) :
  let selected :=
    select (Resources.monster w)
      (BuiltCombatStrategy.macro
         (BuiltCombatStrategy.build env abstract wanderers banish runaway)) in
  selected
  = BuiltCombatStrategy.prepare_macro env
      (BuiltCombatStrategy.setup_special_macros banish runaway) (inl KillHard) None
  /\ (selected
      = BuiltCombatStrategy.delevel ++ [c_skill BuiltCombatStrategy.Saucegeyser; c_repeat]
      <-> weaponType env (equippedItem env Weapon) <> muscle)
  /\ (selected
      = BuiltCombatStrategy.delevel
          ++ [c_skill BuiltCombatStrategy.Lunging_Thrust_Smack; c_repeat]
      <-> weaponType env (equippedItem env Weapon) = muscle).
Proof.
  intros selected.
  assert (Hsel : selected
                 = BuiltCombatStrategy.prepare_macro env
                     (BuiltCombatStrategy.setup_special_macros banish runaway)
                     (inl KillHard) None).
  { subst selected. rewrite AssemblerFacts.select_build. cbv zeta.
    assert (Hin : wanders (Resources.monster w) wanderers = true).
    { unfold wanders. apply existsb_exists. exists w. split; [exact Hw|].
      destruct (Monster_eq_dec _ _); [reflexivity | contradiction]. }
    rewrite Hin. reflexivity. }
  split; [exact Hsel|].
  rewrite Hsel, CompilerFacts.kill_hard_program. simpl BuiltCombatStrategy.resists_physical.
  rewrite orb_false_l.
  destruct (Stat_eq_dec (weaponType env (equippedItem env Weapon)) muscle) as [E|N].
  - rewrite (CompilerFacts.weapon_not_muscle_false env E).
    split; split; intros H; try reflexivity; try exact E.
    + apply app_inv_head in H. discriminate H.
    + contradiction.
  - rewrite (CompilerFacts.weapon_not_muscle_true env N).
    split; split; intros H; try reflexivity; try exact N.
    + apply app_inv_head in H. discriminate H.
    + contradiction.
Qed.

Lemma wanderer_branch_ignores_resistance_witness :
  select Sample.ghost
    (BuiltCombatStrategy.macro
       (BuiltCombatStrategy.build Sample.env Sample.table
          [Resources.mkWanderer Sample.ghost] None None))
  = BuiltCombatStrategy.prepare_macro Sample.env
      (BuiltCombatStrategy.setup_special_macros None None) (inl KillHard) None.
Proof.
  assert (Hw : In (Resources.mkWanderer Sample.ghost) [Resources.mkWanderer Sample.ghost])
    by (simpl; left; reflexivity).
  destruct (wanderer_branch_ignores_resistance Sample.env Sample.table
              [Resources.mkWanderer Sample.ghost] None None
              (Resources.mkWanderer Sample.ghost) Hw) as [H _].
  exact H.
Defined.

(* ================================================================== *)
(** ** Further properties of the strategy table *)

Module BuilderFacts.
Import CombatStrategy.

Lemma set_noop (V : Type) (k : Monster) (v : V) (m : JSMap.t V) :
  JSMap.get k m = Some v -> JSMap.set k v m = m.
Proof.
  induction m as [|[k0 v0] rest IH]; simpl; [discriminate|].
  destruct (Monster_eq_dec k0 k) as [E|N]; intros H.
  - congruence.
  - rewrite IH by exact H. reflexivity.
Qed.

Lemma set_all_noop (V : Type) (v : V) (ks : list Monster) : forall m : JSMap.t V,
  (forall k, In k ks -> JSMap.get k m = Some v) ->
  fold_left (fun m k => JSMap.set k v m) ks m = m.
Proof.
  induction ks as [|k ks IH]; intros m H; simpl; [reflexivity|].
  rewrite set_noop by (apply H; left; reflexivity).
  apply IH. intros k' Hk'. apply H. right. exact Hk'.
Qed.

Lemma set_all_idempotent (V : Type) (v : V) (ks : list Monster) (m : JSMap.t V) :
  fold_left (fun m k => JSMap.set k v m) ks
            (fold_left (fun m k => JSMap.set k v m) ks m)
  = fold_left (fun m k => JSMap.set k v m) ks m.
Proof.
  apply set_all_noop. intros k Hk. rewrite get_set_all.
  destruct (in_dec Monster_eq_dec k ks); [reflexivity | contradiction].
Qed.

(** [apply] as one update of the record. *)
Lemma apply_unfold s ms this :
  apply s ms this
  = mk (match ms with [] => s | _ :: _ => default_strategy this end)
       (default_macro this)
       (fold_left (fun m k => JSMap.set k s m) ms (strategy this))
       (macros this) (boss this).
Proof.
  unfold apply. rewrite TableFacts.apply_loop. destruct ms; reflexivity.
Qed.

(** [macro] as one update of the record. *)
Lemma macro_unfold p ms this :
  macro p ms this
  = mk (default_strategy this)
       (match ms with [] => Some p | _ :: _ => default_macro this end)
       (strategy this)
       (fold_left (fun m k => JSMap.set k p m) ms (macros this))
       (boss this).
Proof.
  unfold macro. rewrite TableFacts.macro_loop. destruct ms; reflexivity.
Qed.

Lemma perform_boss c this : boss (perform c this) = boss this.
Proof.
  destruct c; simpl;
    unfold kill, killHard, flee, abort, item;
    rewrite ?apply_unfold, ?macro_unfold; try reflexivity.
  destruct monsters; simpl; [reflexivity | rewrite apply_unfold; reflexivity].
Qed.

End BuilderFacts.

(** X1. [apply(s, ...monsters)] without monsters replaces the default
    strategy and nothing else; with monsters it leaves the default strategy
    alone, maps every listed monster to [s] and keeps every other entry.  In
    both cases the custom macros, the default macro and the boss flag stay
    as they were. *)
Theorem apply_sets_default_or_entries (s : MonsterStrategy) (monsters : list Monster)
        (this : CombatStrategy.t) :
  CombatStrategy.default_strategy (CombatStrategy.apply s monsters this)
  = match monsters with
    | [] => s
    | _ :: _ => CombatStrategy.default_strategy this
    end
  /\ (forall o,
        JSMap.get o (CombatStrategy.strategy (CombatStrategy.apply s monsters this))
        = if in_dec Monster_eq_dec o monsters then Some s
          else JSMap.get o (CombatStrategy.strategy this))
  /\ CombatStrategy.macros (CombatStrategy.apply s monsters this)
     = CombatStrategy.macros this
  /\ CombatStrategy.default_macro (CombatStrategy.apply s monsters this)
     = CombatStrategy.default_macro this
  /\ CombatStrategy.boss (CombatStrategy.apply s monsters this)
     = CombatStrategy.boss this.
Proof.
  rewrite BuilderFacts.apply_unfold. simpl.
  repeat split. intros o. apply get_set_all.
Qed.

(** X2. [macro(p, ...monsters)] without monsters sets the default macro and
    nothing else; with monsters it leaves the default macro alone, gives
    every listed monster the macro [p] and keeps every other entry.  It never
    touches the [strategy] map or the default strategy, so a strategy set
    earlier for the same monster stays in the table. *)
Theorem macro_sets_default_or_entries (p : Macro) (monsters : list Monster)
        (this : CombatStrategy.t) :
  CombatStrategy.default_macro (CombatStrategy.macro p monsters this)
  = match monsters with
    | [] => Some p
    | _ :: _ => CombatStrategy.default_macro this
    end
  /\ (forall o,
        JSMap.get o (CombatStrategy.macros (CombatStrategy.macro p monsters this))
        = if in_dec Monster_eq_dec o monsters then Some p
          else JSMap.get o (CombatStrategy.macros this))
  /\ CombatStrategy.strategy (CombatStrategy.macro p monsters this)
     = CombatStrategy.strategy this
  /\ CombatStrategy.default_strategy (CombatStrategy.macro p monsters this)
     = CombatStrategy.default_strategy this
  /\ CombatStrategy.boss (CombatStrategy.macro p monsters this)
     = CombatStrategy.boss this.
Proof.
  rewrite BuilderFacts.macro_unfold. simpl.
  repeat split. intros o. apply get_set_all.
Qed.

(** X3. Repeating a call of [apply] with the same strategy and monsters
    changes nothing: the table after the second call is the table after the
    first, entry order included. *)
Theorem apply_idempotent (s : MonsterStrategy) (monsters : list Monster)
        (this : CombatStrategy.t) :
  CombatStrategy.apply s monsters (CombatStrategy.apply s monsters this)
  = CombatStrategy.apply s monsters this.
Proof.
  rewrite !BuilderFacts.apply_unfold. simpl.
  rewrite BuilderFacts.set_all_idempotent.
  destruct monsters; reflexivity.
Qed.

(** X4. After [apply(s, ...monsters)], [can(s)] holds, every listed monster
    is in [where(s)], and no listed monster is in [where(s')] for another
    strategy [s']. *)
Theorem can_and_where_after_apply (s : MonsterStrategy) (monsters : list Monster)
        (this : CombatStrategy.t) :
  CombatStrategy.can s (CombatStrategy.apply s monsters this) = true
  /\ (forall o, In o monsters ->
        In o (CombatStrategy.where_ s (CombatStrategy.apply s monsters this)))
  /\ (forall o s', In o monsters -> s' <> s ->
        ~ In o (CombatStrategy.where_ s' (CombatStrategy.apply s monsters this))).
Proof.
  assert (G : forall o, In o monsters ->
            JSMap.get o (CombatStrategy.strategy (CombatStrategy.apply s monsters this))
            = Some s).
  { intros o Ho. rewrite BuilderFacts.apply_unfold. simpl. rewrite get_set_all.
    destruct (in_dec Monster_eq_dec o monsters); [reflexivity | contradiction]. }
  split; [|split].
  - unfold CombatStrategy.can.
    destruct (strategy_eqb s _) eqn:E; [reflexivity|].
    destruct monsters as [|o ms].
    + rewrite BuilderFacts.apply_unfold in E. simpl in E.
      assert (T : strategy_eqb s s = true) by (apply TableFacts.strategy_eqb_eq; reflexivity).
      congruence.
    + apply existsb_exists. exists s. split.
      * eapply get_Some_value. apply (G o). left. reflexivity.
      * apply TableFacts.strategy_eqb_eq. reflexivity.
  - intros o Ho. apply TableFacts.where_In. apply G. exact Ho.
  - intros o s' Ho Hne Hin. apply TableFacts.where_In in Hin.
    rewrite (G o Ho) in Hin. congruence.
Qed.

Lemma can_and_where_after_apply_witness :
  CombatStrategy.can Kill (CombatStrategy.apply Kill [Sample.goblin] Sample.table) = true
  /\ In Sample.goblin
        (CombatStrategy.where_ Kill (CombatStrategy.apply Kill [Sample.goblin] Sample.table))
  /\ ~ In Sample.goblin
         (CombatStrategy.where_ Banish
            (CombatStrategy.apply Kill [Sample.goblin] Sample.table)).
Proof.
  destruct (can_and_where_after_apply Kill [Sample.goblin] Sample.table) as (H1 & H2 & H3).
  split; [exact H1|]. split.
  - apply H2. simpl. left. reflexivity.
  - apply H3; [simpl; left; reflexivity | discriminate].
Defined.

(** X5. Whatever series of builder calls produced a table, [where] lists no
    monster twice. *)
Theorem where_never_repeats (boss : option bool) (calls : list CombatStrategy.Call)
        (i : MonsterStrategy) :
  NoDup (CombatStrategy.where_ i (CombatStrategy.configured boss calls)).
Proof.
  unfold CombatStrategy.where_. apply NoDup_filter.
  apply (TableFacts.configured_wf boss calls).
Qed.

(** X6. [banish] never changes the default strategy: without monsters it
    throws with the table untouched, with monsters it is [apply(Banish, ...)],
    which only writes map entries. *)
Theorem banish_keeps_default (monsters : list Monster) (this : CombatStrategy.t) :
  CombatStrategy.default_strategy (CombatStrategy.after (CombatStrategy.banish monsters this))
  = CombatStrategy.default_strategy this
  /\ (monsters <> [] ->
      CombatStrategy.banish monsters this
      = CombatStrategy.Returned (CombatStrategy.apply Banish monsters this)).
Proof.
  destruct monsters as [|o ms]; simpl.
  - split; [reflexivity | intros H; contradiction H; reflexivity].
  - split; [|reflexivity]. rewrite BuilderFacts.apply_unfold. reflexivity.
Qed.

Lemma banish_keeps_default_witness :
  CombatStrategy.banish [Sample.ghost] Sample.table
  = CombatStrategy.Returned (CombatStrategy.apply Banish [Sample.ghost] Sample.table).
Proof.
  apply (banish_keeps_default [Sample.ghost] Sample.table). discriminate.
Defined.

(** X7. The boss flag is fixed by the constructor ([false] when omitted): no
    builder call changes it. *)
Theorem boss_is_fixed (boss : option bool) (calls : list CombatStrategy.Call) :
  CombatStrategy.boss (CombatStrategy.configured boss calls)
  = match boss with Some b => b | None => false end.
Proof.
  unfold CombatStrategy.configured.
  change (match boss with Some b => b | None => false end)
    with (CombatStrategy.boss (CombatStrategy.create boss)).
  generalize (CombatStrategy.create boss).
  induction calls as [|c calls IH]; intros this; simpl; [reflexivity|].
  rewrite IH. apply BuilderFacts.perform_boss.
Qed.

(* ================================================================== *)
(** ** Further properties of the assembled macro *)

Module PriorityFacts.
Import BuiltCombatStrategy Resources.

(** Compiling with the built object is compiling with the special macros the
    constructor resolved first. *)
Lemma prepare_macro_build env abstract wanderers banish runaway strategy monster :
  prepare_macro env (build env abstract wanderers banish runaway) strategy monster
  = prepare_macro env (setup_special_macros banish runaway) strategy monster.
Proof. rewrite AssemblerFacts.build_layout. reflexivity. Qed.

Lemma In_monsters_dec (o : Monster) (ms : list Monster) (X : Type) (a b : X) :
  In o ms -> (if in_dec Monster_eq_dec o ms then a else b) = a.
Proof. intros H. destruct (in_dec Monster_eq_dec o ms); [reflexivity | contradiction]. Qed.

End PriorityFacts.

(** X8. The macro the constructor assembles is, in this order: one branch per
    wanderer holding [KillHard] compiled without a monster; one branch per
    entry of [macros] holding the custom macro; one branch per entry of
    [strategy] holding the strategy compiled for that monster (also for a
    monster that has a custom macro); the default macro when there is one;
    the default strategy compiled without a monster. *)
Theorem assembled_macro_order (env : Kolmafia) (abstract : CombatStrategy.t)
        (wanderers : list Resources.WandererSource)
        (banish : option Resources.BanishSource)
        (runaway : option Resources.RunawaySource) :
  let this := BuiltCombatStrategy.build env abstract wanderers banish runaway in
  BuiltCombatStrategy.macro this
  = map (fun w => c_if (monsterid (Resources.monster w))
                       (BuiltCombatStrategy.prepare_macro env this (inl KillHard) None))
        wanderers
    ++ map (fun kv => c_if (monsterid (fst kv)) (snd kv))
           (CombatStrategy.macros abstract)
    ++ map (fun kv => c_if (monsterid (fst kv))
                           (BuiltCombatStrategy.prepare_macro env this (inl (snd kv))
                                                              (Some (fst kv))))
           (CombatStrategy.strategy abstract)
    ++ match CombatStrategy.default_macro abstract with
       | Some d => d
       | None => []
       end
    ++ BuiltCombatStrategy.prepare_macro env this
         (inl (CombatStrategy.default_strategy abstract)) None.
Proof.
  intros this. subst this.
  assert (E : forall strategy monster,
             BuiltCombatStrategy.prepare_macro env
               (BuiltCombatStrategy.build env abstract wanderers banish runaway)
               strategy monster
             = BuiltCombatStrategy.prepare_macro env
                 (BuiltCombatStrategy.setup_special_macros banish runaway)
                 strategy monster)
    by (intros; apply PriorityFacts.prepare_macro_build).
  rewrite AssemblerFacts.build_layout at 1.
  cbn [BuiltCombatStrategy.macro BuiltCombatStrategy.set_macro].
  unfold layout, branches.
  apply (f_equal2 (@app Command));
    [apply map_ext; intros w; rewrite E; reflexivity|].
  apply (f_equal2 (@app Command)); [reflexivity|].
  apply (f_equal2 (@app Command));
    [apply map_ext; intros kv; rewrite E; reflexivity|].
  apply (f_equal2 (@app Command)); [reflexivity|].
  rewrite E. reflexivity.
Qed.

(** X9. A monster that is no wanderer and has no custom macro but has an
    entry in [strategy] selects that strategy compiled for the monster
    itself, so the escalation and resistance tests see its own numbers. *)
Theorem strategy_branch_selected (env : Kolmafia) (abstract : CombatStrategy.t)
        (wanderers : list Resources.WandererSource)
        (banish : option Resources.BanishSource)
        (runaway : option Resources.RunawaySource)
        (o : Monster) (s : MonsterStrategy)
        (Hw : wanders o wanderers = false)
        (Hp : JSMap.get o (CombatStrategy.macros abstract) = None)
        (Hs : JSMap.get o (CombatStrategy.strategy abstract) = Some s) :
  select o (BuiltCombatStrategy.macro
              (BuiltCombatStrategy.build env abstract wanderers banish runaway))
  = BuiltCombatStrategy.prepare_macro env
      (BuiltCombatStrategy.build env abstract wanderers banish runaway)
      (inl s) (Some o).
Proof.
  rewrite AssemblerFacts.select_build, PriorityFacts.prepare_macro_build.
  cbv zeta. rewrite Hw, Hp, Hs. reflexivity.
Qed.

Lemma strategy_branch_selected_witness :
  select Sample.ghost
    (BuiltCombatStrategy.macro
       (BuiltCombatStrategy.build Sample.env
          (CombatStrategy.kill [Sample.ghost] Sample.table) [] None None))
  = BuiltCombatStrategy.prepare_macro Sample.env
      (BuiltCombatStrategy.build Sample.env
         (CombatStrategy.kill [Sample.ghost] Sample.table) [] None None)
      (inl Kill) (Some Sample.ghost).
Proof.
  apply (strategy_branch_selected Sample.env
           (CombatStrategy.kill [Sample.ghost] Sample.table) [] None None
           Sample.ghost Kill); reflexivity.
Defined.

(** X10. A monster that is no wanderer and has no entry in either map falls
    through every branch: what it selects is decided by the default macro
    followed by the compiled default strategy alone. *)
Theorem unlisted_monster_gets_defaults (env : Kolmafia) (abstract : CombatStrategy.t)
        (wanderers : list Resources.WandererSource)
        (banish : option Resources.BanishSource)
        (runaway : option Resources.RunawaySource)
        (o : Monster)
        (Hw : wanders o wanderers = false)
        (Hp : JSMap.get o (CombatStrategy.macros abstract) = None)
        (Hs : JSMap.get o (CombatStrategy.strategy abstract) = None) :
  select o (BuiltCombatStrategy.macro
              (BuiltCombatStrategy.build env abstract wanderers banish runaway))
  = select o
      (match CombatStrategy.default_macro abstract with
       | Some d => d
       | None => []
       end
       ++ BuiltCombatStrategy.prepare_macro env
            (BuiltCombatStrategy.build env abstract wanderers banish runaway)
            (inl (CombatStrategy.default_strategy abstract)) None).
Proof.
  rewrite AssemblerFacts.select_build, PriorityFacts.prepare_macro_build.
  cbv zeta. rewrite Hw, Hp, Hs. reflexivity.
Qed.

Lemma unlisted_monster_gets_defaults_witness :
  select Sample.lawyer
    (BuiltCombatStrategy.macro
       (BuiltCombatStrategy.build Sample.env Sample.table [] None None))
  = select Sample.lawyer
      ([] ++ BuiltCombatStrategy.prepare_macro Sample.env
               (BuiltCombatStrategy.build Sample.env Sample.table [] None None)
               (inl RunAway) None).
Proof.
  apply (unlisted_monster_gets_defaults Sample.env Sample.table [] None None Sample.lawyer);
    reflexivity.
Defined.

(** X11. The default strategy is compiled without a monster.  With [Kill] as
    default and no default macro, a monster without a branch of its own
    therefore gets [delevel], the plain attack and [repeat], however high its
    defense or physical resistance: the default [Kill] is never upgraded and
    never switches to Saucegeyser. *)
Theorem default_kill_is_plain_attack (env : Kolmafia) (abstract : CombatStrategy.t)
        (wanderers : list Resources.WandererSource)
        (banish : option Resources.BanishSource)
        (runaway : option Resources.RunawaySource)
        (o : Monster)
        (Hw : wanders o wanderers = false)
        (Hp : JSMap.get o (CombatStrategy.macros abstract) = None)
        (Hs : JSMap.get o (CombatStrategy.strategy abstract) = None)
        (Hm : CombatStrategy.default_macro abstract = None)
        (Hd : CombatStrategy.default_strategy abstract = Kill) :
  select o (BuiltCombatStrategy.macro
              (BuiltCombatStrategy.build env abstract wanderers banish runaway))
  = BuiltCombatStrategy.delevel ++ [c_attack; c_repeat].
Proof.
  rewrite AssemblerFacts.select_build.
  cbv zeta. rewrite Hw, Hp, Hs, Hm, Hd. reflexivity.
Qed.

Lemma default_kill_is_plain_attack_witness :
  select Sample.ghost
    (BuiltCombatStrategy.macro
       (BuiltCombatStrategy.build Sample.hard_env
          (CombatStrategy.kill [] (CombatStrategy.create None)) [] None None))
  = BuiltCombatStrategy.delevel ++ [c_attack; c_repeat].
Proof.
  apply (default_kill_is_plain_attack Sample.hard_env
           (CombatStrategy.kill [] (CombatStrategy.create None)) [] None None Sample.ghost);
    reflexivity.
Defined.

(** X12. [handle_monster] for one monster changes nothing for any other
    monster: every other opponent selects what it selected before, and the
    banish and runaway macros stay as resolved. *)
Theorem handle_monster_keeps_others (env : Kolmafia) (this : BuiltCombatStrategy.t)
        (o o' : Monster) (strategy : MonsterStrategy + Macro) (Hne : o <> o') :
  select o' (BuiltCombatStrategy.macro
               (BuiltCombatStrategy.handle_monster env o strategy this))
  = select o' (BuiltCombatStrategy.macro this)
  /\ BuiltCombatStrategy.use_banish
       (BuiltCombatStrategy.handle_monster env o strategy this)
     = BuiltCombatStrategy.use_banish this
  /\ BuiltCombatStrategy.use_runaway
       (BuiltCombatStrategy.handle_monster env o strategy this)
     = BuiltCombatStrategy.use_runaway this.
Proof.
  split; [|split; reflexivity].
  unfold BuiltCombatStrategy.handle_monster, MacroLib.if_, MacroLib.step, MacroLib.new.
  cbn [BuiltCombatStrategy.macro BuiltCombatStrategy.set_macro app select].
  destruct (Monster_eq_dec o o'); [contradiction | reflexivity].
Qed.

Lemma handle_monster_keeps_others_witness :
  select Sample.ghost
    (BuiltCombatStrategy.macro
       (BuiltCombatStrategy.handle_monster Sample.env Sample.goblin (inl Abort)
          (BuiltCombatStrategy.build Sample.env Sample.table [] None None)))
  = select Sample.ghost
      (BuiltCombatStrategy.macro
         (BuiltCombatStrategy.build Sample.env Sample.table [] None None)).
Proof.
  apply (handle_monster_keeps_others Sample.env
           (BuiltCombatStrategy.build Sample.env Sample.table [] None None)
           Sample.goblin Sample.ghost (inl Abort)).
  discriminate.
Defined.

(** X13. [RunAway] compiles, for any monster or none, to the runaway
    resource's macro when the constructor was given one, and otherwise to the
    built-in macro: runaway, Saucestorm, attack, repeat. *)
Theorem run_away_program (env : Kolmafia) (abstract : CombatStrategy.t)
        (wanderers : list Resources.WandererSource)
        (banish : option Resources.BanishSource) (monster : option Monster) :
  BuiltCombatStrategy.prepare_macro env
    (BuiltCombatStrategy.build env abstract wanderers banish None) (inl RunAway) monster
  = [c_runaway; c_skill BuiltCombatStrategy.Saucestorm; c_attack; c_repeat]
  /\ (forall r,
        BuiltCombatStrategy.prepare_macro env
          (BuiltCombatStrategy.build env abstract wanderers banish (Some r))
          (inl RunAway) monster
        = Resources.runaway_do r).
Proof.
  split; [|intros r]; rewrite PriorityFacts.prepare_macro_build; reflexivity.
Qed.

(** X14. [item(i, ...monsters)] followed by the constructor: a listed monster
    that is no wanderer selects the one-command macro using [i], whatever
    strategy the table holds for it. *)
Theorem item_shortcut_selected (env : Kolmafia) (this : CombatStrategy.t)
        (wanderers : list Resources.WandererSource)
        (banish : option Resources.BanishSource)
        (runaway : option Resources.RunawaySource)
        (i : Item) (monsters : list Monster) (o : Monster)
        (Ho : In o monsters)
        (Hw : wanders o wanderers = false) :
  select o (BuiltCombatStrategy.macro
              (BuiltCombatStrategy.build env (CombatStrategy.item i monsters this)
                                         wanderers banish runaway))
  = [c_use i].
Proof.
  rewrite AssemblerFacts.select_build. cbv zeta. rewrite Hw.
  unfold CombatStrategy.item. rewrite BuilderFacts.macro_unfold.
  cbn [CombatStrategy.macros]. rewrite get_set_all.
  rewrite PriorityFacts.In_monsters_dec by exact Ho. reflexivity.
Qed.

Lemma item_shortcut_selected_witness :
  select Sample.lawyer
    (BuiltCombatStrategy.macro
       (BuiltCombatStrategy.build Sample.env
          (CombatStrategy.item Sample.club [Sample.lawyer] Sample.table) [] None None))
  = [c_use Sample.club].
Proof.
  apply (item_shortcut_selected Sample.env Sample.table [] None None Sample.club
           [Sample.lawyer] Sample.lawyer);
    [simpl; left; reflexivity | reflexivity].
Defined.

(* ================================================================== *)
(** ** Properties of [all_tasks] *)

Module TaskFacts.
Import Tasks.

Section StrMapFacts.
Variable V : Type.
Implicit Types (m : StrMap.t V) (k : string) (v : V).

Lemma str_set_In k v k0 v0 m :
  In (k0, v0) (StrMap.set k v m) -> (k0, v0) = (k, v) \/ In (k0, v0) m.
Proof.
  induction m as [|[k1 v1] rest IH]; simpl.
  - intros [H|[]]. left. congruence.
  - destruct (String.eqb k1 k); simpl.
    + intros [H|H]; [left; congruence | right; right; exact H].
    + intros [H|H]; [right; left; exact H|].
      destruct (IH H) as [E|E]; [left; exact E | right; right; exact E].
Qed.

Lemma str_get_set_same k v m : StrMap.get k (StrMap.set k v m) = Some v.
Proof.
  induction m as [|[k1 v1] rest IH]; simpl.
  - rewrite String.eqb_refl. reflexivity.
  - destruct (String.eqb k1 k) eqn:E; simpl.
    + rewrite String.eqb_refl. reflexivity.
    + rewrite E. exact IH.
Qed.

Lemma str_get_set_other k k' v m :
  k <> k' -> StrMap.get k' (StrMap.set k v m) = StrMap.get k' m.
Proof.
  intros Hne.
  assert (Hkk : String.eqb k k' = false) by (apply String.eqb_neq; exact Hne).
  induction m as [|[k1 v1] rest IH]; simpl.
  - rewrite Hkk. reflexivity.
  - destruct (String.eqb k1 k) eqn:E; simpl.
    + apply String.eqb_eq in E. subst k1. rewrite Hkk. reflexivity.
    + destruct (String.eqb k1 k'); [reflexivity | exact IH].
Qed.

Lemma str_has_set k k' v m :
  StrMap.has k' (StrMap.set k v m) = String.eqb k k' || StrMap.has k' m.
Proof.
  unfold StrMap.has.
  destruct (String.eqb k k') eqn:E.
  - apply String.eqb_eq in E. subst k'. rewrite str_get_set_same. reflexivity.
  - apply String.eqb_neq in E. rewrite (str_get_set_other k k' v m E). reflexivity.
Qed.

Lemma str_keys_set k v m k' :
  In k' (StrMap.keys (StrMap.set k v m)) <-> k' = k \/ In k' (StrMap.keys m).
Proof.
  unfold StrMap.keys.
  induction m as [|[k1 v1] rest IH]; simpl.
  - intuition congruence.
  - destruct (String.eqb k1 k) eqn:E; simpl.
    + apply String.eqb_eq in E. subst k1. intuition congruence.
    + rewrite IH. intuition congruence.
Qed.

Lemma str_set_NoDup k v m :
  NoDup (StrMap.keys m) -> NoDup (StrMap.keys (StrMap.set k v m)).
Proof.
  unfold StrMap.keys.
  induction m as [|[k1 v1] rest IH]; simpl; intros H.
  - constructor; [intros [] | constructor].
  - inversion H as [|? ? Hnotin Hrest]; subst.
    destruct (String.eqb k1 k) eqn:E; simpl.
    + apply String.eqb_eq in E. subst k1. constructor; assumption.
    + constructor; [|apply IH; exact Hrest].
      intros Hin. apply str_keys_set in Hin. destruct Hin as [Hk|Hin].
      * apply String.eqb_neq in E. congruence.
      * apply Hnotin. exact Hin.
Qed.

Lemma str_get_In k v m : StrMap.get k m = Some v -> In (k, v) m.
Proof.
  induction m as [|[k1 v1] rest IH]; simpl; [discriminate|].
  destruct (String.eqb k1 k) eqn:E; intros H.
  - apply String.eqb_eq in E. left. congruence.
  - right. apply IH. exact H.
Qed.

Lemma str_has_keys k m : StrMap.has k m = true <-> In k (StrMap.keys m).
Proof.
  unfold StrMap.has, StrMap.keys.
  induction m as [|[k1 v1] rest IH]; simpl.
  - split; [discriminate | intros []].
  - destruct (String.eqb k1 k) eqn:E.
    + apply String.eqb_eq in E. split; auto.
    + apply String.eqb_neq in E. rewrite IH. split; [auto|].
      intros [H|H]; [contradiction | exact H].
Qed.

End StrMapFacts.

Section StoreFacts.
Variable Body : Type.
Implicit Types (store : Store Body) (t : Task Body).

Lemma write_same r t : forall store,
  (r < List.length store)%nat -> nth_error (write r t store) r = Some t.
Proof.
  induction r as [|r IH]; intros [|t0 store] H; simpl in *; try lia; [reflexivity|].
  apply IH. lia.
Qed.

Lemma write_other r r' t : forall store,
  r <> r' -> nth_error (write r t store) r' = nth_error store r'.
Proof.
  revert r'. induction r as [|r IH]; intros r' [|t0 store] H; simpl; try reflexivity.
  - destruct r'; [contradiction H; reflexivity | reflexivity].
  - destruct r'; [reflexivity|]. simpl. apply IH. congruence.
Qed.

Lemma write_length r t : forall store, List.length (write r t store) = List.length store.
Proof.
  induction r as [|r IH]; intros [|t0 store]; simpl; try reflexivity.
  rewrite IH. reflexivity.
Qed.

End StoreFacts.

Lemma includes_slash_append (a b : string) :
  includes_slash (String.append a b) = includes_slash a || includes_slash b.
Proof.
  induction a as [|c a IH]; simpl; [reflexivity|].
  destruct (Ascii.eqb c "/"); [reflexivity | exact IH].
Qed.

Lemma includes_slash_in_quest (q x : string) : includes_slash (in_quest q x) = true.
Proof.
  unfold in_quest. rewrite includes_slash_append. simpl. apply orb_true_r.
Qed.

Lemma includes_slash_qualify (q x : string) : includes_slash (qualify q x) = true.
Proof.
  unfold qualify. destruct (includes_slash x) eqn:E;
    [exact E | apply includes_slash_in_quest].
Qed.

Lemma qualify_qualified (q x : string) : includes_slash x = true -> qualify q x = x.
Proof. intros H. unfold qualify. rewrite H. reflexivity. Qed.

Lemma append_length (a b : string) :
  String.length (String.append a b) = (String.length a + String.length b)%nat.
Proof. induction a as [|c a IH]; simpl; [reflexivity | rewrite IH; reflexivity]. Qed.

Lemma in_quest_longer (q x : string) : in_quest q x <> x.
Proof.
  intros H. apply (f_equal String.length) in H.
  unfold in_quest in H. rewrite !append_length in H. simpl in H. lia.
Qed.

Section LoopFacts.
Variable Body : Type.
Implicit Types (store : Store Body) (t : Task Body) (st : StrMap.t Ref * Store Body).

Lemma inner_loop q : forall rs st,
  fold_left (visit q) rs st = run (map (fun r => (q, r)) rs) st.
Proof. induction rs as [|r rs IH]; intros st; simpl; [reflexivity | apply IH]. Qed.

Lemma run_app vs ws st : run (vs ++ ws) st = run ws (run vs st).
Proof. unfold run. apply fold_left_app. Qed.

Lemma nested_loop : forall quests st,
  fold_left (fun st quest => fold_left (visit (quest_name quest)) (tasks quest) st) quests st
  = run (visits quests) st.
Proof.
  induction quests as [|quest quests IH]; intros st; simpl; [reflexivity|].
  rewrite IH, inner_loop, run_app. reflexivity.
Qed.

Lemma all_tasks_run quests store :
  all_tasks quests store = run (visits quests) (StrMap.empty, store).
Proof. apply nested_loop. Qed.

Lemma visited_in_None a vs : ~ In a (map snd vs) -> visited_in a vs = None.
Proof.
  induction vs as [|[q r] vs IH]; simpl; intros H; [reflexivity|].
  destruct (Nat.eqb r a) eqn:E.
  - apply Nat.eqb_eq in E. exfalso. apply H. left. exact E.
  - apply IH. intros Hin. apply H. right. exact Hin.
Qed.

Lemma visited_in_Some q a vs :
  NoDup (map snd vs) -> In (q, a) vs -> visited_in a vs = Some q.
Proof.
  induction vs as [|[q0 r] vs IH]; simpl; intros Hnd Hin; [contradiction|].
  inversion Hnd as [|? ? Hnotin Hrest]; subst.
  destruct Hin as [E|Hin].
  - inversion E; subst. rewrite Nat.eqb_refl. reflexivity.
  - destruct (Nat.eqb r a) eqn:E.
    + apply Nat.eqb_eq in E. subst r. exfalso. apply Hnotin.
      apply (in_map snd) in Hin. exact Hin.
    + apply IH; assumption.
Qed.

Lemma visited_in_In q a vs : visited_in a vs = Some q -> In (q, a) vs.
Proof.
  induction vs as [|[q0 r] vs IH]; simpl; [discriminate|].
  destruct (Nat.eqb r a) eqn:E; intros H.
  - apply Nat.eqb_eq in E. left. congruence.
  - right. apply IH. exact H.
Qed.

Lemma visit_store_same q st a :
  nth_error (snd (visit q st a)) a = option_map (rename q) (nth_error (snd st) a).
Proof.
  unfold visit. destruct (nth_error (snd st) a) as [t|] eqn:E; simpl.
  - apply write_same. apply nth_error_Some. congruence.
  - rewrite E. reflexivity.
Qed.

Lemma visit_store_other q st r a :
  r <> a -> nth_error (snd (visit q st r)) a = nth_error (snd st) a.
Proof.
  intros Hne. unfold visit. destruct (nth_error (snd st) r) as [t|]; simpl;
    [apply write_other; exact Hne | reflexivity].
Qed.

(** With every task object visited once, the store after the loop holds each
    visited task renamed once and every other task as it was. *)
Lemma run_store : forall vs st,
  NoDup (map snd vs) ->
  forall a,
    nth_error (snd (run vs st)) a
    = match visited_in a vs with
      | Some q => option_map (rename q) (nth_error (snd st) a)
      | None => nth_error (snd st) a
      end.
Proof.
  induction vs as [|[q r] vs IH]; intros st Hnd a; [reflexivity|].
  inversion Hnd as [|? ? Hnotin Hrest]; subst.
  change (run ((q, r) :: vs) st) with (run vs (visit q st r)).
  rewrite (IH _ Hrest). simpl.
  destruct (Nat.eqb r a) eqn:E.
  - apply Nat.eqb_eq in E. subst r.
    rewrite (visited_in_None _ _ Hnotin). apply visit_store_same.
  - apply Nat.eqb_neq in E. rewrite (visit_store_other q st r a E). reflexivity.
Qed.

(** Where the entries of the table come from. *)
Lemma run_table : forall vs st,
  NoDup (map snd vs) ->
  forall k a,
    In (k, a) (fst (run vs st)) ->
    In (k, a) (fst st)
    \/ exists q t, In (q, a) vs /\ nth_error (snd st) a = Some t
                   /\ k = in_quest q (name t).
Proof.
  induction vs as [|[q r] vs IH]; intros st Hnd k a Hin; [left; exact Hin|].
  inversion Hnd as [|? ? Hnotin Hrest]; subst.
  change (run ((q, r) :: vs) st) with (run vs (visit q st r)) in Hin.
  destruct (IH _ Hrest _ _ Hin) as [H|(q' & t & Hq' & Ht & Hk)].
  - unfold visit in H. destruct (nth_error (snd st) r) as [t|] eqn:E; simpl in H.
    + apply str_set_In in H. destruct H as [H|H]; [|left; exact H].
      inversion H; subst. right. exists q, t. repeat split; [left; reflexivity | exact E].
    + left. exact H.
  - right. exists q', t. repeat split; [right; exact Hq' | | exact Hk].
    rewrite <- Ht. symmetry. apply visit_store_other.
    intros ->. apply Hnotin. apply (in_map snd) in Hq'. exact Hq'.
Qed.

Lemma rename_qualified q t : qualified (rename q t).
Proof.
  split; simpl; [apply includes_slash_in_quest|].
  apply Forall_forall. intros d Hd. apply in_map_iff in Hd.
  destruct Hd as (x & <- & _). apply includes_slash_qualify.
Qed.

Lemma run_keeps_qualified a : forall vs st,
  (forall t, nth_error (snd st) a = Some t -> qualified t) ->
  forall t, nth_error (snd (run vs st)) a = Some t -> qualified t.
Proof.
  induction vs as [|[q r] vs IH]; intros st H t Ht; [apply H; exact Ht|].
  change (run ((q, r) :: vs) st) with (run vs (visit q st r)) in Ht.
  apply (IH (visit q st r)); [|exact Ht].
  intros t1 Ht1. destruct (Nat.eq_dec r a) as [->|Hne].
  - rewrite visit_store_same in Ht1.
    destruct (nth_error (snd st) a); simpl in Ht1; [|discriminate].
    inversion Ht1. apply rename_qualified.
  - rewrite (visit_store_other q st r a Hne) in Ht1. apply H. exact Ht1.
Qed.

Lemma run_visited_qualified q a : forall vs st,
  In (q, a) vs ->
  forall t, nth_error (snd (run vs st)) a = Some t -> qualified t.
Proof.
  induction vs as [|[q0 r] vs IH]; intros st Hin t Ht; [contradiction|].
  change (run ((q0, r) :: vs) st) with (run vs (visit q0 st r)) in Ht.
  destruct Hin as [E|Hin]; [|apply (IH _ Hin _ Ht)].
  inversion E; subst. apply (run_keeps_qualified a vs (visit q st a)); [|exact Ht].
  intros t1 Ht1. rewrite visit_store_same in Ht1.
  destruct (nth_error (snd st) a); simpl in Ht1; [|discriminate].
  inversion Ht1. apply rename_qualified.
Qed.

Lemma run_keys_qualified : forall vs st,
  (forall k, In k (StrMap.keys (fst st)) -> includes_slash k = true) ->
  forall k, In k (StrMap.keys (fst (run vs st))) -> includes_slash k = true.
Proof.
  induction vs as [|[q r] vs IH]; intros st H k Hk; [apply H; exact Hk|].
  change (run ((q, r) :: vs) st) with (run vs (visit q st r)) in Hk.
  apply (IH (visit q st r)); [|exact Hk].
  intros k1 Hk1. unfold visit in Hk1.
  destruct (nth_error (snd st) r) as [t|]; simpl in Hk1; [|apply H; exact Hk1].
  apply str_keys_set in Hk1. destruct Hk1 as [->|Hk1];
    [apply includes_slash_in_quest | apply H; exact Hk1].
Qed.

Lemma run_length : forall vs st,
  List.length (snd (run vs st)) = List.length (snd st).
Proof.
  induction vs as [|[q r] vs IH]; intros st; [reflexivity|].
  change (run ((q, r) :: vs) st) with (run vs (visit q st r)).
  rewrite IH. unfold visit. destruct (nth_error (snd st) r); simpl;
    [apply write_length | reflexivity].
Qed.

Lemma rename_twice q t :
  rename q (rename q t)
  = mkTask (in_quest q (in_quest q (name t))) (map (qualify q) (after t)) (body t).
Proof.
  unfold rename. simpl. f_equal.
  rewrite map_map. apply map_ext. intros x.
  apply qualify_qualified. apply includes_slash_qualify.
Qed.

End LoopFacts.

End TaskFacts.

(** X15. When no task object is listed twice in the quests, [all_tasks]
    leaves in the store, for every task listed in a quest, that task with its
    name prefixed by the quest's name and each dependency prefixed by the
    quest's name unless it already contains a slash; the other fields of the
    task and every task listed in no quest are as before. *)
Theorem all_tasks_renames_each_task_once (Body : Type) (quests : list Tasks.Quest)
        (store : Tasks.Store Body)
        (Honce : NoDup (map snd (Tasks.visits quests))) :
  (forall quest a t,
      In quest quests -> In a (Tasks.tasks quest) -> nth_error store a = Some t ->
      nth_error (snd (Tasks.all_tasks quests store)) a
      = Some (Tasks.mkTask
                (String.append (Tasks.quest_name quest) (String.append "/" (Tasks.name t)))
                (map (fun d => if Tasks.includes_slash d then d
                               else String.append (Tasks.quest_name quest)
                                                  (String.append "/" d))
                     (Tasks.after t))
                (Tasks.body t)))
  /\ (forall a,
        (forall quest, In quest quests -> ~ In a (Tasks.tasks quest)) ->
        nth_error (snd (Tasks.all_tasks quests store)) a = nth_error store a)
  /\ List.length (snd (Tasks.all_tasks quests store)) = List.length store.
Proof.
  rewrite TaskFacts.all_tasks_run. split; [|split].
  - intros quest a t Hq Ha Ht.
    rewrite (TaskFacts.run_store _ _ _ Honce).
    rewrite (TaskFacts.visited_in_Some (Tasks.quest_name quest) a _ Honce).
    + simpl. rewrite Ht. reflexivity.
    + unfold Tasks.visits. apply in_flat_map. exists quest. split; [exact Hq|].
      apply in_map_iff. exists a. split; [reflexivity | exact Ha].
  - intros a Ha. rewrite (TaskFacts.run_store _ _ _ Honce).
    rewrite TaskFacts.visited_in_None; [reflexivity|].
    intros Hin. apply in_map_iff in Hin. destruct Hin as ([q r] & Hr & Hin).
    simpl in Hr. subst r. unfold Tasks.visits in Hin. apply in_flat_map in Hin.
    destruct Hin as (quest & Hq & Hin). apply in_map_iff in Hin.
    destruct Hin as (r & E & Hr). inversion E; subst. apply (Ha quest Hq Hr).
  - apply TaskFacts.run_length.
Qed.

Lemma all_tasks_renames_each_task_once_witness :
  nth_error (snd (Tasks.all_tasks Tasks.sample_quests Tasks.sample_store)) 1
  = Some (Tasks.mkTask "Bat/Get Sonar" ["Bat/Start"; "Knob/Open Knob"] tt).
Proof.
  assert (Honce : NoDup (map snd (Tasks.visits Tasks.sample_quests))).
  { simpl. constructor; [simpl; intros [H|[]]; discriminate H|].
    constructor; [intros [] | constructor]. }
  destruct (all_tasks_renames_each_task_once unit Tasks.sample_quests Tasks.sample_store Honce)
    as [H _].
  apply (H (Tasks.mkQuest "Bat" [0%nat; 1%nat]) 1%nat
           (Tasks.mkTask "Get Sonar" ["Start"; "Knob/Open Knob"] tt)).
  - left. reflexivity.
  - simpl. right. left. reflexivity.
  - reflexivity.
Defined.

(** X16. When no task object is listed twice, every entry of the table
    [all_tasks] returns leads to a task whose name is the entry's key. *)
Theorem all_tasks_keys_are_task_names (Body : Type) (quests : list Tasks.Quest)
        (store : Tasks.Store Body) (k : string) (a : Tasks.Ref)
        (Honce : NoDup (map snd (Tasks.visits quests)))
        (Hk : StrMap.get k (fst (Tasks.all_tasks quests store)) = Some a) :
  exists t, nth_error (snd (Tasks.all_tasks quests store)) a = Some t
            /\ Tasks.name t = k.
Proof.
  rewrite TaskFacts.all_tasks_run in *.
  apply TaskFacts.str_get_In in Hk.
  destruct (TaskFacts.run_table _ _ _ Honce _ _ Hk) as [[]|(q & t & Hin & Ht & ->)].
  rewrite (TaskFacts.run_store _ _ _ Honce).
  rewrite (TaskFacts.visited_in_Some q a _ Honce Hin).
  simpl in Ht |- *. rewrite Ht. simpl. eexists. split; reflexivity.
Qed.

Lemma all_tasks_keys_are_task_names_witness :
  exists t,
    nth_error (snd (Tasks.all_tasks Tasks.sample_quests Tasks.sample_store)) 0 = Some t
    /\ Tasks.name t = "Bat/Start".
Proof.
  apply (all_tasks_keys_are_task_names unit Tasks.sample_quests Tasks.sample_store
           "Bat/Start" 0%nat).
  - simpl. constructor; [simpl; intros [H|[]]; discriminate H|].
    constructor; [intros [] | constructor].
  - reflexivity.
Defined.

(** X17. After [all_tasks], every task listed in a quest has a slash in its
    name and in each of its dependencies, and every key of the returned table
    contains a slash; this needs no assumption on how the quests share
    tasks. *)
Theorem all_tasks_qualifies_everything (Body : Type) (quests : list Tasks.Quest)
        (store : Tasks.Store Body) :
  (forall quest a t,
      In quest quests -> In a (Tasks.tasks quest) ->
      nth_error (snd (Tasks.all_tasks quests store)) a = Some t ->
      Tasks.includes_slash (Tasks.name t) = true
      /\ Forall (fun d => Tasks.includes_slash d = true) (Tasks.after t))
  /\ (forall k, In k (StrMap.keys (fst (Tasks.all_tasks quests store))) ->
                Tasks.includes_slash k = true).
Proof.
  rewrite TaskFacts.all_tasks_run. split.
  - intros quest a t Hq Ha Ht.
    apply (TaskFacts.run_visited_qualified Body (Tasks.quest_name quest) a
             (Tasks.visits quests) (StrMap.empty, store)); [|exact Ht].
    unfold Tasks.visits. apply in_flat_map. exists quest. split; [exact Hq|].
    apply in_map_iff. exists a. split; [reflexivity | exact Ha].
  - apply TaskFacts.run_keys_qualified. intros k [].
Qed.

Lemma all_tasks_qualifies_everything_witness :
  Tasks.includes_slash "Bat/Get Sonar" = true
  /\ Forall (fun d => Tasks.includes_slash d = true) ["Bat/Start"; "Knob/Open Knob"].
Proof.
  destruct (all_tasks_qualifies_everything unit Tasks.sample_quests Tasks.sample_store)
    as [H _].
  apply (H (Tasks.mkQuest "Bat" [0%nat; 1%nat]) 1%nat
           (Tasks.mkTask "Bat/Get Sonar" ["Bat/Start"; "Knob/Open Knob"] tt)).
  - left. reflexivity.
  - simpl. right. left. reflexivity.
  - reflexivity.
Defined.

(** X18. [all_tasks] is not idempotent.  Calling it a second time on the
    tasks it has already renamed prefixes every listed task's name with the
    quest's name once more, so the name changes again, while the
    dependencies stay as the first call left them. *)
Theorem all_tasks_twice_prefixes_names_twice (Body : Type) (quests : list Tasks.Quest)
        (store : Tasks.Store Body) (quest : Tasks.Quest) (a : Tasks.Ref)
        (t : Tasks.Task Body)
        (Honce : NoDup (map snd (Tasks.visits quests)))
        (Hq : In quest quests) (Ha : In a (Tasks.tasks quest))
        (Ht : nth_error store a = Some t) :
  let once := snd (Tasks.all_tasks quests store) in
  let twice := snd (Tasks.all_tasks quests once) in
  exists t1 t2,
    nth_error once a = Some t1
    /\ nth_error twice a = Some t2
    /\ Tasks.name t2
       = String.append (Tasks.quest_name quest) (String.append "/" (Tasks.name t1))
    /\ Tasks.name t2 <> Tasks.name t1
    /\ Tasks.after t2 = Tasks.after t1.
Proof.
  intros once twice. subst once twice.
  assert (Hin : In (Tasks.quest_name quest, a) (Tasks.visits quests)).
  { unfold Tasks.visits. apply in_flat_map. exists quest. split; [exact Hq|].
    apply in_map_iff. exists a. split; [reflexivity | exact Ha]. }
  assert (H1 : nth_error (snd (Tasks.all_tasks quests store)) a
               = Some (Tasks.rename (Tasks.quest_name quest) t)).
  { rewrite TaskFacts.all_tasks_run, (TaskFacts.run_store _ _ _ Honce),
      (TaskFacts.visited_in_Some _ a _ Honce Hin).
    simpl. rewrite Ht. reflexivity. }
  assert (H2 : nth_error (snd (Tasks.all_tasks quests
                                 (snd (Tasks.all_tasks quests store)))) a
               = Some (Tasks.rename (Tasks.quest_name quest)
                         (Tasks.rename (Tasks.quest_name quest) t))).
  { rewrite (TaskFacts.all_tasks_run Body quests (snd (Tasks.all_tasks quests store))),
      (TaskFacts.run_store _ _ _ Honce), (TaskFacts.visited_in_Some _ a _ Honce Hin).
    cbn [snd]. rewrite H1. reflexivity. }
  eexists. eexists. split; [exact H1|]. split; [exact H2|].
  rewrite TaskFacts.rename_twice. simpl. split; [reflexivity|]. split.
  - apply TaskFacts.in_quest_longer.
  - reflexivity.
Qed.

Lemma all_tasks_twice_prefixes_names_twice_witness :
  exists t1 t2,
    nth_error (snd (Tasks.all_tasks Tasks.sample_quests Tasks.sample_store)) 0 = Some t1
    /\ nth_error
         (snd (Tasks.all_tasks Tasks.sample_quests
                 (snd (Tasks.all_tasks Tasks.sample_quests Tasks.sample_store)))) 0
       = Some t2
    /\ Tasks.name t2 = String.append "Bat" (String.append "/" (Tasks.name t1))
    /\ Tasks.name t2 <> Tasks.name t1
    /\ Tasks.after t2 = Tasks.after t1.
Proof.
  apply (all_tasks_twice_prefixes_names_twice unit Tasks.sample_quests Tasks.sample_store
           (Tasks.mkQuest "Bat" [0%nat; 1%nat]) 0%nat (Tasks.mkTask "Start" [] tt)).
  - simpl. constructor; [simpl; intros [H|[]]; discriminate H|].
    constructor; [intros [] | constructor].
  - left. reflexivity.
  - simpl. left. reflexivity.
  - reflexivity.
Defined.

(* ================================================================== *)
(** ** Properties of the command line parser *)

Module StringFacts.

Lemma get_length (s : string) : forall i,
  (String.length s <= i)%nat -> String.get i s = None.
Proof.
  induction s as [|c s IH]; intros i H; simpl in *; [reflexivity|].
  destruct i; [lia | apply IH; lia].
Qed.

Lemma get_in_range (s : string) : forall i,
  (i < String.length s)%nat -> exists c, String.get i s = Some c.
Proof.
  induction s as [|c s IH]; intros i H; simpl in *; [lia|].
  destruct i; [exists c; reflexivity | apply IH; lia].
Qed.

Lemma length_append (a b : string) :
  String.length (String.append a b) = (String.length a + String.length b)%nat.
Proof. induction a as [|c a IH]; simpl; [reflexivity | rewrite IH; reflexivity]. Qed.

Lemma get_append_left (p c : string) : forall i,
  (i < String.length p)%nat -> String.get i (String.append p c) = String.get i p.
Proof.
  induction p as [|d p IH]; intros i H; simpl in *; [lia|].
  destruct i; [reflexivity | apply IH; lia].
Qed.

Lemma get_append_right (p c : string) (i : nat) :
  String.get (String.length p + i) (String.append p c) = String.get i c.
Proof. induction p as [|d p IH]; simpl; [reflexivity | exact IH]. Qed.

Lemma stdlib_substring_shift (p c : string) (i m : nat) :
  String.substring (String.length p + i) m (String.append p c) = String.substring i m c.
Proof. induction p as [|d p IH]; simpl; [reflexivity | exact IH]. Qed.

Lemma stdlib_substring_prefix (k r : string) :
  String.substring 0 (String.length k) (String.append k r) = k.
Proof.
  induction k as [|d k IH]; simpl.
  - destruct r; reflexivity.
  - rewrite IH. reflexivity.
Qed.

Lemma substring_shift (p c : string) (i j : nat) :
  Args.substring (String.length p + i) (String.length p + j) (String.append p c)
  = Args.substring i j c.
Proof.
  unfold Args.substring.
  replace (String.length p + j <? String.length p + i)%nat with (j <? i)%nat.
  - destruct (j <? i)%nat.
    + replace (String.length p + i - (String.length p + j))%nat with (i - j)%nat by lia.
      apply stdlib_substring_shift.
    + replace (String.length p + j - (String.length p + i))%nat with (j - i)%nat by lia.
      apply stdlib_substring_shift.
  - destruct (j <? i)%nat eqn:E; symmetry.
    + apply Nat.ltb_lt. apply Nat.ltb_lt in E. lia.
    + apply Nat.ltb_ge. apply Nat.ltb_ge in E. lia.
Qed.

Lemma substring_prefix (k r : string) :
  Args.substring 0 (String.length k) (String.append k r) = k.
Proof.
  unfold Args.substring. simpl. rewrite Nat.sub_0_r. apply stdlib_substring_prefix.
Qed.

(** What [indexOf] finds: the first position from [from] on that holds the
    character. *)
Lemma indexOf_Some (c : ascii) (s : string) : forall from n,
  Args.indexOf c from s = Some n ->
  (from <= n < String.length s)%nat
  /\ String.get n s = Some c
  /\ forall j, (from <= j < n)%nat -> String.get j s <> Some c.
Proof.
  induction s as [|d s IH]; intros from n H; simpl in H; [discriminate|].
  destruct from as [|from].
  - destruct (Ascii.eqb d c) eqn:E.
    + inversion H; subst. apply Ascii.eqb_eq in E. subst d. simpl.
      split; [lia|]. split; [reflexivity|]. intros j Hj. lia.
    + destruct (Args.indexOf c 0 s) as [m|] eqn:Em; simpl in H; [|discriminate].
      inversion H; subst. destruct (IH 0%nat m Em) as (Hr & Hg & Hn).
      simpl. split; [lia|]. split; [exact Hg|].
      intros j Hj. destruct j; simpl.
      * apply Ascii.eqb_neq in E. congruence.
      * apply Hn. lia.
  - destruct (Args.indexOf c from s) as [m|] eqn:Em; simpl in H; [|discriminate].
    inversion H; subst. destruct (IH from m Em) as (Hr & Hg & Hn).
    simpl. split; [lia|]. split; [exact Hg|].
    intros j Hj. destruct j; [lia|]. simpl. apply Hn. lia.
Qed.

Lemma indexOf_None (c : ascii) (s : string) : forall from,
  Args.indexOf c from s = None ->
  forall j, (from <= j)%nat -> String.get j s <> Some c.
Proof.
  induction s as [|d s IH]; intros from H j Hj; simpl in *; [discriminate|].
  destruct from as [|from].
  - destruct (Ascii.eqb d c) eqn:E; [discriminate|].
    destruct (Args.indexOf c 0 s) eqn:Em; simpl in H; [discriminate|].
    destruct j.
    + apply Ascii.eqb_neq in E. congruence.
    + apply (IH 0%nat Em). lia.
  - destruct (Args.indexOf c from s) eqn:Em; simpl in H; [discriminate|].
    destruct j; [lia|]. apply (IH from Em). lia.
Qed.

End StringFacts.

Module ParserFacts.
Import Args.

Lemma first_of_unique chars s index n m :
  first_of chars s index n -> first_of chars s index m -> n = m.
Proof.
  intros (Hn & Hbefore_n & Hat_n) (Hm & Hbefore_m & Hat_m).
  destruct (Nat.lt_trichotomy n m) as [L|[E|L]]; [|exact E|]; exfalso.
  - destruct Hat_n as (c & Hc & Hg); [lia|].
    apply (Hbefore_m n c); [lia | exact Hc | exact Hg].
  - destruct Hat_m as (c & Hc & Hg); [lia|].
    apply (Hbefore_n m c); [lia | exact Hc | exact Hg].
Qed.

Lemma findNext_loop command index : forall searchValue seen result,
  first_of seen command index result ->
  first_of (seen ++ searchValue) command index
    (fold_left
       (fun result value =>
          match indexOf value index command with
          | Some i => if (i <? result)%nat then i else result
          | None => result
          end)
       searchValue result).
Proof.
  induction searchValue as [|v vs IH]; intros seen result H; simpl.
  - rewrite app_nil_r. exact H.
  - replace (seen ++ v :: vs) with ((seen ++ [v]) ++ vs)
      by (rewrite <- app_assoc; reflexivity).
    apply IH. destruct H as (Hr & Hbefore & Hat).
    destruct (indexOf v index command) as [i|] eqn:Ei.
    + destruct (StringFacts.indexOf_Some _ _ _ _ Ei) as (Hi & Hg & Hn).
      destruct (i <? result)%nat eqn:L.
      * apply Nat.ltb_lt in L. split; [lia|]. split.
        -- intros j c Hj Hc. apply in_app_iff in Hc. destruct Hc as [Hc|[<-|[]]].
           ++ apply Hbefore; [lia | exact Hc].
           ++ apply Hn. lia.
        -- intros _. exists v. split; [apply in_app_iff; right; left; reflexivity|].
           exact Hg.
      * apply Nat.ltb_ge in L. split; [lia|]. split.
        -- intros j c Hj Hc. apply in_app_iff in Hc. destruct Hc as [Hc|[<-|[]]].
           ++ apply Hbefore; [lia | exact Hc].
           ++ apply Hn. lia.
        -- intros Hlt. destruct (Hat Hlt) as (c & Hc & Hgc).
           exists c. split; [apply in_app_iff; left; exact Hc | exact Hgc].
    + split; [lia|]. split.
      * intros j c Hj Hc. apply in_app_iff in Hc. destruct Hc as [Hc|[<-|[]]].
        -- apply Hbefore; [lia | exact Hc].
        -- apply (StringFacts.indexOf_None _ _ _ Ei). lia.
      * intros Hlt. destruct (Hat Hlt) as (c & Hc & Hgc).
        exists c. split; [apply in_app_iff; left; exact Hc | exact Hgc].
Qed.

(** [findNext] returns the first position from [index] on that holds one of
    the characters searched for, or the length of the command. *)
Lemma findNext_first command searchValue index :
  (index <= String.length command)%nat ->
  first_of searchValue command index (findNext command searchValue index).
Proof.
  intros H. unfold findNext.
  apply (findNext_loop command index searchValue [] (String.length command)).
  split; [lia|]. split; [intros j c _ []|lia].
Qed.

Section Methods.
Variable command : string.
Variables keys flags : list string.

Lemma consume_eq allowed index :
  consume command allowed index
  = if finished command index then Throw (String.append "Expected " (join allowed))
    else if includes (peek command index) allowed then Ok (tt, (index + 1)%nat)
         else Ok (tt, index).
Proof.
  unfold consume, bind, get_index, throw, set_index, ret.
  destruct (finished command index); [reflexivity|].
  destruct (includes (peek command index) allowed); reflexivity.
Qed.

Lemma parseKey_eq index :
  parseKey command keys flags index
  = let keyEnd := findNext command ["="%char; " "%char] index in
    let key := substring index keyEnd command in
    if negb (has key keys) && negb (has key flags)
    then Throw (String.append "Unknown key: " key)
    else Ok (key, keyEnd).
Proof.
  unfold parseKey, bind, get_index, throw, set_index, ret. cbv zeta.
  destruct (negb _ && negb _); reflexivity.
Qed.

Lemma finished_false index :
  finished command index = false <-> (index < String.length command)%nat.
Proof. unfold finished. apply Nat.leb_gt. Qed.

Lemma finished_true index :
  finished command index = true <-> (String.length command <= index)%nat.
Proof. unfold finished. apply Nat.leb_le. Qed.

Lemma peek_get index :
  (index < String.length command)%nat -> peek command index = String.get index command.
Proof.
  intros H. unfold peek.
  destruct (String.length command <=? index)%nat eqn:E; [|reflexivity].
  apply Nat.leb_le in E. lia.
Qed.

(** [consume] never moves the marker backwards or past the end. *)
Lemma consume_range allowed index index' :
  consume command allowed index = Ok (tt, index') ->
  (index < String.length command)%nat
  /\ (index <= index' <= String.length command)%nat.
Proof.
  rewrite consume_eq. destruct (finished command index) eqn:F; [discriminate|].
  apply finished_false in F.
  destruct (includes _ _); intros H; inversion H; subst; lia.
Qed.

(** On a character it expects, [consume] steps over it. *)
Lemma consume_expected allowed index c :
  String.get index command = Some c -> In c allowed ->
  consume command allowed index = Ok (tt, (index + 1)%nat).
Proof.
  intros Hg Hc. rewrite consume_eq.
  assert (Hlt : (index < String.length command)%nat).
  { destruct (Nat.lt_ge_cases index (String.length command)) as [L|G]; [exact L|].
    rewrite (StringFacts.get_length _ _ G) in Hg. discriminate. }
  destruct (finished command index) eqn:F; [apply finished_true in F; lia|].
  rewrite (peek_get _ Hlt), Hg. simpl.
  replace (existsb (Ascii.eqb c) allowed) with true; [reflexivity|].
  symmetry. apply existsb_exists. exists c. split; [exact Hc | apply Ascii.eqb_refl].
Qed.

Lemma parseKey_range index key index' :
  (index <= String.length command)%nat ->
  parseKey command keys flags index = Ok (key, index') ->
  first_of ["="%char; " "%char] command index index'
  /\ key = substring index index' command
  /\ (has key keys = true \/ has key flags = true).
Proof.
  intros Hi. rewrite parseKey_eq. cbv zeta.
  destruct (negb _ && negb _) eqn:E; [discriminate|].
  intros H. inversion H; subst. split; [apply findNext_first; exact Hi|].
  split; [reflexivity|].
  apply andb_false_iff in E. destruct E as [E|E]; apply negb_false_iff in E; auto.
Qed.

Lemma read_value_eq ender index :
  read_value command ender index
  = let valueEnd := findNext command [ender] index in
    let value := substring index valueEnd command in
    if negb (Ascii.eqb ender " ") && (valueEnd =? String.length command)%nat
    then Throw (String.append "No closing "
                  (String.append (String ender EmptyString)
                     (String.append " found for "
                        (String.append (String ender EmptyString) value))))
    else if negb (Ascii.eqb ender " ")
         then match consume command [ender] valueEnd with
              | Ok (_, index') => Ok (value, index')
              | Throw exn => Throw exn
              end
         else Ok (value, valueEnd).
Proof.
  unfold read_value, bind, get_index, set_index, ret, throw. cbv zeta.
  destruct (negb (Ascii.eqb ender " ") && _); [reflexivity|].
  destruct (negb (Ascii.eqb ender " ")); reflexivity.
Qed.

Lemma parseValue_eq index :
  parseValue command index
  = match opening_quote command index with
    | Some q =>
        match consume command [q] index with
        | Ok (_, index') => read_value command q index'
        | Throw exn => Throw exn
        end
    | None => read_value command " " index
    end.
Proof.
  unfold parseValue, bind, get_index, ret. cbv zeta.
  destruct (opening_quote command index) as [q|]; [|reflexivity].
  destruct (consume command [q] index) as [[[] i1]|]; reflexivity.
Qed.

Lemma read_value_range ender index value index' :
  (index <= String.length command)%nat ->
  read_value command ender index = Ok (value, index') ->
  (index <= index' <= String.length command)%nat.
Proof.
  intros Hi. rewrite read_value_eq. cbv zeta.
  pose proof (findNext_first command [ender] index Hi) as (Hr & _ & _).
  destruct (negb (Ascii.eqb ender " ") && _); [discriminate|].
  destruct (negb (Ascii.eqb ender " ")).
  - destruct (consume command [ender] _) as [[[] i2]|] eqn:C; [|discriminate].
    apply consume_range in C. intros H. inversion H; subst. lia.
  - intros H. inversion H; subst. lia.
Qed.

Lemma parseValue_range index value index' :
  (index <= String.length command)%nat ->
  parseValue command index = Ok (value, index') ->
  (index <= index' <= String.length command)%nat.
Proof.
  intros Hi. rewrite parseValue_eq.
  destruct (opening_quote command index) as [q|].
  - destruct (consume command [q] index) as [[[] i1]|] eqn:C; [|discriminate].
    apply consume_range in C. intros H.
    apply read_value_range in H; lia.
  - intros H. apply read_value_range in H; lia.
Qed.

Lemma peek_is_get c index :
  peek_is command c index = true -> String.get index command = Some c.
Proof.
  unfold peek_is, peek.
  destruct (String.length command <=? index)%nat; [discriminate|].
  destruct (String.get index command) as [d|]; [|discriminate].
  intros H. apply Ascii.eqb_eq in H. congruence.
Qed.

Lemma peek_is_false c index :
  peek_is command c index = false -> String.get index command <> Some c.
Proof.
  unfold peek_is, peek. intros H Hg.
  destruct (String.length command <=? index)%nat eqn:E.
  - apply Nat.leb_le in E. rewrite (StringFacts.get_length _ _ E) in Hg. discriminate.
  - rewrite Hg in H. rewrite Ascii.eqb_refl in H. discriminate.
Qed.

(** One turn of the loop with the marker written out. *)
Lemma parse_pair_eq result index :
  parse_pair command keys flags result index
  = match (if peek_is command "!" index
           then match consume command ["!"%char] index with
                | Ok (_, i) => Ok (true, i)
                | Throw exn => Throw exn
                end
           else Ok (false, index)) with
    | Throw exn => Throw exn
    | Ok (neg, i1) =>
        match parseKey command keys flags i1 with
        | Throw exn => Throw exn
        | Ok (key, i2) =>
            if StrMap.has key result then Throw (String.append "Duplicate key: " key)
            else if has key flags then
              if peek_is command "=" i2
              then Throw (String.append "Flag "
                            (String.append key " cannot be assigned a value"))
              else
                match (if negb (finished command i2) then consume command [" "%char] i2
                       else Ok (tt, i2)) with
                | Ok (_, i3) =>
                    Ok (StrMap.set key (if neg : bool then "false" else "true") result,
                        i3)
                | Throw exn => Throw exn
                end
            else
              match consume command ["="%char; " "%char] i2 with
              | Throw exn => Throw exn
              | Ok (_, i3) =>
                  match parseValue command i3 with
                  | Throw exn => Throw exn
                  | Ok (value, i4) =>
                      match (if negb (finished command i4)
                             then consume command [" "%char] i4
                             else Ok (tt, i4)) with
                      | Ok (_, i5) => Ok (StrMap.set key value result, i5)
                      | Throw exn => Throw exn
                      end
                  end
              end
        end
    end.
Proof.
  unfold parse_pair, bind, get_index, ret, throw.
  destruct (peek_is command "!" index).
  - destruct (consume command ["!"%char] index) as [[[] i1]|]; [|reflexivity].
    destruct (parseKey command keys flags i1) as [[key i2]|]; [|reflexivity].
    destruct (StrMap.has key result); [reflexivity|].
    destruct (has key flags).
    + destruct (peek_is command "=" i2); [reflexivity|].
      destruct (finished command i2); reflexivity.
    + destruct (consume command ["="%char; " "%char] i2) as [[[] i3]|]; [|reflexivity].
      destruct (parseValue command i3) as [[value i4]|]; [|reflexivity].
      destruct (finished command i4); reflexivity.
  - destruct (parseKey command keys flags index) as [[key i2]|]; [|reflexivity].
    destruct (StrMap.has key result); [reflexivity|].
    destruct (has key flags).
    + destruct (peek_is command "=" i2); [reflexivity|].
      destruct (finished command i2); reflexivity.
    + destruct (consume command ["="%char; " "%char] i2) as [[[] i3]|]; [|reflexivity].
      destruct (parseValue command i3) as [[value i4]|]; [|reflexivity].
      destruct (finished command i4); reflexivity.
Qed.

(** What one successful turn of the loop does: it moves the marker forward
    and adds one key that was not there, a flag with a boolean word or a
    known key with its value. *)
Lemma parse_pair_spec result index result' index' :
  (index < String.length command)%nat ->
  parse_pair command keys flags result index = Ok (result', index') ->
  (index < index' <= String.length command)%nat
  /\ exists key value,
       result' = StrMap.set key value result
       /\ StrMap.has key result = false
       /\ ((has key flags = true /\ (value = "true" \/ value = "false"))
           \/ (has key flags = false /\ has key keys = true)).
Proof.
  intros Hi. unfold parse_pair, bind, get_index, ret, throw.
  match goal with
  | |- match ?start with _ => _ end = _ -> _ =>
      assert (Hneg : exists neg index1,
                 start = Ok (neg, index1)
                 /\ (index <= index1 <= String.length command)%nat)
  end.
  { destruct (peek_is command "!" index) eqn:B.
    - rewrite (consume_expected ["!"%char] index "!"%char (peek_is_get _ _ B))
        by (left; reflexivity).
      exists true, (index + 1)%nat. split; [reflexivity | lia].
    - exists false, index. split; [reflexivity | lia]. }
  destruct Hneg as (neg & index1 & -> & Hi1).
  destruct (parseKey command keys flags index1) as [[key keyEnd]|] eqn:K; [|discriminate].
  apply parseKey_range in K; [|lia].
  destruct K as ((Hk & _ & Hat) & _ & Hknown).
  destruct (StrMap.has key result) eqn:Hhas; [discriminate|].
  destruct (has key flags) eqn:F.
  - destruct (peek_is command "=" keyEnd) eqn:Peq; [discriminate|].
    apply peek_is_false in Peq.
    destruct (finished command keyEnd) eqn:Fin; cbn [negb].
    + apply finished_true in Fin. intros H. inversion H; subst.
      split; [lia|]. exists key, (if neg then "false" else "true").
      split; [reflexivity|]. split; [exact Hhas|].
      left. split; [exact F|]. destruct neg; auto.
    + apply finished_false in Fin. destruct (Hat Fin) as (c & Hc & Hg).
      assert (c = " "%char) as ->.
      { destruct Hc as [<-|[<-|[]]]; [contradiction | reflexivity]. }
      rewrite (consume_expected [" "%char] keyEnd " "%char Hg) by (left; reflexivity).
      intros H. inversion H; subst.
      split; [lia|]. exists key, (if neg then "false" else "true").
      split; [reflexivity|]. split; [exact Hhas|].
      left. split; [exact F|]. destruct neg; auto.
  - destruct (consume command ["="%char; " "%char] keyEnd) as [[[] i2]|] eqn:C;
      [|discriminate].
    destruct (consume_range _ _ _ C) as [Hlt _].
    assert (i2 = (keyEnd + 1)%nat) as ->.
    { destruct (Hat Hlt) as (c & Hc & Hg).
      rewrite (consume_expected _ keyEnd c Hg Hc) in C. inversion C. reflexivity. }
    destruct (parseValue command (keyEnd + 1)) as [[value i3]|] eqn:V; [|discriminate].
    apply parseValue_range in V; [|lia].
    match goal with
    | |- match ?last with _ => _ end = _ -> _ =>
        assert (Hlast : (exists i4, last = Ok (tt, i4)
                                    /\ (i3 <= i4 <= String.length command)%nat)
                        \/ exists exn, last = Throw exn)
    end.
    { destruct (finished command i3) eqn:Fin; cbn [negb].
      - left. exists i3. split; [reflexivity | lia].
      - destruct (consume command [" "%char] i3) as [[[] i4]|exn] eqn:C3.
        + left. exists i4. split; [reflexivity|]. apply consume_range in C3. lia.
        + right. exists exn. reflexivity. }
    destruct Hlast as [(i4 & -> & Hi4)|[exn ->]]; [|discriminate].
    intros H. inversion H; subst. split; [lia|].
    exists key, value. split; [reflexivity|]. split; [exact Hhas|].
    right. split; [exact F|].
    destruct Hknown as [Hk'|Hk']; [exact Hk' | congruence].
Qed.

Lemma parse_loop_finishes : forall fuel result index,
  (index <= String.length command)%nat ->
  (String.length command - index < fuel)%nat ->
  exists outcome, parse_loop command keys flags fuel result index = Some outcome.
Proof.
  induction fuel as [|fuel IH]; intros result index Hi Hfuel; [lia|].
  simpl. destruct (finished command index) eqn:Fin; [eexists; reflexivity|].
  apply finished_false in Fin.
  destruct (parse_pair command keys flags result index) as [[result' index']|exn] eqn:P;
    [|eexists; reflexivity].
  apply (parse_pair_spec _ _ _ _ Fin) in P. destruct P as [Hprog _].
  apply IH; lia.
Qed.

Lemma parse_loop_more_fuel : forall fuel result index outcome,
  parse_loop command keys flags fuel result index = Some outcome ->
  forall fuel', (fuel <= fuel')%nat ->
  parse_loop command keys flags fuel' result index = Some outcome.
Proof.
  induction fuel as [|fuel IH]; intros result index outcome H fuel' Hle; [discriminate|].
  destruct fuel' as [|fuel']; [lia|]. simpl in *.
  destruct (finished command index); [exact H|].
  destruct (parse_pair command keys flags result index) as [[result' index']|exn];
    [|exact H].
  apply (IH _ _ _ H). lia.
Qed.

Lemma set_well_parsed result key value :
  well_parsed keys flags result ->
  StrMap.has key result = false ->
  ((has key flags = true /\ (value = "true" \/ value = "false"))
   \/ (has key flags = false /\ has key keys = true)) ->
  well_parsed keys flags (StrMap.set key value result).
Proof.
  intros [Hnd Hall] Hnew Hkey. split.
  - apply TaskFacts.str_set_NoDup. exact Hnd.
  - intros k v Hin. apply TaskFacts.str_set_In in Hin.
    destruct Hin as [E|Hin]; [inversion E; subst; exact Hkey | apply Hall; exact Hin].
Qed.

Lemma parse_loop_well_parsed : forall fuel result index result',
  (index <= String.length command)%nat ->
  well_parsed keys flags result ->
  parse_loop command keys flags fuel result index = Some (Ok result') ->
  well_parsed keys flags result'.
Proof.
  induction fuel as [|fuel IH]; intros result index result' Hi Hwp H; [discriminate|].
  simpl in H. destruct (finished command index) eqn:Fin.
  - inversion H; subst. exact Hwp.
  - apply finished_false in Fin.
    destruct (parse_pair command keys flags result index) as [[result1 index1]|exn] eqn:P;
      [|discriminate].
    apply (parse_pair_spec _ _ _ _ Fin) in P.
    destruct P as (Hprog & key & value & -> & Hnew & Hkey).
    apply (IH _ _ _ (proj2 Hprog) (set_well_parsed _ _ _ Hwp Hnew Hkey) H).
Qed.

End Methods.

End ParserFacts.

(** X19. [parse] always comes to an end: on every command, with any sets of
    keys and flags, the loop returns a table or throws within one turn per
    character, and more turns allowed change nothing. *)
Theorem parse_always_finishes (command : string) (keys flags : list string) :
  exists outcome,
    Args.parse command keys flags = Some outcome
    /\ forall fuel, (String.length command < fuel)%nat ->
                    Args.parse_within command keys flags fuel = Some outcome.
Proof.
  unfold Args.parse, Args.parse_within.
  destruct (ParserFacts.parse_loop_finishes command keys flags
              (S (String.length command)) StrMap.empty 0) as [outcome H]; [lia | lia |].
  exists outcome. split; [exact H|].
  intros fuel Hfuel. apply (ParserFacts.parse_loop_more_fuel _ _ _ _ _ _ _ H). lia.
Qed.

Lemma parse_always_finishes_witness :
  exists outcome,
    Args.parse "turns=10 !verbose" ["turns"] ["verbose"] = Some outcome
    /\ Args.parse_within "turns=10 !verbose" ["turns"] ["verbose"] 100 = Some outcome.
Proof.
  destruct (parse_always_finishes "turns=10 !verbose" ["turns"] ["verbose"])
    as (outcome & H1 & H2).
  exists outcome. split; [exact H1|]. apply H2. simpl. lia.
Defined.

(** X20. A table [parse] returns holds no key twice; each of its keys is
    either one of the flags, with the word true or false as value, or one of
    the keys that is not a flag. *)
Theorem parsed_table_is_well_formed (command : string) (keys flags : list string)
        (result : StrMap.t string)
        (Hparse : Args.parse command keys flags = Some (Args.Ok result)) :
  NoDup (StrMap.keys result)
  /\ forall k v, In (k, v) result ->
       (Args.has k flags = true /\ (v = "true" \/ v = "false"))
       \/ (Args.has k flags = false /\ Args.has k keys = true).
Proof.
  apply (ParserFacts.parse_loop_well_parsed command keys flags
           (S (String.length command)) StrMap.empty 0 result).
  - lia.
  - split; [constructor | intros k v []].
  - exact Hparse.
Qed.

Lemma parsed_table_is_well_formed_witness :
  NoDup (StrMap.keys [("turns", "10"); ("verbose", "false")])
  /\ forall k v, In (k, v) [("turns", "10"); ("verbose", "false")] ->
       (Args.has k ["verbose"] = true /\ (v = "true" \/ v = "false"))
       \/ (Args.has k ["verbose"] = false /\ Args.has k ["turns"] = true).
Proof.
  apply (parsed_table_is_well_formed "turns=10 !verbose" ["turns"] ["verbose"]).
  reflexivity.
Defined.

(* ================================================================== *)
(** ** The parser sees only what lies to the right of its marker *)

Module ShiftFacts.
Import Args.

Section Shift.
Variables p c : string.
Variables keys flags : list string.

Let n : nat := String.length p.
Let pc : string := String.append p c.

Lemma finished_shift i : finished pc (n + i) = finished c i.
Proof.
  unfold finished, pc, n. rewrite StringFacts.length_append.
  destruct (String.length c <=? i)%nat eqn:E.
  - apply Nat.leb_le. apply Nat.leb_le in E. lia.
  - apply Nat.leb_gt. apply Nat.leb_gt in E. lia.
Qed.

Lemma peek_shift i : peek pc (n + i) = peek c i.
Proof.
  unfold peek. fold (finished pc (n + i)). fold (finished c i).
  rewrite finished_shift. unfold pc, n. rewrite StringFacts.get_append_right.
  reflexivity.
Qed.

Lemma peek_is_shift ch i : peek_is pc ch (n + i) = peek_is c ch i.
Proof. unfold peek_is. rewrite peek_shift. reflexivity. Qed.

Lemma opening_quote_shift i : opening_quote pc (n + i) = opening_quote c i.
Proof. unfold opening_quote. rewrite peek_shift. reflexivity. Qed.

Lemma indexOf_shift ch i :
  indexOf ch (n + i) pc = option_map (Nat.add n) (indexOf ch i c).
Proof.
  unfold pc, n. induction p as [|d p' IH]; simpl.
  - destruct (indexOf ch i c); reflexivity.
  - rewrite IH. destruct (indexOf ch i c); reflexivity.
Qed.

Lemma findNext_shift searchValue i :
  findNext pc searchValue (n + i) = (n + findNext c searchValue i)%nat.
Proof.
  unfold findNext.
  replace (String.length pc) with (n + String.length c)%nat
    by (unfold pc, n; rewrite StringFacts.length_append; reflexivity).
  generalize (String.length c) as result.
  induction searchValue as [|v vs IH]; intros result; simpl; [reflexivity|].
  rewrite indexOf_shift. destruct (indexOf v i c) as [j|]; simpl; [|apply IH].
  replace (n + j <? n + result)%nat with (j <? result)%nat.
  - destruct (j <? result)%nat; apply IH.
  - destruct (j <? result)%nat eqn:E; symmetry.
    + apply Nat.ltb_lt. apply Nat.ltb_lt in E. lia.
    + apply Nat.ltb_ge. apply Nat.ltb_ge in E. lia.
Qed.

Lemma substring_shift_marker i j : substring (n + i) (n + j) pc = substring i j c.
Proof. apply StringFacts.substring_shift. Qed.

Lemma consume_shift allowed i :
  consume pc allowed (n + i) = shift_result n (consume c allowed i).
Proof.
  rewrite !ParserFacts.consume_eq, finished_shift, peek_shift.
  destruct (finished c i); [reflexivity|].
  destruct (includes (peek c i) allowed); simpl; [|reflexivity].
  rewrite Nat.add_assoc. reflexivity.
Qed.

Lemma parseKey_shift i :
  parseKey pc keys flags (n + i) = shift_result n (parseKey c keys flags i).
Proof.
  rewrite !ParserFacts.parseKey_eq. cbv zeta.
  rewrite findNext_shift, substring_shift_marker.
  destruct (negb _ && negb _); reflexivity.
Qed.

Lemma read_value_shift ender i :
  read_value pc ender (n + i) = shift_result n (read_value c ender i).
Proof.
  rewrite !ParserFacts.read_value_eq. cbv zeta.
  rewrite findNext_shift, substring_shift_marker.
  replace (n + findNext c [ender] i =? String.length pc)%nat
    with (findNext c [ender] i =? String.length c)%nat.
  - destruct (negb (Ascii.eqb ender " ") && _); [reflexivity|].
    destruct (negb (Ascii.eqb ender " ")); [|reflexivity].
    rewrite consume_shift. destruct (consume c [ender] _) as [[[] j]|]; reflexivity.
  - unfold pc, n. rewrite StringFacts.length_append.
    destruct (findNext c [ender] i =? String.length c)%nat eqn:E; symmetry.
    + apply Nat.eqb_eq. apply Nat.eqb_eq in E. lia.
    + apply Nat.eqb_neq. apply Nat.eqb_neq in E. lia.
Qed.

Lemma parseValue_shift i :
  parseValue pc (n + i) = shift_result n (parseValue c i).
Proof.
  rewrite !ParserFacts.parseValue_eq, opening_quote_shift.
  destruct (opening_quote c i) as [q|]; [|apply read_value_shift].
  rewrite consume_shift. destruct (consume c [q] i) as [[[] i1]|]; simpl;
    [apply read_value_shift | reflexivity].
Qed.

Lemma parse_pair_shift result i :
  parse_pair pc keys flags result (n + i)
  = shift_result n (parse_pair c keys flags result i).
Proof.
  rewrite !ParserFacts.parse_pair_eq, peek_is_shift, consume_shift.
  assert (Hlast : forall (A : Type) (a : A) j,
             match (if negb (finished pc (n + j)) then consume pc [" "%char] (n + j)
                    else Ok (tt, (n + j)%nat)) with
             | Ok (_, i3) => Ok (a, i3)
             | Throw exn => Throw exn
             end
             = shift_result n
                 match (if negb (finished c j) then consume c [" "%char] j
                        else Ok (tt, j)) with
                 | Ok (_, i3) => Ok (a, i3)
                 | Throw exn => Throw exn
                 end).
  { intros A a j. rewrite finished_shift, consume_shift.
    destruct (finished c j); simpl; [reflexivity|].
    destruct (consume c [" "%char] j) as [[[] j']|]; reflexivity. }
  assert (Hkey : forall (neg : bool) i1,
             match parseKey pc keys flags (n + i1) with
             | Throw exn => Throw exn
             | Ok (key, i2) =>
                 if StrMap.has key result then Throw (String.append "Duplicate key: " key)
                 else if has key flags then
                   if peek_is pc "=" i2
                   then Throw (String.append "Flag "
                                 (String.append key " cannot be assigned a value"))
                   else
                     match (if negb (finished pc i2) then consume pc [" "%char] i2
                            else Ok (tt, i2)) with
                     | Ok (_, i3) =>
                         Ok (StrMap.set key (if neg then "false" else "true") result, i3)
                     | Throw exn => Throw exn
                     end
                 else
                   match consume pc ["="%char; " "%char] i2 with
                   | Throw exn => Throw exn
                   | Ok (_, i3) =>
                       match parseValue pc i3 with
                       | Throw exn => Throw exn
                       | Ok (value, i4) =>
                           match (if negb (finished pc i4) then consume pc [" "%char] i4
                                  else Ok (tt, i4)) with
                           | Ok (_, i5) => Ok (StrMap.set key value result, i5)
                           | Throw exn => Throw exn
                           end
                       end
                   end
             end
             = shift_result n
                 match parseKey c keys flags i1 with
                 | Throw exn => Throw exn
                 | Ok (key, i2) =>
                     if StrMap.has key result
                     then Throw (String.append "Duplicate key: " key)
                     else if has key flags then
                       if peek_is c "=" i2
                       then Throw (String.append "Flag "
                                     (String.append key " cannot be assigned a value"))
                       else
                         match (if negb (finished c i2) then consume c [" "%char] i2
                                else Ok (tt, i2)) with
                         | Ok (_, i3) =>
                             Ok (StrMap.set key (if neg then "false" else "true") result,
                                 i3)
                         | Throw exn => Throw exn
                         end
                     else
                       match consume c ["="%char; " "%char] i2 with
                       | Throw exn => Throw exn
                       | Ok (_, i3) =>
                           match parseValue c i3 with
                           | Throw exn => Throw exn
                           | Ok (value, i4) =>
                               match (if negb (finished c i4) then consume c [" "%char] i4
                                      else Ok (tt, i4)) with
                               | Ok (_, i5) => Ok (StrMap.set key value result, i5)
                               | Throw exn => Throw exn
                               end
                           end
                       end
                 end).
  { intros neg i1. rewrite parseKey_shift.
    destruct (parseKey c keys flags i1) as [[key i2]|]; simpl; [|reflexivity].
    destruct (StrMap.has key result); [reflexivity|].
    destruct (has key flags).
    - rewrite peek_is_shift. destruct (peek_is c "=" i2); [reflexivity|].
      apply Hlast.
    - rewrite consume_shift.
      destruct (consume c ["="%char; " "%char] i2) as [[[] i3]|]; simpl; [|reflexivity].
      rewrite parseValue_shift.
      destruct (parseValue c i3) as [[value i4]|]; simpl; [|reflexivity].
      apply Hlast. }
  destruct (peek_is c "!" i).
  - destruct (consume c ["!"%char] i) as [[[] i1]|]; cbn [shift_result];
      [apply (Hkey true) | reflexivity].
  - apply (Hkey false).
Qed.

Lemma parse_loop_shift : forall fuel result i,
  parse_loop pc keys flags fuel result (n + i) = parse_loop c keys flags fuel result i.
Proof.
  induction fuel as [|fuel IH]; intros result i; simpl; [reflexivity|].
  rewrite finished_shift, parse_pair_shift.
  destruct (finished c i); [reflexivity|].
  destruct (parse_pair c keys flags result i) as [[result' i']|]; simpl;
    [apply IH | reflexivity].
Qed.

End Shift.

End ShiftFacts.

(* ================================================================== *)
(** ** Reading back a written command line *)

Module WriteFacts.
Import Args.

Lemma append_assoc (a b c : string) :
  String.append (String.append a b) c = String.append a (String.append b c).
Proof. induction a as [|d a IH]; simpl; [reflexivity | rewrite IH; reflexivity]. Qed.

Lemma occurs_get (ch : ascii) (s : string) :
  occurs ch s = false -> forall i, String.get i s <> Some ch.
Proof.
  induction s as [|d s IH]; simpl; intros H i; [discriminate|].
  apply orb_false_iff in H. destruct H as [Hd Hs].
  destruct i; [|apply IH; exact Hs].
  apply Ascii.eqb_neq in Hd. congruence.
Qed.

Lemma findNext_name (k r : string) (chars : list ascii) :
  (forall ch, In ch chars -> occurs ch k = false) ->
  (r = EmptyString \/ exists ch r', r = String ch r' /\ In ch chars) ->
  findNext (String.append k r) chars 0 = String.length k.
Proof.
  intros Hk Hr.
  apply (ParserFacts.first_of_unique chars (String.append k r) 0).
  - apply ParserFacts.findNext_first. lia.
  - unfold first_of. rewrite StringFacts.length_append. split; [lia|]. split.
    + intros j ch Hj Hch. rewrite StringFacts.get_append_left by lia.
      apply occurs_get. apply Hk. exact Hch.
    + intros Hlt. destruct Hr as [->|(ch & r' & -> & Hch)]; [simpl in Hlt; lia|].
      exists ch. split; [exact Hch|].
      replace (String.length k) with (String.length k + 0)%nat at 1 by lia.
      rewrite StringFacts.get_append_right. reflexivity.
Qed.

Lemma plain_name_facts (k : string) :
  plain_name k = true ->
  k <> EmptyString /\ occurs "=" k = false /\ occurs " " k = false
  /\ starts_with "!" k = false.
Proof.
  unfold plain_name. intros H.
  apply andb_true_iff in H. destruct H as [H H4].
  apply andb_true_iff in H. destruct H as [H H3].
  apply andb_true_iff in H. destruct H as [H1 H2].
  apply negb_true_iff in H1, H2, H3, H4.
  apply String.eqb_neq in H1. auto.
Qed.

Lemma plain_value_facts (v : string) :
  plain_value v = true ->
  occurs " " v = false /\ starts_with "'" v = false /\ starts_with "034" v = false.
Proof.
  unfold plain_value. intros H.
  apply andb_true_iff in H. destruct H as [H H3].
  apply andb_true_iff in H. destruct H as [H1 H2].
  apply negb_true_iff in H1, H2, H3. auto.
Qed.

Lemma head_get (s : string) :
  String.get 0 s = match s with EmptyString => None | String d _ => Some d end.
Proof. destruct s; reflexivity. Qed.

Lemma peek_is_start (s : string) (ch : ascii) :
  peek_is s ch 0 = starts_with ch s.
Proof. destruct s; reflexivity. Qed.

Lemma peek_start (s : string) :
  peek s 0 = match s with EmptyString => None | String d _ => Some d end.
Proof. destruct s; reflexivity. Qed.

Lemma starts_with_append (ch : ascii) (k r : string) :
  k <> EmptyString -> starts_with ch (String.append k r) = starts_with ch k.
Proof. destruct k; [intros H; contradiction H; reflexivity | reflexivity]. Qed.

Section Turns.
Variables keys flags : list string.

(** Reading a name that is followed by a separator or by nothing. *)
Lemma parseKey_name (k r : string) :
  occurs "=" k = false -> occurs " " k = false ->
  (r = EmptyString \/ exists ch r', r = String ch r' /\ In ch ["="%char; " "%char]) ->
  has k keys = true \/ has k flags = true ->
  parseKey (String.append k r) keys flags 0 = Ok (k, String.length k).
Proof.
  intros He Hs Hr Hknown. rewrite ParserFacts.parseKey_eq. cbv zeta.
  rewrite findNext_name; [|intros ch [<-|[<-|[]]]; assumption | exact Hr].
  rewrite StringFacts.substring_prefix.
  destruct Hknown as [H|H]; rewrite H; [reflexivity|].
  rewrite andb_false_r. reflexivity.
Qed.

(** After an entry: the end of the command, or one space to step over. *)
Lemma step_over_gap (w t : string) :
  tail_text t ->
  (if negb (finished (String.append w t) (String.length w))
   then consume (String.append w t) [" "%char] (String.length w)
   else Ok (tt, String.length w))
  = Ok (tt, (String.length w + gap t)%nat).
Proof.
  intros [->|[t' ->]].
  - replace (finished (String.append w EmptyString) (String.length w)) with true.
    + simpl. rewrite Nat.add_0_r. reflexivity.
    + symmetry. apply ParserFacts.finished_true.
      rewrite StringFacts.length_append. simpl. lia.
  - replace (finished (String.append w (String " " t')) (String.length w)) with false.
    + simpl. apply ParserFacts.consume_expected with (c := " "%char);
        [|left; reflexivity].
      replace (String.length w) with (String.length w + 0)%nat at 1 by lia.
      rewrite StringFacts.get_append_right. reflexivity.
    + symmetry. apply ParserFacts.finished_false.
      rewrite StringFacts.length_append. simpl. lia.
Qed.

Lemma tail_text_separator (t : string) :
  tail_text t ->
  t = EmptyString \/ exists ch r', t = String ch r' /\ In ch ["="%char; " "%char].
Proof.
  intros [->|[t' ->]]; [left; reflexivity|].
  right. exists " "%char, t'. split; [reflexivity | right; left; reflexivity].
Qed.

Lemma tail_text_no_equals (t : string) : tail_text t -> starts_with "=" t = false.
Proof. intros [->|[t' ->]]; reflexivity. Qed.

Lemma peek_is_after (w t : string) (ch : ascii) :
  peek_is (String.append w t) ch (String.length w) = starts_with ch t.
Proof.
  replace (String.length w) with (String.length w + 0)%nat at 1 by lia.
  rewrite ShiftFacts.peek_is_shift. apply peek_is_start.
Qed.

(** One turn on [flag], followed by the rest of the command. *)
Lemma turn_flag_on (f t : string) (result : StrMap.t string) :
  plain_name f = true -> has f flags = true -> tail_text t ->
  StrMap.has f result = false ->
  parse_pair (String.append f t) keys flags result 0
  = Ok (StrMap.set f "true" result, (String.length f + gap t)%nat).
Proof.
  intros Hf Hflag Ht Hnew.
  destruct (plain_name_facts f Hf) as (Hne & He & Hs & Hb).
  rewrite ParserFacts.parse_pair_eq.
  rewrite peek_is_start, (starts_with_append _ _ _ Hne), Hb.
  rewrite (parseKey_name f t He Hs (tail_text_separator t Ht) (or_intror Hflag)).
  rewrite Hnew, Hflag, peek_is_after, (tail_text_no_equals t Ht).
  rewrite (step_over_gap f t Ht). reflexivity.
Qed.

(** One turn on [!flag]. *)
Lemma turn_flag_off (f t : string) (result : StrMap.t string) :
  plain_name f = true -> has f flags = true -> tail_text t ->
  StrMap.has f result = false ->
  parse_pair (String "!" (String.append f t)) keys flags result 0
  = Ok (StrMap.set f "false" result, (1 + String.length f + gap t)%nat).
Proof.
  intros Hf Hflag Ht Hnew.
  destruct (plain_name_facts f Hf) as (Hne & He & Hs & Hb).
  rewrite ParserFacts.parse_pair_eq.
  replace (peek_is (String "!" (String.append f t)) "!" 0) with true by reflexivity.
  rewrite (ParserFacts.consume_expected (String "!" (String.append f t))
             ["!"%char] 0 "!"%char eq_refl (or_introl eq_refl)).
  change (String "!" (String.append f t))
    with (String.append "!" (String.append f t)).
  change (0 + 1)%nat with (String.length "!" + 0)%nat.
  rewrite ShiftFacts.parseKey_shift.
  rewrite (parseKey_name f t He Hs (tail_text_separator t Ht) (or_intror Hflag)).
  cbn [shift_result]. rewrite Hnew, Hflag.
  rewrite ShiftFacts.peek_is_shift, peek_is_after, (tail_text_no_equals t Ht).
  change (String.append "!" (String.append f t))
    with (String.append (String "!" f) t).
  change (String.length "!" + String.length f)%nat with (String.length (String "!" f)).
  rewrite (step_over_gap (String "!" f) t Ht). reflexivity.
Qed.

Lemma no_opening_quote (v t : string) :
  starts_with "'" v = false -> starts_with "034" v = false -> tail_text t ->
  opening_quote (String.append v t) 0 = None.
Proof.
  intros H1 H2 Ht. unfold opening_quote. rewrite peek_start.
  destruct v as [|d v]; simpl in *.
  - destruct Ht as [->|[t' ->]]; reflexivity.
  - rewrite H1, H2. reflexivity.
Qed.

(** Reading an unquoted value that is followed by a space or by nothing. *)
Lemma parseValue_plain (v t : string) :
  plain_value v = true -> tail_text t ->
  parseValue (String.append v t) 0 = Ok (v, String.length v).
Proof.
  intros Hv Ht. destruct (plain_value_facts v Hv) as (Hs & H1 & H2).
  rewrite ParserFacts.parseValue_eq, (no_opening_quote v t H1 H2 Ht).
  rewrite ParserFacts.read_value_eq. cbv zeta.
  rewrite findNext_name.
  - rewrite StringFacts.substring_prefix. reflexivity.
  - intros ch [<-|[]]. exact Hs.
  - destruct Ht as [->|[t' ->]]; [left; reflexivity|].
    right. exists " "%char, t'. split; [reflexivity | left; reflexivity].
Qed.

(** One turn on [key=value]. *)
Lemma turn_keyed (k v t : string) (result : StrMap.t string) :
  plain_name k = true -> plain_value v = true ->
  has k keys = true -> has k flags = false -> tail_text t ->
  StrMap.has k result = false ->
  parse_pair (String.append (String.append k (String "=" v)) t) keys flags result 0
  = Ok (StrMap.set k v result,
        (String.length (String.append k (String "=" v)) + gap t)%nat).
Proof.
  intros Hk Hv Hkey Hflag Ht Hnew.
  destruct (plain_name_facts k Hk) as (Hne & He & Hs & Hb).
  rewrite ParserFacts.parse_pair_eq.
  rewrite peek_is_start, append_assoc, (starts_with_append _ _ _ Hne), Hb.
  assert (Hr : String.append (String "=" v) t = EmptyString
               \/ exists ch r', String.append (String "=" v) t = String ch r'
                                /\ In ch ["="%char; " "%char]).
  { right. exists "="%char, (String.append v t). split; [reflexivity | left; reflexivity]. }
  rewrite (parseKey_name k _ He Hs Hr (or_introl Hkey)).
  rewrite Hnew, Hflag.
  assert (Hg : String.get (String.length k)
                 (String.append k (String.append (String "=" v) t)) = Some "="%char).
  { replace (String.length k) with (String.length k + 0)%nat at 1 by lia.
    rewrite StringFacts.get_append_right. reflexivity. }
  rewrite (ParserFacts.consume_expected _ ["="%char; " "%char] (String.length k) "="%char
             Hg (or_introl eq_refl)).
  replace (String.append k (String.append (String "=" v) t))
    with (String.append (String.append k "=") (String.append v t))
    by (rewrite append_assoc; reflexivity).
  replace (String.length k + 1)%nat
    with (String.length (String.append k "=") + 0)%nat
    by (rewrite StringFacts.length_append; simpl; lia).
  rewrite ShiftFacts.parseValue_shift, (parseValue_plain v t Hv Ht).
  cbn [shift_result].
  replace (String.append (String.append k "=") (String.append v t))
    with (String.append (String.append k (String "=" v)) t)
    by (rewrite !append_assoc; reflexivity).
  replace (String.length (String.append k "=") + String.length v)%nat
    with (String.length (String.append k (String "=" v)))
    by (rewrite !StringFacts.length_append; simpl; lia).
  rewrite (step_over_gap _ t Ht). reflexivity.
Qed.

Lemma turn_entry (e : Entry) (t : string) (result : StrMap.t string) :
  writable keys flags e = true -> tail_text t ->
  StrMap.has (entry_key e) result = false ->
  parse_pair (String.append (write_entry e) t) keys flags result 0
  = Ok (StrMap.set (entry_key e) (entry_value e) result,
        (String.length (write_entry e) + gap t)%nat).
Proof.
  intros Hw Ht Hnew. destruct e as [k v|f|f]; simpl in *.
  - apply andb_true_iff in Hw. destruct Hw as [Hw Hflag].
    apply andb_true_iff in Hw. destruct Hw as [Hw Hkey].
    apply andb_true_iff in Hw. destruct Hw as [Hk Hv].
    apply negb_true_iff in Hflag.
    apply turn_keyed; assumption.
  - apply andb_true_iff in Hw. destruct Hw as [Hf Hflag].
    apply turn_flag_on; assumption.
  - apply andb_true_iff in Hw. destruct Hw as [Hf Hflag].
    apply (turn_flag_off f t result Hf Hflag Ht Hnew).
Qed.

Lemma written_entry_not_empty (e : Entry) :
  writable keys flags e = true -> (0 < String.length (write_entry e))%nat.
Proof.
  intros Hw. destruct e as [k v|f|f]; simpl in *.
  - apply andb_true_iff in Hw. destruct Hw as [Hw _].
    apply andb_true_iff in Hw. destruct Hw as [Hw _].
    apply andb_true_iff in Hw. destruct Hw as [Hk _].
    destruct (plain_name_facts k Hk) as (Hne & _).
    destruct k; [contradiction Hne; reflexivity | simpl; lia].
  - apply andb_true_iff in Hw. destruct Hw as [Hf _].
    destruct (plain_name_facts f Hf) as (Hne & _).
    destruct f; [contradiction Hne; reflexivity | simpl; lia].
  - lia.
Qed.

Lemma str_set_new (V : Type) (k : string) (v : V) (m : StrMap.t V) :
  StrMap.has k m = false -> StrMap.set k v m = m ++ [(k, v)].
Proof.
  unfold StrMap.has. induction m as [|[k1 v1] m IH]; simpl; [reflexivity|].
  destruct (String.eqb k1 k); [discriminate|].
  intros H. rewrite IH by exact H. reflexivity.
Qed.

Lemma str_has_snoc (V : Type) (k k' : string) (v : V) (m : StrMap.t V) :
  StrMap.has k' m = false -> k <> k' -> StrMap.has k' (m ++ [(k, v)]) = false.
Proof.
  unfold StrMap.has. intros Hm Hne.
  induction m as [|[k1 v1] m IH]; simpl in *.
  - apply String.eqb_neq in Hne. rewrite Hne. reflexivity.
  - destruct (String.eqb k1 k'); [discriminate | apply IH; exact Hm].
Qed.

(** The loop on a written command reads the entries back, whatever table it
    starts from, as long as none of the keys is in it yet. *)
Lemma read_written : forall (es : list Entry) (result : StrMap.t string),
  forallb (writable keys flags) es = true ->
  NoDup (map entry_key es) ->
  (forall e, In e es -> StrMap.has (entry_key e) result = false) ->
  exists fuel,
    parse_loop (write_command es) keys flags fuel result 0
    = Some (Ok (result ++ table_of es)).
Proof.
  induction es as [|e rest IH]; intros result Hw Hnd Hnew.
  - exists 1%nat. simpl. rewrite app_nil_r. reflexivity.
  - simpl in Hw. apply andb_true_iff in Hw. destruct Hw as [He Hrest].
    inversion Hnd as [|? ? Hnotin Hnd']; subst.
    assert (Hnew_e : StrMap.has (entry_key e) result = false)
      by (apply Hnew; left; reflexivity).
    pose proof (written_entry_not_empty e He) as Hlen.
    destruct rest as [|e' rest'].
    + exists 2%nat.
      change (write_command [e]) with (write_entry e).
      assert (Hturn := turn_entry e EmptyString result He (or_introl eq_refl) Hnew_e).
      replace (String.append (write_entry e) EmptyString) with (write_entry e) in Hturn
        by (clear; induction (write_entry e) as [|d w IHw]; simpl;
            [reflexivity | rewrite <- IHw; reflexivity]).
      cbn [parse_loop].
      replace (finished (write_entry e) 0) with false
        by (symmetry; apply ParserFacts.finished_false; exact Hlen).
      rewrite Hturn. cbn [gap]. rewrite Nat.add_0_r.
      replace (finished (write_entry e) (String.length (write_entry e))) with true
        by (symmetry; apply ParserFacts.finished_true; lia).
      rewrite str_set_new by exact Hnew_e. reflexivity.
    + destruct (IH (result ++ [(entry_key e, entry_value e)]) Hrest Hnd') as [fuel Hfuel].
      { intros e1 He1. apply str_has_snoc.
        - apply Hnew. right. exact He1.
        - intros E. apply Hnotin. rewrite E. apply in_map. exact He1. }
      exists (S fuel).
      change (write_command (e :: e' :: rest'))
        with (String.append (write_entry e) (String " " (write_command (e' :: rest')))).
      cbn [parse_loop].
      replace (finished (String.append (write_entry e)
                           (String " " (write_command (e' :: rest')))) 0) with false
        by (symmetry; apply ParserFacts.finished_false;
            rewrite StringFacts.length_append; lia).
      rewrite (turn_entry e _ result He
                 (or_intror (ex_intro _ (write_command (e' :: rest')) eq_refl)) Hnew_e).
      cbn [gap]. rewrite str_set_new by exact Hnew_e.
      replace (String.append (write_entry e) (String " " (write_command (e' :: rest'))))
        with (String.append (String.append (write_entry e) " ")
                            (write_command (e' :: rest')))
        by (rewrite append_assoc; reflexivity).
      replace (String.length (write_entry e) + 1)%nat
        with (String.length (String.append (write_entry e) " ") + 0)%nat
        by (rewrite StringFacts.length_append; simpl; lia).
      rewrite ShiftFacts.parse_loop_shift.
      rewrite Hfuel. rewrite <- app_assoc. reflexivity.
Qed.

End Turns.

Lemma parse_written (keys flags : list string) (es : list Entry) :
  forallb (writable keys flags) es = true ->
  NoDup (map entry_key es) ->
  parse (write_command es) keys flags = Some (Ok (table_of es)).
Proof.
  intros Hwritable Hdistinct.
  destruct (read_written keys flags es StrMap.empty Hwritable Hdistinct)
    as [fuel Hfuel]; [intros e _; reflexivity|].
  simpl in Hfuel. unfold parse, parse_within.
  destruct (ParserFacts.parse_loop_finishes (write_command es) keys flags
              (S (String.length (write_command es))) StrMap.empty 0)
    as [outcome H]; [lia | lia |].
  rewrite H.
  pose proof (ParserFacts.parse_loop_more_fuel _ _ _ _ _ _ _ H
                (fuel + S (String.length (write_command es)))%nat) as H1.
  pose proof (ParserFacts.parse_loop_more_fuel _ _ _ _ _ _ _ Hfuel
                (fuel + S (String.length (write_command es)))%nat) as H2.
  rewrite H1 in H2 by lia. rewrite H2 by lia. reflexivity.
Qed.

End WriteFacts.

(** X21. Writing and reading back.  Take entries [key=value], [flag] and
    [!flag] with pairwise different names, each name not empty, free of [=]
    and spaces and not starting with [!], each keyed name a key that is no
    flag, each flag name a flag, each value free of spaces and not starting
    with a quote.  Written with single spaces between them, they parse to the
    table that maps every key to its value and every flag to true or false,
    in the order written. *)
Theorem parse_reads_back (keys flags : list string) (es : list Args.Entry)
        (Hwritable : forallb (Args.writable keys flags) es = true)
        (Hdistinct : NoDup (map Args.entry_key es)) :
  Args.parse (Args.write_command es) keys flags = Some (Args.Ok (Args.table_of es)).
Proof. apply WriteFacts.parse_written; assumption. Qed.

Lemma parse_reads_back_witness :
  Args.parse "turns=10 !verbose pull=all" ["turns"; "pull"] ["verbose"]
  = Some (Args.Ok [("turns", "10"); ("verbose", "false"); ("pull", "all")]).
Proof.
  apply (parse_reads_back ["turns"; "pull"] ["verbose"]
           [Args.keyed "turns" "10"; Args.flag_off "verbose"; Args.keyed "pull" "all"]).
  - reflexivity.
  - simpl. repeat constructor; simpl; intuition discriminate.
Defined.


(* ================================================================== *)
(** ** What the parser rejects, and quoted values *)

Module RejectFacts.
Import Args.

Lemma append_empty (s : string) : String.append s EmptyString = s.
Proof. induction s as [|d s IH]; simpl; [reflexivity | rewrite IH; reflexivity]. Qed.

Lemma findNext_whole (v : string) (chars : list ascii) :
  (forall ch, In ch chars -> occurs ch v = false) ->
  findNext v chars 0 = String.length v.
Proof.
  intros H. rewrite <- (append_empty v) at 1.
  apply WriteFacts.findNext_name; [exact H | left; reflexivity].
Qed.

Lemma substring_whole (v : string) : substring 0 (String.length v) v = v.
Proof.
  rewrite <- (append_empty v) at 2. apply StringFacts.substring_prefix.
Qed.

Section Rejects.
Variables keys flags : list string.

Lemma first_turn (command : string) :
  (0 < String.length command)%nat ->
  parse command keys flags
  = match parse_pair command keys flags StrMap.empty 0 with
    | Ok (result, index) =>
        parse_loop command keys flags (String.length command) result index
    | Throw exn => Some (Throw exn)
    end.
Proof.
  intros H. unfold parse, parse_within. cbn [parse_loop].
  replace (finished command 0) with false
    by (symmetry; apply ParserFacts.finished_false; exact H).
  reflexivity.
Qed.

(** After [key=], the value is read from what follows the equals sign. *)
Lemma turn_key_then (k c : string) (result : StrMap.t string) :
  plain_name k = true -> has k keys = true -> has k flags = false ->
  StrMap.has k result = false ->
  parse_pair (String.append k (String "=" c)) keys flags result 0
  = match parseValue c 0 with
    | Throw exn => Throw exn
    | Ok (value, i) =>
        match (if negb (finished c i) then consume c [" "%char] i else Ok (tt, i)) with
        | Ok (_, i') =>
            Ok (StrMap.set k value result,
                (String.length (String.append k "=") + i')%nat)
        | Throw exn => Throw exn
        end
    end.
Proof.
  intros Hk Hkey Hflag Hnew.
  destruct (WriteFacts.plain_name_facts k Hk) as (Hne & He & Hs & Hb).
  rewrite ParserFacts.parse_pair_eq.
  rewrite WriteFacts.peek_is_start, (WriteFacts.starts_with_append _ _ _ Hne), Hb.
  assert (Hr : String "=" c = EmptyString
               \/ exists ch r', String "=" c = String ch r'
                                /\ In ch ["="%char; " "%char]).
  { right. exists "="%char, c. split; [reflexivity | left; reflexivity]. }
  rewrite (WriteFacts.parseKey_name keys flags k _ He Hs Hr (or_introl Hkey)).
  rewrite Hnew, Hflag.
  assert (Hg : String.get (String.length k) (String.append k (String "=" c))
               = Some "="%char).
  { replace (String.length k) with (String.length k + 0)%nat at 1 by lia.
    rewrite StringFacts.get_append_right. reflexivity. }
  rewrite (ParserFacts.consume_expected _ ["="%char; " "%char] (String.length k) "="%char
             Hg (or_introl eq_refl)).
  replace (String.append k (String "=" c))
    with (String.append (String.append k "=") c)
    by (rewrite WriteFacts.append_assoc; reflexivity).
  replace (String.length k + 1)%nat
    with (String.length (String.append k "=") + 0)%nat
    by (rewrite StringFacts.length_append; simpl; lia).
  rewrite ShiftFacts.parseValue_shift.
  destruct (parseValue c 0) as [[value i]|]; cbn [shift_result]; [|reflexivity].
  rewrite ShiftFacts.finished_shift, ShiftFacts.consume_shift.
  destruct (finished c i); cbn [negb]; [reflexivity|].
  destruct (consume c [" "%char] i) as [[[] i']|]; reflexivity.
Qed.

(** A quoted value: everything between the quotes. *)
Lemma parseValue_quoted (q : ascii) (v t : string) :
  In q ["'"%char; "034"%char] -> occurs q v = false ->
  parseValue (String q (String.append v (String q t))) 0
  = Ok (v, (String.length v + 2)%nat).
Proof.
  intros Hq Hv.
  assert (Hquote : opening_quote (String q (String.append v (String q t))) 0 = Some q).
  { destruct Hq as [<-|[<-|[]]]; reflexivity. }
  assert (Hnot_space : negb (Ascii.eqb q " ") = true).
  { destruct Hq as [<-|[<-|[]]]; reflexivity. }
  rewrite ParserFacts.parseValue_eq, Hquote.
  rewrite (ParserFacts.consume_expected (String q (String.append v (String q t)))
             [q] 0 q eq_refl (or_introl eq_refl)).
  change (String q (String.append v (String q t)))
    with (String.append (String q EmptyString) (String.append v (String q t))).
  change (0 + 1)%nat with (String.length (String q EmptyString) + 0)%nat.
  rewrite ShiftFacts.read_value_shift.
  rewrite ParserFacts.read_value_eq. cbv zeta.
  rewrite WriteFacts.findNext_name.
  - rewrite StringFacts.substring_prefix, Hnot_space.
    replace (String.length v =? String.length (String.append v (String q t)))%nat
      with false
      by (symmetry; apply Nat.eqb_neq; rewrite StringFacts.length_append; simpl; lia).
    assert (Hg : String.get (String.length v) (String.append v (String q t)) = Some q).
    { replace (String.length v) with (String.length v + 0)%nat at 1 by lia.
      rewrite StringFacts.get_append_right. reflexivity. }
    cbn [andb].
    rewrite (ParserFacts.consume_expected _ [q] (String.length v) q Hg (or_introl eq_refl)).
    cbn [shift_result]. f_equal. f_equal. simpl. lia.
  - intros ch [<-|[]]. exact Hv.
  - right. exists q, t. split; [reflexivity | left; reflexivity].
Qed.

(** A value whose opening quote is never closed. *)
Lemma parseValue_unclosed (q : ascii) (v : string) :
  In q ["'"%char; "034"%char] -> occurs q v = false ->
  parseValue (String q v) 0
  = Throw (String.append "No closing "
             (String.append (String q EmptyString)
                (String.append " found for "
                   (String.append (String q EmptyString) v)))).
Proof.
  intros Hq Hv.
  assert (Hquote : opening_quote (String q v) 0 = Some q).
  { destruct Hq as [<-|[<-|[]]]; reflexivity. }
  assert (Hnot_space : negb (Ascii.eqb q " ") = true).
  { destruct Hq as [<-|[<-|[]]]; reflexivity. }
  rewrite ParserFacts.parseValue_eq, Hquote.
  rewrite (ParserFacts.consume_expected (String q v) [q] 0 q eq_refl (or_introl eq_refl)).
  change (String q v) with (String.append (String q EmptyString) v).
  change (0 + 1)%nat with (String.length (String q EmptyString) + 0)%nat.
  rewrite ShiftFacts.read_value_shift.
  rewrite ParserFacts.read_value_eq. cbv zeta.
  rewrite findNext_whole by (intros ch [<-|[]]; exact Hv).
  rewrite substring_whole, Hnot_space, Nat.eqb_refl.
  reflexivity.
Qed.

End Rejects.

End RejectFacts.

(** X22. A flag cannot be given a value. Let [f] be one of the flags whose
    name is plain: not empty, without [=] or space, and not starting with
    [!]. A command that starts with [f] directly followed by [=] makes
    [parse] throw [Flag f cannot be assigned a value], whatever the keys
    are and whatever comes after the [=]. *)
Theorem flag_cannot_take_value (keys flags : list string) (f rest : string)
        (Hname : Args.plain_name f = true)
        (Hflag : Args.has f flags = true) :
  Args.parse (String.append f (String "=" rest)) keys flags
  = Some (Args.Throw
            (String.append "Flag " (String.append f " cannot be assigned a value"))).
Proof.
  destruct (WriteFacts.plain_name_facts f Hname) as (Hne & He & Hs & Hb).
  rewrite RejectFacts.first_turn
    by (rewrite StringFacts.length_append; simpl; lia).
  rewrite ParserFacts.parse_pair_eq.
  rewrite WriteFacts.peek_is_start, (WriteFacts.starts_with_append _ _ _ Hne), Hb.
  assert (Hr : String "=" rest = EmptyString
               \/ exists ch r', String "=" rest = String ch r'
                                /\ In ch ["="%char; " "%char]).
  { right. exists "="%char, rest. split; [reflexivity | left; reflexivity]. }
  rewrite (WriteFacts.parseKey_name keys flags f _ He Hs Hr (or_intror Hflag)).
  cbn [StrMap.has StrMap.get StrMap.empty]. rewrite Hflag.
  rewrite WriteFacts.peek_is_after. reflexivity.
Qed.

Lemma flag_cannot_take_value_witness :
  Args.parse "verbose=true" ["turns"] ["verbose"]
  = Some (Args.Throw "Flag verbose cannot be assigned a value").
Proof.
  apply (flag_cannot_take_value ["turns"] ["verbose"] "verbose" "true"); reflexivity.
Defined.

(** X23. A command whose first name, the text up to the first [=] or space,
    is neither a key nor a flag makes [parse] throw an unknown-key error
    naming it.  A command that starts with a space is rejected this way, with
    the empty name. *)
Theorem unknown_key_rejected (keys flags : list string) (k r : string)
        (Hequals : Args.occurs "=" k = false)
        (Hspace : Args.occurs " " k = false)
        (Hbang : Args.starts_with "!" k = false)
        (Hrest : r = EmptyString
                 \/ exists ch r', r = String ch r' /\ In ch ["="%char; " "%char])
        (Hsome : (0 < String.length (String.append k r))%nat)
        (Hkey : Args.has k keys = false)
        (Hflag : Args.has k flags = false) :
  Args.parse (String.append k r) keys flags
  = Some (Args.Throw (String.append "Unknown key: " k)).
Proof.
  rewrite RejectFacts.first_turn by exact Hsome.
  rewrite ParserFacts.parse_pair_eq.
  assert (Hstart : Args.peek_is (String.append k r) "!" 0 = false).
  { rewrite WriteFacts.peek_is_start. destruct k as [|d k].
    - simpl. destruct Hrest as [->|(ch & r' & -> & [<-|[<-|[]]])]; reflexivity.
    - exact Hbang. }
  rewrite Hstart, ParserFacts.parseKey_eq. cbv zeta.
  rewrite WriteFacts.findNext_name;
    [| intros ch [<-|[<-|[]]]; assumption | exact Hrest].
  rewrite StringFacts.substring_prefix, Hkey, Hflag. reflexivity.
Qed.

Lemma unknown_key_rejected_witness :
  Args.parse " turns=10" ["turns"] ["verbose"] = Some (Args.Throw "Unknown key: ").
Proof.
  apply (unknown_key_rejected ["turns"] ["verbose"] EmptyString " turns=10");
    try reflexivity.
  - right. exists " "%char, "turns=10". split; [reflexivity | right; left; reflexivity].
  - simpl. lia.
Defined.

(** X24. A key alone is rejected. Let [k] be one of the keys and none of the
    flags, with a plain name: not empty, without [=] or space, and not
    starting with [!]. The command that consists of [k] and nothing else
    makes [parse] throw [Expected =, ]: [consume] finds nothing where [=]
    is expected. *)
Theorem key_without_value_rejected (keys flags : list string) (k : string)
        (Hname : Args.plain_name k = true)
        (Hkey : Args.has k keys = true)
        (Hflag : Args.has k flags = false) :
  Args.parse k keys flags = Some (Args.Throw "Expected =, ").
Proof.
  destruct (WriteFacts.plain_name_facts k Hname) as (Hne & He & Hs & Hb).
  assert (Hlen : (0 < String.length k)%nat).
  { destruct k; [contradiction Hne; reflexivity | simpl; lia]. }
  rewrite RejectFacts.first_turn by exact Hlen.
  rewrite ParserFacts.parse_pair_eq.
  rewrite WriteFacts.peek_is_start, Hb.
  rewrite ParserFacts.parseKey_eq. cbv zeta.
  rewrite RejectFacts.findNext_whole by (intros ch [<-|[<-|[]]]; assumption).
  rewrite RejectFacts.substring_whole, Hkey.
  cbn [negb andb StrMap.has StrMap.get StrMap.empty]. rewrite Hflag.
  rewrite ParserFacts.consume_eq.
  replace (Args.finished k (String.length k)) with true
    by (symmetry; apply ParserFacts.finished_true; lia).
  reflexivity.
Qed.

Lemma key_without_value_rejected_witness :
  Args.parse "turns" ["turns"] ["verbose"] = Some (Args.Throw "Expected =, ").
Proof.
  apply (key_without_value_rejected ["turns"] ["verbose"] "turns"); reflexivity.
Defined.

(** X25. A value in matching quotes is taken whole, spaces included. Let [k]
    be one of the keys and none of the flags, with a plain name: not empty,
    without [=] or space, and not starting with [!]; let [q] be the single
    or the double quote and [v] a text in which [q] does not occur. The
    command that consists of exactly [k], [=], [q], [v] and [q] again
    parses to the table with the one entry mapping [k] to [v]. *)
Theorem quoted_value_read (keys flags : list string) (k v : string) (q : ascii)
        (Hname : Args.plain_name k = true)
        (Hkey : Args.has k keys = true)
        (Hflag : Args.has k flags = false)
        (Hquote : In q ["'"%char; "034"%char])
        (Hvalue : Args.occurs q v = false) :
  Args.parse
    (String.append k (String "=" (String q (String.append v (String q EmptyString)))))
    keys flags
  = Some (Args.Ok [(k, v)]).
Proof.
  rewrite RejectFacts.first_turn
    by (rewrite StringFacts.length_append; simpl; lia).
  rewrite (RejectFacts.turn_key_then keys flags k _ StrMap.empty Hname Hkey Hflag eq_refl).
  rewrite (RejectFacts.parseValue_quoted q v EmptyString Hquote Hvalue).
  replace (Args.finished (String q (String.append v (String q EmptyString)))
             (String.length v + 2)) with true
    by (symmetry; apply ParserFacts.finished_true; simpl;
        rewrite StringFacts.length_append; simpl; lia).
  cbn [negb].
  set (command := String.append k _).
  assert (Hlen : String.length command
                 = (String.length (String.append k "=") + (String.length v + 2))%nat).
  { unfold command. rewrite !StringFacts.length_append. simpl.
    rewrite StringFacts.length_append. simpl. lia. }
  rewrite <- Hlen.
  destruct (String.length command) as [|fuel] eqn:E.
  - exfalso. rewrite StringFacts.length_append in Hlen. simpl in Hlen. lia.
  - cbn [Args.parse_loop].
    replace (Args.finished command (S fuel)) with true
      by (symmetry; apply ParserFacts.finished_true; lia).
    reflexivity.
Qed.

Lemma quoted_value_read_witness :
  Args.parse "note='a b'" ["note"] [] = Some (Args.Ok [("note", "a b")]).
Proof.
  apply (quoted_value_read ["note"] [] "note" "a b" "'"%char); try reflexivity.
  left. reflexivity.
Defined.

(** X26. An opening quote that is never closed is rejected. Let [k] be one
    of the keys and none of the flags, with a plain name: not empty,
    without [=] or space, and not starting with [!]; let [q] be the single
    or the double quote and [v] a text in which [q] does not occur. The
    command that consists of exactly [k], [=], [q] and [v] makes [parse]
    throw [No closing q found for qv], naming the quote and the text from
    the quote on. *)
Theorem unclosed_quote_rejected (keys flags : list string) (k v : string) (q : ascii)
        (Hname : Args.plain_name k = true)
        (Hkey : Args.has k keys = true)
        (Hflag : Args.has k flags = false)
        (Hquote : In q ["'"%char; "034"%char])
        (Hvalue : Args.occurs q v = false) :
  Args.parse (String.append k (String "=" (String q v))) keys flags
  = Some (Args.Throw
            (String.append "No closing "
               (String.append (String q EmptyString)
                  (String.append " found for "
                     (String.append (String q EmptyString) v))))).
Proof.
  rewrite RejectFacts.first_turn
    by (rewrite StringFacts.length_append; simpl; lia).
  rewrite (RejectFacts.turn_key_then keys flags k _ StrMap.empty Hname Hkey Hflag eq_refl).
  rewrite (RejectFacts.parseValue_unclosed q v Hquote Hvalue).
  reflexivity.
Qed.

Lemma unclosed_quote_rejected_witness :
  Args.parse "note='a b" ["note"] [] = Some (Args.Throw "No closing ' found for 'a b").
Proof.
  apply (unclosed_quote_rejected ["note"] [] "note" "a b" "'"%char); try reflexivity.
  left. reflexivity.
Defined.

(* ================================================================== *)
(** ** Properties of [create], [fill] and [parse] *)

Module ScriptFacts.
Import Script.

Lemma str_has_snoc_same (V : Type) (k : string) (v : V) (m : StrMap.t V) :
  StrMap.has k (m ++ [(k, v)]) = true.
Proof.
  unfold StrMap.has. induction m as [|[k1 v1] m IH]; simpl.
  - rewrite String.eqb_refl. reflexivity.
  - destruct (String.eqb k1 k); [reflexivity | exact IH].
Qed.

Lemma str_set_last (V : Type) (k : string) (v0 v : V) (m : StrMap.t V) :
  StrMap.has k m = false -> StrMap.set k v (m ++ [(k, v0)]) = m ++ [(k, v)].
Proof.
  unfold StrMap.has. induction m as [|[k1 v1] m IH]; simpl.
  - rewrite String.eqb_refl. reflexivity.
  - destruct (String.eqb k1 k); [discriminate|].
    intros H. rewrite IH by exact H. reflexivity.
Qed.

Lemma str_has_absent (V : Type) (k : string) (m : StrMap.t V) :
  ~ In k (StrMap.keys m) -> StrMap.has k m = false.
Proof.
  intros H. destruct (StrMap.has k m) eqn:E; [|reflexivity].
  apply TaskFacts.str_has_keys in E. contradiction.
Qed.

(** Assigning under names that are all new appends the entries in order. *)
Lemma fold_set_fresh (A V : Type) (f : string * A -> V) : forall (l : list (string * A)) m,
  NoDup (map fst l) ->
  (forall k, In k (map fst l) -> StrMap.has k m = false) ->
  fold_left (fun res ka => StrMap.set (fst ka) (f ka) res) l m
  = m ++ map (fun ka => (fst ka, f ka)) l.
Proof.
  induction l as [|[k a] l IH]; intros m Hnd Hnew; simpl.
  - rewrite app_nil_r. reflexivity.
  - inversion Hnd as [|? ? Hnotin Hnd']; subst.
    rewrite WriteFacts.str_set_new by (apply Hnew; left; reflexivity).
    rewrite IH; [rewrite <- app_assoc; reflexivity | exact Hnd' |].
    intros k' Hk'. apply WriteFacts.str_has_snoc.
    + apply Hnew. right. exact Hk'.
    + intros ->. contradiction.
Qed.

Lemma has_add (k : string) (set : list string) : Args.has k (add k set) = true.
Proof.
  unfold add. destruct (Args.has k set) eqn:E; [exact E|].
  unfold Args.has. rewrite existsb_app. simpl.
  rewrite String.eqb_refl. rewrite orb_true_r. reflexivity.
Qed.

Section WithValue.
Variable Value : Type.
Variable same_value_zero : Value -> Value -> bool.
Variable of_boolean : bool -> Value.
Variable of_string : string -> Value.
Variable to_text : Value -> string.

Lemma reserved_false (k : string) (a : Script.Arg Value) :
  reserved k a = false <-> k <> "help" /\ key (spec a) <> Some "help".
Proof.
  unfold reserved. rewrite orb_false_iff, String.eqb_neq. split.
  - intros [Hk Ha]. split; [exact Hk|].
    destruct (key (spec a)) as [key|]; [|discriminate].
    apply String.eqb_neq in Ha. congruence.
  - intros [Hk Ha]. split; [exact Hk|].
    destruct (key (spec a)) as [key|]; [|reflexivity].
    apply String.eqb_neq. congruence.
Qed.

Lemma reserved_key_of (k : string) (a : Script.Arg Value) :
  reserved k a = false -> key_of k a <> "help".
Proof.
  intros H. apply reserved_false in H. destruct H as [Hk Ha].
  unfold key_of. destruct (key (spec a)) as [key|]; congruence.
Qed.

Lemma flag_help :
  arg_flag same_value_zero of_boolean to_text (help_spec of_boolean)
  = Args.Ok (help_arg of_boolean).
Proof. reflexivity. Qed.

(** [create] on arguments none of which is reserved. *)
Lemma create_ok (scriptName scriptHelp : string) (args : Script.ArgMap Value) :
  (forall ka, In ka args -> reserved (fst ka) (snd ka) = false) ->
  NoDup (map fst args) ->
  create same_value_zero of_boolean to_text scriptName scriptHelp args
  = Args.Ok
      (mkParsedArgs (args ++ [("help", help_arg of_boolean)]) scriptName scriptHelp
         (defaults args ++ [("help", Some (of_boolean false))])).
Proof.
  intros Hres Hnd. unfold create.
  replace (existsb (fun ka => reserved (fst ka) (snd ka)) args) with false.
  - rewrite flag_help. f_equal. f_equal.
    rewrite (fold_set_fresh _ _ (fun ka : string * Script.Arg Value => default (spec (snd ka)))).
    + unfold defaults. rewrite map_app. reflexivity.
    + rewrite map_app. simpl. apply NoDup_app; [exact Hnd | | ].
      * constructor; [intros [] | constructor].
      * intros k Hk [<-|[]]. apply in_map_iff in Hk.
        destruct Hk as ([k a] & Hk & Hin). simpl in Hk. subst k.
        apply Hres in Hin. apply reserved_false in Hin. simpl in Hin.
        destruct Hin as [Hin _]. contradiction Hin. reflexivity.
    + intros k _. reflexivity.
  - symmetry. apply not_true_is_false. intros H. apply existsb_exists in H.
    destruct H as (ka & Hin & Hr). rewrite (Hres ka Hin) in Hr. discriminate.
Qed.

(** What the second loop of [fill] has done when it returns. *)
Lemma assign_spec (parsed : StrMap.t string) :
  forall (sp : Script.ArgMap Value) (args args' : Script.ParsedArgs Value),
  NoDup (map fst sp) ->
  assign same_value_zero parsed sp args = Returned args' ->
  specs args' = specs args
  /\ (forall k, ~ In k (map fst sp) ->
        StrMap.get k (values args') = StrMap.get k (values args))
  /\ (forall k a, In (k, a) sp ->
        match StrMap.get (key_of k a) parsed with
        | None => StrMap.get k (values args') = StrMap.get k (values args)
        | Some value_str =>
            exists value,
              parser a value_str = Some value
              /\ (forall opts, options (spec a) = Some opts ->
                               among same_value_zero value opts = true)
              /\ StrMap.get k (values args') = Some (Some value)
        end).
Proof.
  induction sp as [|[k0 a0] sp IH]; intros args args' Hnd H.
  - simpl in H. inversion H; subst. split; [reflexivity|]. split; [reflexivity|].
    intros k a [].
  - inversion Hnd as [|? ? Hnotin Hnd']; subst. simpl in H.
    destruct (StrMap.get (key_of k0 a0) parsed) as [value_str|] eqn:G.
    + destruct (parser a0 value_str) as [value|] eqn:P; [|discriminate].
      destruct (match options (spec a0) with
                | Some opts => negb (among same_value_zero value opts)
                | None => false
                end) eqn:O; [discriminate|].
      destruct (IH _ _ Hnd' H) as (Hs & Hother & Hall).
      simpl in Hs, Hother. split; [exact Hs|]. split.
      * intros k Hk. rewrite Hother by (intros Hin; apply Hk; right; exact Hin).
        apply TaskFacts.str_get_set_other. intros ->. apply Hk. left. reflexivity.
      * intros k a [E|Hin].
        -- inversion E; subst. rewrite G. exists value. split; [exact P|]. split.
           ++ intros opts Hopts. rewrite Hopts in O. apply negb_false_iff in O. exact O.
           ++ rewrite (Hother k Hnotin). apply TaskFacts.str_get_set_same.
        -- specialize (Hall k a Hin).
           assert (Hne : k0 <> k).
           { intros ->. apply Hnotin. apply (in_map fst) in Hin. exact Hin. }
           destruct (StrMap.get (key_of k a) parsed); [exact Hall|].
           rewrite Hall. simpl. apply TaskFacts.str_get_set_other. exact Hne.
    + destruct (IH _ _ Hnd' H) as (Hs & Hother & Hall).
      split; [exact Hs|]. split.
      * intros k Hk. apply Hother. intros Hin. apply Hk. right. exact Hin.
      * intros k a [E|Hin]; [|apply Hall; exact Hin].
        inversion E; subst. rewrite G. apply Hother. exact Hnotin.
Qed.

(** Arguments the command does not mention are passed over. *)
Lemma assign_skip (parsed : StrMap.t string) :
  forall (sp rest : Script.ArgMap Value) (args : Script.ParsedArgs Value),
  (forall ka, In ka sp -> StrMap.get (key_of (fst ka) (snd ka)) parsed = None) ->
  assign same_value_zero parsed (sp ++ rest) args
  = assign same_value_zero parsed rest args.
Proof.
  induction sp as [|[k a] sp IH]; intros rest args H; [reflexivity|].
  pose proof (H (k, a) (or_introl eq_refl)) as Hk. simpl in Hk.
  simpl. rewrite Hk.
  apply IH. intros ka Hin. apply H. right. exact Hin.
Qed.

Lemma collect_snoc (sp : Script.ArgMap Value) (k : string) (a : Script.Arg Value) :
  collect (sp ++ [(k, a)])
  = if String.eqb (valueHelpName a) "FLAG"
    then (fst (collect sp), add (key_of k a) (snd (collect sp)))
    else (add (key_of k a) (fst (collect sp)), snd (collect sp)).
Proof. unfold collect. rewrite fold_left_app. reflexivity. Qed.

End WithValue.

End ScriptFacts.

(** X27. [create] throws exactly when an argument is named [help] or has
    [help] as its key.  Otherwise the object it returns lists the arguments
    followed by the [help] flag and holds each argument's default (nothing
    where there is none) and [false] for [help]. *)
Theorem create_reserves_help (Value : Type) (same_value_zero : Value -> Value -> bool)
        (of_boolean : bool -> Value) (to_text : Value -> string)
        (scriptName scriptHelp : string) (args : Script.ArgMap Value)
        (Hnames : NoDup (map fst args)) :
  (Script.create same_value_zero of_boolean to_text scriptName scriptHelp args
   = Args.Throw "help is a reserved argument name"
   <-> exists k a, In (k, a) args
                   /\ (k = "help" \/ Script.key (Script.spec a) = Some "help"))
  /\ ((forall k a, In (k, a) args ->
         k <> "help" /\ Script.key (Script.spec a) <> Some "help") ->
      Script.create same_value_zero of_boolean to_text scriptName scriptHelp args
      = Args.Ok
          (Script.mkParsedArgs (args ++ [("help", Script.help_arg of_boolean)])
             scriptName scriptHelp
             (map (fun ka => (fst ka, Script.default (Script.spec (snd ka)))) args
              ++ [("help", Some (of_boolean false))]))).
Proof.
  assert (Hok : (forall k a, In (k, a) args ->
                   k <> "help" /\ Script.key (Script.spec a) <> Some "help") ->
                Script.create same_value_zero of_boolean to_text scriptName scriptHelp args
                = Args.Ok
                    (Script.mkParsedArgs (args ++ [("help", Script.help_arg of_boolean)])
                       scriptName scriptHelp
                       (Script.defaults args ++ [("help", Some (of_boolean false))]))).
  { intros H. apply ScriptFacts.create_ok; [|exact Hnames].
    intros [k a] Hin. apply ScriptFacts.reserved_false. apply (H k a Hin). }
  split; [|exact Hok]. split.
  - intros Hthrow.
    destruct (existsb (fun ka => Script.reserved (fst ka) (snd ka)) args) eqn:E.
    + apply existsb_exists in E. destruct E as ([k a] & Hin & Hr).
      exists k, a. split; [exact Hin|]. simpl in Hr. unfold Script.reserved in Hr.
      apply orb_true_iff in Hr. destruct Hr as [Hr|Hr].
      * left. apply String.eqb_eq. exact Hr.
      * right. destruct (Script.key (Script.spec a)) as [key|]; [|discriminate].
        apply String.eqb_eq in Hr. congruence.
    + exfalso. unfold Script.create in Hthrow. rewrite E in Hthrow. discriminate.
  - intros (k & a & Hin & Hr). unfold Script.create.
    replace (existsb (fun ka => Script.reserved (fst ka) (snd ka)) args) with true;
      [reflexivity|].
    symmetry. apply existsb_exists. exists (k, a). split; [exact Hin|].
    simpl. unfold Script.reserved. apply orb_true_iff.
    destruct Hr as [->|Hr]; [left; reflexivity|].
    right. rewrite Hr. reflexivity.
Qed.


Lemma create_reserves_help_witness :
  Script.create ScriptSample.same ScriptSample.boolean ScriptSample.show
                "loopcasual" "A script." ScriptSample.args
  = Args.Ok
      (Script.mkParsedArgs
         (ScriptSample.args ++ [("help", Script.help_arg ScriptSample.boolean)])
         "loopcasual" "A script."
         [("note", None); ("verbose", Some (ScriptSample.boolean false));
          ("help", Some (ScriptSample.boolean false))]).
Proof.
  assert (Hnames : NoDup (map fst ScriptSample.args)).
  { simpl. constructor; [simpl; intros [H|[]]; discriminate H|].
    constructor; [intros [] | constructor]. }
  destruct (create_reserves_help ScriptSample.Value ScriptSample.same ScriptSample.boolean
              ScriptSample.show "loopcasual" "A script." ScriptSample.args Hnames)
    as [_ H].
  apply H. intros k a [E|[E|[]]]; inversion E; subst; split; discriminate.
Defined.

(** X28. When [fill] returns on a command that is not empty, the parser
    accepted the command and, for every argument: if the command mentions
    its key, the argument now holds what its own parser made of the text
    given, a value among its options when it has options; if the command
    does not mention its key, it holds what it held before. *)
Theorem fill_assigns_what_is_supplied (Value : Type)
        (same_value_zero : Value -> Value -> bool)
        (args args' : Script.ParsedArgs Value) (command : string)
        (Hnames : NoDup (map fst (Script.specs args)))
        (Hcommand : command <> EmptyString)
        (Hfill : Script.fill same_value_zero args (Some command)
                 = Some (Script.Returned args')) :
  exists parsed,
    Args.parse command (fst (Script.collect (Script.specs args)))
               (snd (Script.collect (Script.specs args)))
    = Some (Args.Ok parsed)
    /\ Script.specs args' = Script.specs args
    /\ forall k a, In (k, a) (Script.specs args) ->
         match StrMap.get (Script.key_of k a) parsed with
         | None =>
             StrMap.get k (Script.values args') = StrMap.get k (Script.values args)
         | Some value_str =>
             exists value,
               Script.parser a value_str = Some value
               /\ (forall opts, Script.options (Script.spec a) = Some opts ->
                                Script.among same_value_zero value opts = true)
               /\ StrMap.get k (Script.values args') = Some (Some value)
         end.
Proof.
  unfold Script.fill in Hfill.
  apply String.eqb_neq in Hcommand. rewrite Hcommand in Hfill.
  destruct (Script.collect (Script.specs args)) as [keys flags]. simpl.
  destruct (Args.parse command keys flags) as [[parsed|exn]|]; try discriminate.
  exists parsed. split; [reflexivity|].
  inversion Hfill as [Hassign].
  destruct (ScriptFacts.assign_spec Value same_value_zero parsed _ _ _ Hnames Hassign)
    as (Hs & _ & Hall).
  split; [exact Hs | exact Hall].
Qed.

Lemma fill_assigns_what_is_supplied_witness :
  exists parsed,
    Args.parse "note=hi verbose"
               (fst (Script.collect (Script.specs ScriptSample.fresh)))
               (snd (Script.collect (Script.specs ScriptSample.fresh)))
    = Some (Args.Ok parsed)
    /\ Script.specs ScriptSample.filled = Script.specs ScriptSample.fresh
    /\ forall k a, In (k, a) (Script.specs ScriptSample.fresh) ->
         match StrMap.get (Script.key_of k a) parsed with
         | None =>
             StrMap.get k (Script.values ScriptSample.filled)
             = StrMap.get k (Script.values ScriptSample.fresh)
         | Some value_str =>
             exists value,
               Script.parser a value_str = Some value
               /\ (forall opts, Script.options (Script.spec a) = Some opts ->
                                Script.among ScriptSample.same value opts = true)
               /\ StrMap.get k (Script.values ScriptSample.filled) = Some (Some value)
         end.
Proof.
  apply (fill_assigns_what_is_supplied ScriptSample.Value ScriptSample.same
           ScriptSample.fresh ScriptSample.filled "note=hi verbose").
  - simpl. repeat constructor; simpl; intuition discriminate.
  - discriminate.
  - reflexivity.
Defined.

(** X29. The [help] flag from end to end: for arguments with different
    names, none of them reserved, [parse] on the command [help] returns the
    object [create] builds with [help] turned to [true] and every other
    argument at its default. *)
Theorem help_flag_end_to_end (Value : Type) (same_value_zero : Value -> Value -> bool)
        (of_boolean : bool -> Value) (to_text : Value -> string)
        (scriptName scriptHelp : string) (args : Script.ArgMap Value)
        (Hnames : NoDup (map fst args))
        (Hfree : forall k a, In (k, a) args ->
                   k <> "help" /\ Script.key (Script.spec a) <> Some "help") :
  Script.parse same_value_zero of_boolean to_text scriptName scriptHelp args "help"
  = Some (Args.Ok
            (Script.mkParsedArgs (args ++ [("help", Script.help_arg of_boolean)])
               scriptName scriptHelp
               (map (fun ka => (fst ka, Script.default (Script.spec (snd ka)))) args
                ++ [("help", Some (of_boolean true))]))).
Proof.
  assert (Hres : forall ka, In ka args -> Script.reserved (fst ka) (snd ka) = false).
  { intros [k a] Hin. apply ScriptFacts.reserved_false. apply (Hfree k a Hin). }
  unfold Script.parse.
  rewrite (ScriptFacts.create_ok Value same_value_zero of_boolean to_text
             scriptName scriptHelp args Hres Hnames).
  unfold Script.fill. cbn [String.eqb Script.specs].
  rewrite ScriptFacts.collect_snoc.
  replace (String.eqb (Script.valueHelpName (Script.help_arg of_boolean)) "FLAG")
    with true by reflexivity.
  destruct (Script.collect args) as [keys flags]. cbn [fst snd].
  change (Script.key_of "help" (Script.help_arg of_boolean)) with "help".
  assert (Hparse : Args.parse "help" keys (Script.add "help" flags)
                   = Some (Args.Ok [("help", "true")])).
  { apply (WriteFacts.parse_written keys (Script.add "help" flags) [Args.flag_on "help"]).
    - cbn [forallb Args.writable]. rewrite ScriptFacts.has_add. reflexivity.
    - simpl. constructor; [intros [] | constructor]. }
  rewrite Hparse.
  rewrite ScriptFacts.assign_skip.
  - cbn [Script.assign].
    change (Script.key_of "help" (Script.help_arg of_boolean)) with "help".
    replace (StrMap.get "help" [("help", "true")]) with (Some "true") by reflexivity.
    replace (Script.parser (Script.help_arg of_boolean) "true")
      with (Some (of_boolean true)) by reflexivity.
    cbn [Script.options Script.spec Script.help_arg Script.help_spec
         Script.set_values Script.values Script.specs Script.script Script.scriptHelp].
    rewrite ScriptFacts.str_set_last; [reflexivity|].
    apply ScriptFacts.str_has_absent. unfold StrMap.keys, Script.defaults.
    rewrite map_map. simpl. intros Hin. apply in_map_iff in Hin.
    destruct Hin as ([k a] & Hk & Hin). simpl in Hk. subst k.
    destruct (Hfree _ _ Hin) as [Hne _]. apply Hne. reflexivity.
  - intros ka Hin.
    change (StrMap.get (Script.key_of (fst ka) (snd ka)) [("help", "true")])
      with (if String.eqb "help" (Script.key_of (fst ka) (snd ka))
            then Some "true" else None).
    replace (String.eqb "help" (Script.key_of (fst ka) (snd ka))) with false;
      [reflexivity|].
    symmetry. apply String.eqb_neq. intros E.
    apply (ScriptFacts.reserved_key_of Value (fst ka) (snd ka) (Hres ka Hin)).
    symmetry. exact E.
Qed.

Lemma help_flag_end_to_end_witness :
  Script.parse ScriptSample.same ScriptSample.boolean ScriptSample.show
               "loopcasual" "A script." ScriptSample.args "help"
  = Some (Args.Ok
            (Script.mkParsedArgs
               (ScriptSample.args ++ [("help", Script.help_arg ScriptSample.boolean)])
               "loopcasual" "A script."
               [("note", None); ("verbose", Some (ScriptSample.boolean false));
                ("help", Some (ScriptSample.boolean true))])).
Proof.
  apply (help_flag_end_to_end ScriptSample.Value ScriptSample.same ScriptSample.boolean
           ScriptSample.show "loopcasual" "A script." ScriptSample.args).
  - simpl. constructor; [simpl; intros [H|[]]; discriminate H|].
    constructor; [intros [] | constructor].
  - intros k a [E|[E|[]]]; inversion E; subst; split; discriminate.
Defined.
